(** * EMGM: soft EM fit of a Gaussian mixture (06_SIS/python/EMGM.py)

    A shallow embedding of [EMGM.py] and the properties of its routines.

    Numbers.  NumPy computes in IEEE double precision.  The embedding keeps
    the special values (NaN, -inf, +inf) and how every operation treats
    them, and takes the finite values to be real numbers with exact
    arithmetic: no rounding, no overflow, no signed zero (a division of a
    nonzero finite number by zero gives the infinity of the sign of the
    numerator).

    Arrays.  A 1-D array is a list, a 2-D array a list of rows.  Shapes are
    dynamic as in NumPy: every elementwise operation goes through the
    broadcasting rule and raises [ValueError] when the shapes do not fit.
    A 2-D array without rows is taken to have no columns.

    NumPy.  Where the versions of NumPy differ the embedding follows NumPy
    before 2.1.  The one place is in [logsumexp]: on an array of one row,
    [np.isfinite(y).squeeze()] is a 0-d array, which [np.where] takes as a
    1-D array of one entry up to NumPy 2.0 (with a deprecation warning from
    1.17 on) and refuses with [ValueError] from NumPy 2.1 on.  On an array
    with another number of rows the versions agree; the properties of
    [logsumexp] and of [expectation] that claim a return are stated for
    such arrays.

    Exceptions.  A routine returns [Ok v] or [Err e], [e] the Python
    exception that ends it. *)

From Stdlib Require Import Reals Lra List Arith Lia Bool.
Import ListNotations.

(* ================================================================== *)
(** ** Numbers *)

Module Num.

Local Open Scope R_scope.

Inductive num : Type :=
  | NaN
  | NInf
  | PInf
  | Fin (r : R).

Inductive sign : Type := Neg | Zero | Pos.

Definition Rsign (r : R) : sign :=
  match total_order_T 0 r with
  | inleft (left _) => Pos
  | inleft (right _) => Zero
  | inright _ => Neg
  end.

Definition sign_mul (s1 s2 : sign) : sign :=
  match s1, s2 with
  | Zero, _ | _, Zero => Zero
  | Pos, s | s, Pos => s
  | Neg, Neg => Pos
  end.

(** The infinity of a given sign; inf * 0 is NaN. *)
Definition inf_of (s : sign) : num :=
  match s with Pos => PInf | Neg => NInf | Zero => NaN end.

(** The sign of a number that is not NaN. *)
Definition nsign (x : num) : sign :=
  match x with
  | Fin r => Rsign r
  | PInf => Pos
  | NInf => Neg
  | NaN => Zero
  end.

Definition isfinite (x : num) : bool :=
  match x with Fin _ => true | _ => false end.

Definition isnan (x : num) : bool :=
  match x with NaN => true | _ => false end.

Definition nneg (x : num) : num :=
  match x with
  | NaN => NaN
  | NInf => PInf
  | PInf => NInf
  | Fin r => Fin (- r)
  end.

Definition nadd (x y : num) : num :=
  match x, y with
  | NaN, _ | _, NaN => NaN
  | Fin a, Fin b => Fin (a + b)
  | PInf, NInf | NInf, PInf => NaN
  | PInf, _ | _, PInf => PInf
  | NInf, _ | _, NInf => NInf
  end.

Definition nsub (x y : num) : num := nadd x (nneg y).

Definition nmul (x y : num) : num :=
  match x, y with
  | NaN, _ | _, NaN => NaN
  | Fin a, Fin b => Fin (a * b)
  | _, _ => inf_of (sign_mul (nsign x) (nsign y))
  end.

(** x / 0 is the infinity of the sign of x and 0 / 0 is NaN;
    a finite number over an infinity is 0. *)
Definition ndiv (x y : num) : num :=
  match x, y with
  | NaN, _ | _, NaN => NaN
  | Fin a, Fin b =>
      if Req_dec_T b 0 then inf_of (Rsign a) else Fin (a / b)
  | Fin _, _ => Fin 0
  | _, Fin b =>
      inf_of (sign_mul (nsign x) (if Req_dec_T b 0 then Pos else Rsign b))
  | _, _ => NaN
  end.

Definition nabs (x : num) : num :=
  match x with
  | NaN => NaN
  | NInf | PInf => PInf
  | Fin r => Fin (Rabs r)
  end.

Definition nsqrt (x : num) : num :=
  match x with
  | NaN | NInf => NaN
  | PInf => PInf
  | Fin r => if Rlt_dec r 0 then NaN else Fin (sqrt r)
  end.

Definition nexp (x : num) : num :=
  match x with
  | NaN => NaN
  | NInf => Fin 0
  | PInf => PInf
  | Fin r => Fin (exp r)
  end.

Definition nlog (x : num) : num :=
  match x with
  | NaN | NInf => NaN
  | PInf => PInf
  | Fin r =>
      match Rsign r with
      | Pos => Fin (ln r)
      | Zero => NInf
      | Neg => NaN
      end
  end.

(** [x < y] of IEEE: false as soon as one side is NaN. *)
Definition nltb (x y : num) : bool :=
  match x, y with
  | NaN, _ | _, NaN => false
  | Fin a, Fin b => if Rlt_dec a b then true else false
  | NInf, NInf | PInf, _ | _, NInf => false
  | NInf, _ | _, PInf => true
  end.

(** The maximum of two numbers as [np.max] reduces: NaN wins. *)
Definition nmax (x y : num) : num :=
  match x, y with
  | NaN, _ | _, NaN => NaN
  | _, _ => if nltb x y then y else x
  end.

Definition of_nat (n : nat) : num := Fin (INR n).

End Num.
Export Num.

(* ================================================================== *)
(** ** Exceptions *)

Inductive exn : Type :=
  | ValueError
  | IndexError
  | LinAlgError
  | AxisError
  | UnboundLocalError.

Inductive result (A : Type) : Type :=
  | Ok (a : A)
  | Err (e : exn).

Arguments Ok {A} a.
Arguments Err {A} e.

Definition bind {A B : Type} (m : result A) (k : A -> result B) : result B :=
  match m with
  | Ok a => k a
  | Err e => Err e
  end.

Declare Scope result_scope.
Delimit Scope result_scope with result.
Notation "x <- m ;; k" := (bind m (fun x => k))
  (at level 61, m at next level, right associativity) : result_scope.
Notation "' p <- m ;; k" := (bind m (fun x => match x with p => k end))
  (at level 61, p pattern, m at next level, right associativity) : result_scope.
Open Scope result_scope.

Fixpoint mapM {A B : Type} (f : A -> result B) (l : list A) : result (list B) :=
  match l with
  | [] => Ok []
  | a :: l' => b <- f a ;; bs <- mapM f l' ;; Ok (b :: bs)
  end.

(** [for a in l: s = body(a, s)], stopping at the first exception. *)
Fixpoint foldM {A S : Type} (body : A -> S -> result S) (l : list A) (s : S)
  : result S :=
  match l with
  | [] => Ok s
  | a :: l' => s' <- body a s ;; foldM body l' s'
  end.

Definition range (n : nat) : list nat := seq 0 n.

(* ================================================================== *)
(** ** NumPy arrays *)

Abbreviation vector := (list num) (only parsing).
Abbreviation matrix := (list (list num)) (only parsing).

Definition nrows (A : matrix) : nat := length A.
Definition ncols (A : matrix) : nat :=
  match A with
  | [] => 0
  | r :: _ => length r
  end.

(** Reading out of range gives NaN; the routines below check the index
    themselves wherever NumPy raises. *)
Definition get (A : matrix) (i j : nat) : num := nth j (nth i A []) NaN.

Definition mk_vector (n : nat) (f : nat -> num) : vector := map f (range n).

Definition mk_matrix (r c : nat) (f : nat -> nat -> num) : matrix :=
  map (fun i => mk_vector c (f i)) (range r).

Definition zeros (r c : nat) : matrix := mk_matrix r c (fun _ _ => Fin 0).

Definition eye (d : nat) : matrix :=
  mk_matrix d d (fun i j => if i =? j then Fin 1 else Fin 0).

Definition mmap (f : num -> num) (A : matrix) : matrix := map (map f) A.

Definition transpose (A : matrix) : matrix :=
  mk_matrix (ncols A) (nrows A) (fun i j => get A j i).

(** [v.reshape(-1,1)] and [v.reshape(1,-1)] of a 1-D array. *)
Definition reshape_col (v : vector) : matrix := map (fun x => [x]) v.
Definition reshape_row (v : vector) : matrix := [v].

(** [A[:,j]] *)
Definition getcol (A : matrix) (j : nat) : result vector :=
  if j <? ncols A then Ok (map (fun row => nth j row NaN) A) else Err IndexError.

(** [v[i]] for a non-negative [i] *)
Definition getitem {A : Type} (v : list A) (i : nat) : result A :=
  match nth_error v i with
  | Some x => Ok x
  | None => Err IndexError
  end.

Fixpoint update {A : Type} (v : list A) (i : nat) (x : A) : list A :=
  match v, i with
  | [], _ => []
  | _ :: v', 0 => x :: v'
  | y :: v', S i' => y :: update v' i' x
  end.

(** [v[i] = x] for a non-negative [i] *)
Definition setitem {A : Type} (v : list A) (i : nat) (x : A) : result (list A) :=
  if i <? length v then Ok (update v i x) else Err IndexError.

(** [A[i,j] = x] *)
Definition setitem2 (A : matrix) (i j : nat) (x : num) : result matrix :=
  row <- getitem A i ;;
  row' <- setitem row j x ;;
  setitem A i row'.

(** The broadcasting rule on one axis. *)
Definition bdim (a b : nat) : result nat :=
  if a =? b then Ok a
  else if a =? 1 then Ok b
  else if b =? 1 then Ok a
  else Err ValueError.

(** The index read along an axis of length [dim]: an axis of length 1 is
    stretched. *)
Definition bidx (dim i : nat) : nat := if dim =? 1 then 0 else i.

Definition bget (A : matrix) (i j : nat) : num :=
  get A (bidx (nrows A) i) (bidx (ncols A) j).

(** An elementwise binary operation on two 2-D arrays. *)
Definition broadcast (f : num -> num -> num) (A B : matrix) : result matrix :=
  r <- bdim (nrows A) (nrows B) ;;
  c <- bdim (ncols A) (ncols B) ;;
  Ok (mk_matrix r c (fun i j => f (bget A i j) (bget B i j))).

(** The value assigned to a slice of the given shape is broadcast to it. *)
Definition fits (src tgt : nat) : bool := (src =? tgt) || (src =? 1).

(** [A[:,j] = y] for a 1-D [y] *)
Definition setcol (A : matrix) (j : nat) (y : vector) : result matrix :=
  if negb (j <? ncols A) then Err IndexError
  else if negb (fits (length y) (nrows A)) then Err ValueError
  else Ok (mk_matrix (nrows A) (ncols A)
             (fun a b => if b =? j then nth (bidx (length y) a) y NaN
                         else get A a b)).

(** A 3-D array of shape (d,d,k) is the list of its k slices [S[:,:,i]];
    [S[:,:,i] = M] broadcasts [M] to the d x d slice. *)
Definition setslice (d : nat) (S : list matrix) (i : nat) (M : matrix)
  : result (list matrix) :=
  if negb (i <? length S) then Err IndexError
  else if negb (fits (nrows M) d && fits (ncols M) d) then Err ValueError
  else Ok (update S i (mk_matrix d d (bget M))).

Definition nsum (v : vector) : num := fold_right nadd (Fin 0) v.

(** [np.sum(A)] *)
Definition np_sum_all (A : matrix) : num := nsum (map nsum A).

(** [np.sum(A, axis)] *)
Definition np_sum (A : matrix) (axis : nat) : result vector :=
  match axis with
  | 0 => Ok (map nsum (transpose A))
  | 1 => Ok (map nsum A)
  | _ => Err AxisError
  end.

(** The maximum of a 1-D slice; NumPy refuses an empty one. *)
Definition reduce_max (v : vector) : result num :=
  match v with
  | [] => Err ValueError
  | x :: v' => Ok (fold_left nmax v' x)
  end.

(** [np.max(A, axis)] *)
Definition np_max (A : matrix) (axis : nat) : result vector :=
  match axis with
  | 0 => mapM reduce_max (transpose A)
  | 1 => mapM reduce_max A
  | _ => Err AxisError
  end.

(** [np.matmul(A, B)] *)
Definition matmul (A B : matrix) : result matrix :=
  if ncols A =? nrows B
  then Ok (mk_matrix (nrows A) (ncols B)
             (fun i j => nsum (mk_vector (ncols A) (fun l => nmul (get A i l) (get B l j)))))
  else Err ValueError.

(** [np.diag(A)] of a 2-D array *)
Definition diag (A : matrix) : vector :=
  mk_vector (Nat.min (nrows A) (ncols A)) (fun i => get A i i).

(** [a.squeeze()] of an (m,1) array, as a 1-D array of [m] entries; for
    m = 1 NumPy makes a 0-d array, which [np.where] takes as a 1-D array of
    one entry before NumPy 2.1. *)
Definition squeeze (A : matrix) : vector := map (fun row => nth 0 row NaN) A.

(** [np.where(b)[0]] of a 1-D boolean array: the indices that hold. *)
Definition np_where (b : list bool) : list nat :=
  filter (fun i => nth i b false) (range (length b)).

(* ================================================================== *)
(** ** The library routines the module calls

    [scipy.cluster.vq.kmeans2(data, k, iter)] (centroids and one label per
    row of [data]), [np.linalg.cholesky(a)] (the lower factor, or
    [LinAlgError]) and [np.linalg.solve(a, b)] are not part of the module.
    The routines below take them from a [Library]; what a property needs
    of them is stated where it is used. *)

Class Library : Type := {
  kmeans2 : matrix -> nat -> nat -> result (matrix * list nat);
  cholesky : matrix -> result matrix;
  solve : matrix -> matrix -> result matrix
}.

(* ================================================================== *)
(** ** EMGM.py *)

Definition tol : num := Fin 1e-5%R.
Definition maxiter : nat := 500.
Arguments maxiter : simpl never.

(** What the driver prints before it returns. *)
Inductive report : Type :=
  | Converged (steps : nat)
  | NotConverged (steps : nat).

Definition params : Type := (matrix * list matrix * vector)%type.

(** The variables of the loop of [EMGM]; [mu], [si], [pi] are unbound
    until the first pass has assigned them. *)
Record state : Type := mkState {
  st_t : nat;
  st_converged : bool;
  st_llh : vector;
  st_R : matrix;
  st_params : option params
}.

(** [dummyvar(idx)]: one row per label, a 1 in the column of the label. *)
Definition dummyvar (idx : list nat) : result matrix :=
  m <- match idx with
       | [] => Err ValueError
       | i :: idx' => Ok (fold_left Nat.max idx' i)
       end ;;
  let n := m + 1 in
  let d := zeros (length idx) n in
  foldM (fun i d => l <- getitem idx i ;; setitem2 d i l (Fin 1))
        (range (length idx)) d.

(** [logsumexp(x, dim)].  The last two lines, [i = np.where(...)] and
    [s[i] = y[i]], are those of NumPy before 2.1 when [y] has one row. *)
Definition logsumexp (x : matrix) (dim : nat) : result matrix :=
  m <- np_max x dim ;;
  let y := reshape_col m in
  x <- broadcast nsub x y ;;
  let tmp1 := mmap nexp x in
  tmp2 <- np_sum tmp1 dim ;;
  let tmp3 := map nlog tmp2 in
  s <- broadcast nadd y (reshape_col tmp3) ;;
  let i := np_where (map negb (map isfinite (squeeze y))) in
  foldM (fun a s => ya <- getitem y a ;; setitem s a ya) i s.

Section Routines.

Context {lib : Library}.

(** [initialization(X, nGM)] *)
Definition initialization (X : matrix) (nGM : nat) : result matrix :=
  '(_, idx) <- kmeans2 (transpose X) nGM 10 ;;
  dummyvar idx.

(** [loggausspdf(X, mu, Sigma)] *)
Definition loggausspdf (X : matrix) (mu : vector) (Sigma : matrix)
  : result vector :=
  let d := nrows X in
  X <- broadcast nsub X (reshape_col mu) ;;
  L <- cholesky Sigma ;;
  let U := transpose L in
  Q <- solve (transpose U) X ;;
  QQ <- broadcast nmul Q Q ;;
  q <- np_sum QQ 0 ;;
  let c := nadd (nmul (of_nat d) (nlog (nmul (Fin 2) (Fin PI))))
                (nmul (Fin 2) (nsum (map nlog (diag U)))) in
  Ok (map (fun qi => ndiv (nneg (nadd c qi)) (Fin 2)) q).

(** The matrix [logpdf] of [expectation] as it enters [logsumexp]:
    column [i] is [loggausspdf(X, mu[:,i], si[:,:,i]) + log(pi[i])]. *)
Definition expectation_logpdf (X mu : matrix) (si : list matrix) (pi : vector)
  : result matrix :=
  let n := ncols X in
  let k := ncols mu in
  logpdf <- foldM (fun i logpdf =>
                     mui <- getcol mu i ;;
                     sii <- getitem si i ;;
                     y <- loggausspdf X mui sii ;;
                     setcol logpdf i y)
                  (range k) (zeros n k) ;;
  broadcast nadd logpdf (reshape_row (map nlog pi)).

(** [expectation(X, W, mu, si, pi)] *)
Definition expectation (X W mu : matrix) (si : list matrix) (pi : vector)
  : result (matrix * num) :=
  logpdf <- expectation_logpdf X mu si pi ;;
  T <- logsumexp logpdf 1 ;;
  WT <- broadcast nmul W T ;;
  let llh := ndiv (np_sum_all WT) (np_sum_all W) in
  logR <- broadcast nsub logpdf T ;;
  let R := mmap nexp logR in
  Ok (R, llh).

End Routines.

(** The body of the loop of [maximization] for component [i]. *)
Definition maximization_Sigma (X mu sqrtR : matrix) (nk : vector) (d i : nat)
  (Sigma : list matrix) : result (list matrix) :=
  mui <- getcol mu i ;;
  Xo <- broadcast nsub X (reshape_col mui) ;;
  sqi <- getcol sqrtR i ;;
  Xo <- broadcast nmul Xo (reshape_row sqi) ;;
  XX <- matmul Xo (transpose Xo) ;;
  nki <- getitem nk i ;;
  Sigma <- setslice d Sigma i (mmap (fun x => ndiv x nki) XX) ;;
  Si <- getitem Sigma i ;;
  Si <- broadcast nadd Si (mmap (fun x => nmul x (Fin 1e-6%R)) (eye d)) ;;
  setslice d Sigma i Si.

(** [maximization(X, W, R)] *)
Definition maximization (X W R : matrix) : result params :=
  R <- broadcast nmul W R ;;
  let d := nrows X in
  let k := ncols R in
  nk <- np_sum R 0 ;;
  let w := map (fun x => ndiv x (np_sum_all W)) nk in
  XR <- matmul X R ;;
  mu <- broadcast ndiv XR (reshape_col nk) ;;
  let Sigma := repeat (zeros d d) k in
  let sqrtR := mmap nsqrt R in
  Sigma <- foldM (maximization_Sigma X mu sqrtR nk d) (range k) Sigma ;;
  Ok (mu, Sigma, w).

Section Driver.

Context {lib : Library}.

(** One pass through the body of the [while] loop of [EMGM]. *)
Definition EMGM_step (X W : matrix) (s : state) : result state :=
  let t := st_t s + 1 in
  converged <-
    (if 1 <? t then
       a <- getitem (st_llh s) (t - 1) ;;
       b <- getitem (st_llh s) (t - 2) ;;
       let diff := nsub a b in
       let eps := nabs diff in
       Ok (nltb eps (nmul tol (nabs a)))
     else Ok (st_converged s)) ;;
  '(mu, si, pi) <- maximization X W (st_R s) ;;
  '(R, l) <- expectation X W mu si pi ;;
  llh <- setitem (st_llh s) t l ;;
  Ok (mkState t converged llh R (Some (mu, si, pi))).

(** [while (not converged) and t < maxiter: ...]; every pass adds one to
    [t], so [maxiter - t] passes are enough. *)
Fixpoint EMGM_loop (fuel : nat) (X W : matrix) (s : state) : result state :=
  if negb (st_converged s) && (st_t s <? maxiter) then
    match fuel with
    | 0 => Ok s
    | S fuel' => s' <- EMGM_step X W s ;; EMGM_loop fuel' X W s'
    end
  else Ok s.

(** [EMGM(X, W, nGM)]: the returned parameters and the line printed. *)
Definition EMGM (X : matrix) (W : vector) (nGM : nat)
  : result (params * report) :=
  let W := reshape_col W in
  R <- initialization X nGM ;;
  let llh := repeat NInf maxiter in
  s <- EMGM_loop maxiter X W (mkState 0 false llh R None) ;;
  let rep := if st_converged s then Converged (st_t s - 1)
             else NotConverged maxiter in
  match st_params s with
  | Some p => Ok (p, rep)
  | None => Err UnboundLocalError
  end.

End Driver.

(** The state after [j] passes through the loop body, whatever the guard
    says: the reference the loop is compared with. *)
Fixpoint EMGM_passes {lib : Library} (j : nat) (X W : matrix) (s : state)
  : result state :=
  match j with
  | 0 => Ok s
  | S j' => s' <- EMGM_passes j' X W s ;; EMGM_step X W s'
  end.

(** The convergence test on two successive log-likelihoods, [a] the later. *)
Definition converged_test (a b : num) : bool :=
  nltb (nabs (nsub a b)) (nmul tol (nabs a)).

(** The guard of the [while] loop. *)
Definition EMGM_guard (s : state) : bool :=
  negb (st_converged s) && (st_t s <? maxiter).

Definition initial_state (R : matrix) : state :=
  mkState 0 false (repeat NInf maxiter) R None.

(** The passes of a fit as the routines chain: each pass turns the
    responsibilities left by the one before into parameters
    ([maximization]) and these into new responsibilities and a
    log-likelihood ([expectation]). *)
Definition trace : Type := list (params * matrix * num).

Fixpoint em_chain {lib : Library} (X W R : matrix) (tr : trace) : Prop :=
  match tr with
  | [] => True
  | (p, R', l) :: tr' =>
      maximization X W R = Ok p /\
      (let '(mu, si, pi) := p in expectation X W mu si pi) = Ok (R', l) /\
      em_chain X W R' tr'
  end.

(** Entry [i] of the array [llh] once the passes of [tr] are made: the
    initial -inf at 0, the log-likelihood of pass [i] at [i]. *)
Definition trace_llh (tr : trace) (i : nat) : num :=
  nth i (NInf :: map snd tr) NaN.

Definition trace_R (R0 : matrix) (tr : trace) : matrix :=
  last (map (fun x => snd (fst x)) tr) R0.

Definition trace_params (tr : trace) : option params :=
  last (map (fun x => Some (fst (fst x))) tr) None.

(** The flag [converged] after the passes of [tr]. *)
Definition trace_converged (tr : trace) : bool :=
  if 1 <? length tr
  then converged_test (trace_llh tr (length tr - 1)) (trace_llh tr (length tr - 2))
  else false.

(** The loop variables after the passes of [tr]. *)
Definition state_after (R0 : matrix) (tr : trace) (s : state) : Prop :=
  st_t s = length tr /\
  length (st_llh s) = maxiter /\
  (forall i, nth i (st_llh s) NaN =
             if i <=? length tr then trace_llh tr i
             else if i <? maxiter then NInf else NaN) /\
  st_R s = trace_R R0 tr /\
  st_params s = trace_params tr /\
  st_converged s = trace_converged tr.

(* ================================================================== *)
(** * The vocabulary of the properties *)

(** ** Shapes, labels and rows *)

(** A 2-D array of shape (r,c). *)
Definition has_shape (r c : nat) (A : matrix) : Prop :=
  length A = r /\ Forall (fun row => length row = c) A.

(** The largest label. *)
Definition max_label (idx : list nat) : nat :=
  match idx with
  | [] => 0
  | i :: idx' => fold_left Nat.max idx' i
  end.

(** Row [a] is the indicator of the label of sample [a]. *)
Definition one_hot (idx : list nat) (n : nat) : matrix :=
  mk_matrix (length idx) n (fun a b => if b =? nth a idx 0 then Fin 1 else Fin 0).

(** The maximum of a row as [np.max] reduces it. *)
Definition row_max (row : vector) : num :=
  match row with
  | [] => NaN
  | x :: row' => fold_left nmax row' x
  end.

(** What [logsumexp] leaves for a row: the maximum if it is not finite,
    else max + log(sum(exp(row - max))). *)
Definition lse_row (row : vector) : num :=
  let m := row_max row in
  if isfinite m
  then nadd m (nlog (nsum (map (fun v => nexp (nsub v m)) row)))
  else m.

(** Rows of [s] replaced by those of [y] where [bs] holds. *)
Definition select_rows (bs : list bool) (y s : matrix) : matrix :=
  map (fun i => if nth i bs false then nth i y [] else nth i s [])
      (range (length s)).

(** [c * W] *)
Definition scale_weights (c : R) (W : matrix) : matrix := mmap (nmul (Fin c)) W.

(** Slice [i] of the covariances that [maximization] builds from the
    means [mu], the square roots [sqrtR] of the weighted responsibilities
    and the masses [nk]. *)
Definition Sigma_slice (X mu sqrtR : matrix) (nk : vector) (d n i : nat) : matrix :=
  mk_matrix d d (fun a b =>
    nadd (ndiv (nsum (mk_vector n (fun l =>
                  nmul (nmul (nsub (get X a l) (get mu a i)) (get sqrtR l i))
                       (nmul (nsub (get X b l) (get mu b i)) (get sqrtR l i)))))
               (nth i nk NaN))
         (nmul (if a =? b then Fin 1 else Fin 0) (Fin 1e-6%R))).

(** [W * R], its column sums and the means as [maximization] computes
    them: row [a] of the weighted sums is divided by the mass that the
    column [nk.reshape(-1,1)] holds in row [a]. *)
Definition weighted (W R : matrix) (n k : nat) : matrix :=
  mk_matrix n k (fun i j => nmul (get W i 0) (get R i j)).

Definition masses (W R : matrix) (n k : nat) : vector :=
  mk_vector k (fun j => nsum (mk_vector n (fun i => nmul (get W i 0) (get R i j)))).

Definition means (X W R : matrix) (d n k : nat) : matrix :=
  mk_matrix d k (fun a j =>
    ndiv (nsum (mk_vector n (fun l => nmul (get X a l) (nmul (get W l 0) (get R l j)))))
         (nth (bidx k a) (masses W R n k) NaN)).

(** ** A reference library

    [lapack_cholesky] is the factorization as the [potrf] of the OpenBLAS
    that NumPy ships makes it: only the lower triangle of the array is
    read, row [i] of the factor is found from the rows above by forward
    substitution, and the call fails with [LinAlgError] as soon as a pivot
    [p] has [p <= 0].  A pivot that is NaN passes this test and the factor
    comes out with NaN entries, without an exception (the [potrf] of
    reference LAPACK refuses a NaN pivot too; the two agree on every
    finite matrix).
    [triangular_solve] solves a system whose matrix is lower triangular,
    the only systems [loggausspdf] gives to [np.linalg.solve]: it raises
    [LinAlgError] on a matrix that is not square or has a zero pivot and
    [ValueError] when the right-hand side has another number of rows.
    The clustering of [library_with_labels idx] answers the labels
    [idx]. *)

Definition dot (u v : vector) : num :=
  nsum (map (fun p => nmul (fst p) (snd p)) (combine u v)).

(** The entries of row [i] of the factor left of the diagonal: [acc] holds
    the first [j] of them and [Ls] the rows [j], [j+1], ... of the factor. *)
Fixpoint chol_row (Ls : list vector) (a : vector) (acc : vector) : vector :=
  match Ls with
  | [] => acc
  | Lj :: Ls' =>
      let j := length acc in
      chol_row Ls' a (acc ++ [ndiv (nsub (nth j a NaN) (dot acc Lj)) (nth j Lj NaN)])
  end.

Fixpoint chol_rows (d : nat) (A : matrix) (Ls : list vector) : result matrix :=
  match A with
  | [] => Ok Ls
  | a :: A' =>
      let i := length Ls in
      let acc := chol_row Ls a [] in
      let p := nsub (nth i a NaN) (dot acc acc) in
      if nltb (Fin 0) p || isnan p
      then chol_rows d A' (Ls ++ [acc ++ nsqrt p :: repeat (Fin 0) (d - i - 1)])
      else Err LinAlgError
  end.

Definition lapack_cholesky (A : matrix) : result matrix :=
  if nrows A =? ncols A then chol_rows (nrows A) A [] else Err LinAlgError.

Definition is_zero (x : num) : bool :=
  match x with
  | Fin r => if Req_dec_T r 0 then true else false
  | _ => false
  end.

(** Row [i] of the solution from the rows above. *)
Fixpoint solve_rows (n : nat) (a b Q : matrix) : result matrix :=
  match a, b with
  | ai :: a', bi :: b' =>
      let i := length Q in
      let piv := nth i ai NaN in
      if is_zero piv then Err LinAlgError
      else
        let row := mk_vector n (fun c =>
                     ndiv (nsub (nth c bi NaN)
                                (dot ai (map (fun q => nth c q NaN) Q)))
                          piv) in
        solve_rows n a' b' (Q ++ [row])
  | _, _ => Ok Q
  end.

Definition triangular_solve (a b : matrix) : result matrix :=
  if negb (nrows a =? ncols a) then Err LinAlgError
  else if negb (nrows a =? nrows b) then Err ValueError
  else solve_rows (ncols b) a b [].

Definition library_with_labels (idx : list nat) : Library := {|
  kmeans2 := fun data k iter => Ok (zeros k (ncols data), idx);
  cholesky := lapack_cholesky;
  solve := triangular_solve
|}.

(** ** Real values, sums and positive-definite matrices *)

Section RealVocabulary.

Local Open Scope R_scope.

Definition Rsum (l : list R) : R := fold_right Rplus 0 l.

(** exp of an entry that is finite or -inf. *)
Definition rexp (v : num) : R :=
  match v with
  | Fin a => exp a
  | _ => 0
  end.

(** An entry that is finite or -inf. *)
Definition below_inf (v : num) : Prop := v = NInf \/ exists a, v = Fin a.

(** The real value of a finite number. *)
Definition to_R (v : num) : R :=
  match v with
  | Fin a => a
  | _ => 0
  end.

Definition finite (v : num) : Prop := exists a, v = Fin a.

Definition rsum (n : nat) (f : nat -> R) : R := Rsum (map f (range n)).

(** A covariance matrix: d x d, finite and symmetric. *)
Definition covariance (d : nat) (S : matrix) : Prop :=
  has_shape d d S /\
  (forall i j, (i < d)%nat -> (j < d)%nat -> finite (get S i j)) /\
  (forall i j, (i < d)%nat -> (j < d)%nat -> get S i j = get S j i).

(** The quadratic form x' S x. *)
Definition quad_form (d : nat) (S : matrix) (x : nat -> R) : R :=
  rsum d (fun i => rsum d (fun j => x i * to_R (get S i j) * x j)).

Definition pos_def (d : nat) (S : matrix) : Prop :=
  covariance d S /\
  forall x : nat -> R, (exists i, (i < d)%nat /\ x i <> 0) -> 0 < quad_form d S x.

(** The real value of an entry of a 2-D array, of a 1-D array. *)
Definition lr (L : matrix) (p q : nat) : R := to_R (get L p q).

Definition vr (v : vector) (k : nat) : R := to_R (nth k v NaN).

(** What holds of the rows of the factor found so far: they are finite,
    zero right of the diagonal, positive on it, and their products give
    the lower triangle of [s]. *)
Definition chol_inv (d : nat) (s : nat -> nat -> R) (L : matrix) : Prop :=
  (length L <= d)%nat /\
  (forall p, (p < length L)%nat -> length (nth p L []) = d) /\
  (forall p q, (p < length L)%nat -> (q < d)%nat -> finite (get L p q)) /\
  (forall p q, (p < length L)%nat -> (p < q)%nat -> (q < d)%nat -> lr L p q = 0) /\
  (forall p, (p < length L)%nat -> 0 < lr L p p) /\
  (forall p q, (p < length L)%nat -> (q <= p)%nat ->
     rsum (S q) (fun k => lr L p k * lr L q k) = s p q).

End RealVocabulary.

Section LibraryContract.

Context {lib : Library}.

(** What the module needs of [np.linalg.cholesky]: it raises
    [LinAlgError] on a covariance matrix that is not positive-definite. *)
Definition cholesky_rejects : Prop :=
  forall d S, covariance d S -> ~ pos_def d S -> cholesky S = Err LinAlgError.

End LibraryContract.

(** ** The arrays of the examples *)

Section Examples.

Local Open Scope R_scope.

(** Two samples in the plane, two components. *)
Definition X22 : matrix := [[Fin 1; Fin 2]; [Fin 3; Fin 4]].

Definition W2 : matrix := [[Fin 1]; [Fin 1]].

Definition R22 : matrix := [[Fin 1; Fin 0]; [Fin (1 / 2); Fin (1 / 2)]].

(** Both samples in component 0. *)
Definition R22_empty : matrix := [[Fin 1; Fin 0]; [Fin 1; Fin 0]].

(** A symmetric matrix with a negative direction: (1,-1) gives -2. *)
Definition indefinite : matrix := [[Fin 1; Fin 2]; [Fin 2; Fin 1]].

End Examples.

(* ================================================================== *)
(** * Properties *)

(** ** The exception monad *)

Lemma bind_Ok_inv {A B : Type} (m : result A) (k : A -> result B) (b : B) :
  bind m k = Ok b -> exists a, m = Ok a /\ k a = Ok b.
Proof.
  destruct m as [a|e]; simpl; intros H; [exists a; auto | discriminate].
Qed.

Lemma bind_Err_inv {A B : Type} (m : result A) (k : A -> result B) (e : exn) :
  bind m k = Err e -> m = Err e \/ exists a, m = Ok a /\ k a = Err e.
Proof.
  destruct m as [a|e']; simpl; intros H.
  - right. exists a. split; [reflexivity | exact H].
  - left. inversion H; reflexivity.
Qed.

Tactic Notation "inv_bind" hyp(H) "as" simple_intropattern(a) ident(Ha) :=
  apply bind_Ok_inv in H; destruct H as (a & Ha & H).

Lemma foldM_ext {A S : Type} (f g : A -> S -> result S) (l : list A) (s : S) :
  (forall a s', In a l -> f a s' = g a s') -> foldM f l s = foldM g l s.
Proof.
  revert s; induction l as [|a l IH]; intros s Hfg; simpl; [reflexivity|].
  rewrite (Hfg a s (or_introl eq_refl)).
  destruct (g a s) as [s1|e]; simpl; [|reflexivity].
  apply IH. intros b s' Hb. apply Hfg. right; exact Hb.
Qed.

Lemma foldM_app {A S : Type} (f : A -> S -> result S) (l1 l2 : list A) (s : S) :
  foldM f (l1 ++ l2) s = (s' <- foldM f l1 s ;; foldM f l2 s').
Proof.
  revert s; induction l1 as [|a l1 IH]; intros s; simpl; [reflexivity|].
  destruct (f a s) as [s1|e]; simpl; [apply IH | reflexivity].
Qed.

(** ** The driver *)

Section DriverFacts.

Context {lib : Library}.
Variables X W : matrix.

Lemma getitem_Ok_nth {A : Type} (v : list A) (i : nat) (x d : A) :
  getitem v i = Ok x -> i < length v /\ nth i v d = x.
Proof.
  unfold getitem. destruct (nth_error v i) as [y|] eqn:E; intros H; inversion H; subst.
  split; [apply nth_error_Some; congruence | apply nth_error_nth; exact E].
Qed.

Lemma getitem_lt {A : Type} (v : list A) (i : nat) (d : A) :
  i < length v -> getitem v i = Ok (nth i v d).
Proof.
  intros Hi. unfold getitem.
  destruct (nth_error v i) as [y|] eqn:E.
  - f_equal. symmetry. apply nth_error_nth; exact E.
  - apply nth_error_None in E. lia.
Qed.

Lemma update_length {A : Type} (v : list A) (i : nat) (x : A) :
  length (update v i x) = length v.
Proof.
  revert i; induction v as [|y v IH]; intros [|i]; simpl; auto.
Qed.

Lemma nth_update {A : Type} (v : list A) (i j : nat) (x d : A) :
  nth j (update v i x) d = if (j =? i) && (i <? length v) then x else nth j v d.
Proof.
  revert i j; induction v as [|y v IH]; intros i j.
  - simpl. rewrite andb_false_r. destruct j; reflexivity.
  - destruct i as [|i], j as [|j]; simpl; try reflexivity.
    rewrite IH. reflexivity.
Qed.

(** What one pass does to the loop variables. *)
Lemma EMGM_step_spec (s s' : state) :
  EMGM_step X W s = Ok s' <->
  exists mu si pi R l,
    st_t s + 1 < length (st_llh s) /\
    maximization X W (st_R s) = Ok (mu, si, pi) /\
    expectation X W mu si pi = Ok (R, l) /\
    s' = mkState (st_t s + 1)
           (if 1 <? st_t s + 1
            then converged_test (nth (st_t s) (st_llh s) NaN)
                                (nth (st_t s - 1) (st_llh s) NaN)
            else st_converged s)
           (update (st_llh s) (st_t s + 1) l) R (Some (mu, si, pi)).
Proof.
  unfold EMGM_step. split.
  - intros H. inv_bind H as c Hc. inv_bind H as [[mu si] pi] HM.
    inv_bind H as [R l] HE. inv_bind H as llh Hl.
    unfold setitem in Hl.
    destruct (st_t s + 1 <? length (st_llh s)) eqn:Et; [|discriminate].
    apply Nat.ltb_lt in Et. inversion Hl; inversion H; subst; clear Hl H.
    exists mu, si, pi, R, l. repeat split; auto.
    f_equal.
    destruct (1 <? st_t s + 1) eqn:E1.
    + inv_bind Hc as a Ha. inv_bind Hc as b Hb. inversion Hc; subst.
      apply (getitem_Ok_nth _ _ _ NaN) in Ha, Hb.
      destruct Ha as [_ <-], Hb as [_ <-]. unfold converged_test.
      replace (st_t s + 1 - 1) with (st_t s) by lia.
      replace (st_t s + 1 - 2) with (st_t s - 1) by lia. reflexivity.
    + inversion Hc; reflexivity.
  - intros (mu & si & pi & R & l & Ht & HM & HE & ->).
    assert (Hc : (if 1 <? st_t s + 1
       then a <- getitem (st_llh s) (st_t s + 1 - 1);;
            b <- getitem (st_llh s) (st_t s + 1 - 2);;
            Ok (nltb (nabs (nsub a b)) (nmul tol (nabs a)))
       else Ok (st_converged s)) =
       Ok (if 1 <? st_t s + 1
            then converged_test (nth (st_t s) (st_llh s) NaN)
                                (nth (st_t s - 1) (st_llh s) NaN)
            else st_converged s)).
    { destruct (1 <? st_t s + 1); [|reflexivity].
      rewrite (getitem_lt _ _ NaN) by lia. simpl.
      rewrite (getitem_lt _ _ NaN) by lia. simpl.
      replace (st_t s + 1 - 1) with (st_t s) by lia.
      replace (st_t s + 1 - 2) with (st_t s - 1) by lia. reflexivity. }
    rewrite Hc. simpl. rewrite HM. simpl. rewrite HE. simpl.
    unfold setitem. apply Nat.ltb_lt in Ht. rewrite Ht. reflexivity.
Qed.

Lemma EMGM_step_t (s s' : state) :
  EMGM_step X W s = Ok s' ->
  st_t s' = st_t s + 1 /\ length (st_llh s') = length (st_llh s) /\
  st_t s' < length (st_llh s) /\ st_params s' <> None.
Proof.
  intros H. apply EMGM_step_spec in H.
  destruct H as (mu & si & pi & R & l & Ht & _ & _ & ->). simpl.
  rewrite update_length. repeat split; auto. discriminate.
Qed.

Lemma EMGM_passes_front (j : nat) (s : state) :
  EMGM_passes (S j) X W s = (s1 <- EMGM_step X W s ;; EMGM_passes j X W s1).
Proof.
  induction j as [|j IH].
  - simpl. destruct (EMGM_step X W s); reflexivity.
  - change (EMGM_passes (S (S j)) X W s)
      with (s' <- EMGM_passes (S j) X W s ;; EMGM_step X W s').
    rewrite IH. destruct (EMGM_step X W s) as [s1|e]; reflexivity.
Qed.

Lemma EMGM_passes_t (j : nat) (s s' : state) :
  EMGM_passes j X W s = Ok s' ->
  st_t s' = st_t s + j /\ length (st_llh s') = length (st_llh s) /\
  (0 < j -> st_t s' < length (st_llh s) /\ st_params s' <> None).
Proof.
  revert s'; induction j as [|j IH]; intros s' H; simpl in H.
  - inversion H; subst. repeat split; try lia.
  - inv_bind H as s1 H1. apply IH in H1. apply EMGM_step_t in H.
    destruct H1 as (E1 & E2 & _), H as (E3 & E4 & E5 & E6).
    repeat split; try lia; auto.
Qed.

Lemma EMGM_loop_unfold (fuel : nat) (s : state) :
  EMGM_loop fuel X W s =
  if EMGM_guard s then
    match fuel with
    | 0 => Ok s
    | S fuel' => s' <- EMGM_step X W s ;; EMGM_loop fuel' X W s'
    end
  else Ok s.
Proof. destruct fuel; reflexivity. Qed.

(** The loop makes the passes up to the first state that fails the guard. *)
Lemma EMGM_loop_of_passes (j : nat) :
  forall (fuel : nat) (s s' : state),
    j <= fuel ->
    EMGM_passes j X W s = Ok s' ->
    EMGM_guard s' = false ->
    (forall i si, i < j -> EMGM_passes i X W s = Ok si -> EMGM_guard si = true) ->
    EMGM_loop fuel X W s = Ok s'.
Proof.
  induction j as [|j IH]; intros fuel s s' Hf Hp Hg Hi; rewrite EMGM_loop_unfold.
  - simpl in Hp. inversion Hp; subst. rewrite Hg. reflexivity.
  - rewrite (Hi 0 s) by (simpl; auto; lia).
    destruct fuel as [|fuel]; [lia|].
    rewrite EMGM_passes_front in Hp. inv_bind Hp as s1 H1. rewrite H1. simpl.
    apply IH; auto; [lia|].
    intros i si Hij Hpi. apply (Hi (S i)); [lia|].
    rewrite EMGM_passes_front, H1. exact Hpi.
Qed.

(** With enough fuel the loop ends because its guard fails. *)
Lemma EMGM_passes_of_loop (fuel : nat) :
  forall (s s' : state),
    maxiter - st_t s <= fuel ->
    EMGM_loop fuel X W s = Ok s' ->
    exists j, EMGM_passes j X W s = Ok s' /\ EMGM_guard s' = false /\
      (forall i si, i < j -> EMGM_passes i X W s = Ok si -> EMGM_guard si = true).
Proof.
  induction fuel as [|fuel IH]; intros s s' Hf H; rewrite EMGM_loop_unfold in H;
    destruct (EMGM_guard s) eqn:Eg.
  - unfold EMGM_guard in Eg. apply andb_prop in Eg. destruct Eg as [_ Eg].
    apply Nat.ltb_lt in Eg. lia.
  - inversion H; subst. exists 0. simpl. repeat split; auto. intros; lia.
  - inv_bind H as s1 H1. pose proof (EMGM_step_t _ _ H1) as (Et & _).
    apply IH in H; [|lia]. destruct H as (j & Hp & Hg & Hi).
    exists (S j). rewrite EMGM_passes_front, H1. simpl. repeat split; auto.
    intros [|i] si Hij Hpi.
    + simpl in Hpi. inversion Hpi; subst. exact Eg.
    + rewrite EMGM_passes_front, H1 in Hpi. apply (Hi i); [lia | exact Hpi].
  - inversion H; subst. exists 0. simpl. repeat split; auto. intros; lia.
Qed.

(** Against the initial fill of -inf the test fails, whatever the value. *)
Lemma converged_test_NInf (a : num) : converged_test a NInf = false.
Proof.
  unfold converged_test.
  destruct a; simpl; try reflexivity;
    match goal with |- match ?y with _ => _ end = false => destruct y; reflexivity end.
Qed.

End DriverFacts.

(** ** Passes and traces *)

Section TraceFacts.

Context {lib : Library}.
Variables X W : matrix.

Lemma last_cons {A : Type} (a d : A) (l : list A) : last (a :: l) d = last l a.
Proof.
  revert a d; induction l as [|b l IH]; intros a d; [reflexivity|].
  change (last (a :: b :: l) d) with (last (b :: l) d).
  rewrite (IH b d). symmetry. apply IH.
Qed.

Lemma em_chain_app (R0 : matrix) (tr : trace) (p : params) (R' : matrix) (l : num) :
  em_chain X W R0 (tr ++ [(p, R', l)]) <->
  em_chain X W R0 tr /\
  maximization X W (trace_R R0 tr) = Ok p /\
  (let '(mu, si, pi) := p in expectation X W mu si pi) = Ok (R', l).
Proof.
  revert R0; induction tr as [|[[q Rq] lq] tr IH]; intros R0.
  - simpl. unfold trace_R. simpl. tauto.
  - simpl. rewrite IH. unfold trace_R. simpl map. rewrite last_cons. tauto.
Qed.

Lemma em_chain_firstn (R0 : matrix) (tr : trace) (j : nat) :
  em_chain X W R0 tr -> em_chain X W R0 (firstn j tr).
Proof.
  revert R0 j; induction tr as [|[[q Rq] lq] tr IH]; intros R0 [|j] H; simpl; auto.
  simpl in H. destruct H as (H1 & H2 & H3). auto.
Qed.

Lemma trace_llh_app_le (tr : trace) (x : params * matrix * num) (i : nat) :
  i <= length tr -> trace_llh (tr ++ [x]) i = trace_llh tr i.
Proof.
  intros Hi. unfold trace_llh. rewrite map_app.
  change (NInf :: map snd tr ++ map snd [x]) with ((NInf :: map snd tr) ++ map snd [x]).
  apply app_nth1. simpl. rewrite length_map. lia.
Qed.

Lemma trace_llh_app_last (tr : trace) (x : params * matrix * num) :
  trace_llh (tr ++ [x]) (length tr + 1) = snd x.
Proof.
  unfold trace_llh. rewrite map_app. rewrite Nat.add_1_r. simpl.
  rewrite <- (length_map snd tr). apply nth_middle.
Qed.

Lemma trace_llh_firstn (tr : trace) (j i : nat) :
  i <= j -> trace_llh (firstn j tr) i = trace_llh tr i.
Proof.
  intros Hi. unfold trace_llh. destruct i as [|i]; [reflexivity|]. simpl.
  rewrite <- firstn_map, nth_firstn.
  destruct (i <? j) eqn:E; [reflexivity|]. apply Nat.ltb_ge in E. lia.
Qed.

Lemma state_after_initial (R0 : matrix) : state_after R0 [] (initial_state R0).
Proof.
  unfold state_after, initial_state, trace_R, trace_params, trace_converged.
  cbn [st_t st_llh st_R st_params st_converged length map last].
  split; [reflexivity|]. split; [apply repeat_length|].
  split; [|repeat split].
  - intros i. destruct i as [|i].
    + unfold maxiter. reflexivity.
    + change (S i <=? 0) with false. cbv iota.
      destruct (S i <? maxiter) eqn:E.
      * apply Nat.ltb_lt in E. apply nth_repeat_lt. exact E.
      * apply Nat.ltb_ge in E. apply nth_overflow. rewrite repeat_length. exact E.
Qed.

(** One pass extends the trace by what [maximization] and [expectation]
    return, and needs room for one more log-likelihood. *)
Lemma EMGM_step_state_after (R0 : matrix) (tr : trace) (s s' : state) :
  state_after R0 tr s ->
  (EMGM_step X W s = Ok s' <->
   exists p R' l,
     length tr + 1 < maxiter /\
     maximization X W (trace_R R0 tr) = Ok p /\
     (let '(mu, si, pi) := p in expectation X W mu si pi) = Ok (R', l) /\
     s' = mkState (length tr + 1) (trace_converged (tr ++ [(p, R', l)]))
            (update (st_llh s) (length tr + 1) l) R' (Some p)).
Proof.
  intros (Ht & Hlen & Hllh & HR & HP & HC).
  assert (Hconv : forall x,
    (if 1 <? st_t s + 1
     then converged_test (nth (st_t s) (st_llh s) NaN) (nth (st_t s - 1) (st_llh s) NaN)
     else st_converged s) = trace_converged (tr ++ [x])).
  { intros x. unfold trace_converged. rewrite length_app. simpl length. rewrite Ht.
    destruct (1 <? length tr + 1) eqn:E.
    - apply Nat.ltb_lt in E.
      rewrite !Hllh.
      replace (length tr <=? length tr) with true by (symmetry; apply Nat.leb_le; lia).
      replace (length tr - 1 <=? length tr) with true by (symmetry; apply Nat.leb_le; lia).
      rewrite !trace_llh_app_le by lia.
      replace (length tr + 1 - 1) with (length tr) by lia.
      replace (length tr + 1 - 2) with (length tr - 1) by lia. reflexivity.
    - rewrite HC. unfold trace_converged.
      apply Nat.ltb_ge in E.
      replace (1 <? length tr) with false by (symmetry; apply Nat.ltb_ge; lia).
      reflexivity. }
  rewrite EMGM_step_spec. split.
  - intros (mu & si & pi & R' & l & Hlt & HM & HE & ->).
    exists (mu, si, pi), R', l. rewrite <- Ht, <- HR.
    repeat split; auto; [lia|]. rewrite (Hconv (mu, si, pi, R', l)). reflexivity.
  - intros ([[mu si] pi] & R' & l & Hlt & HM & HE & ->).
    exists mu, si, pi, R', l.
    repeat split; [rewrite Ht, Hlen; exact Hlt | rewrite HR; exact HM | exact HE |].
    rewrite <- Ht. rewrite (Hconv (mu, si, pi, R', l)). reflexivity.
Qed.

Lemma state_after_step (R0 : matrix) (tr : trace) (s : state)
  (p : params) (R' : matrix) (l : num) :
  state_after R0 tr s ->
  length tr + 1 < maxiter ->
  state_after R0 (tr ++ [(p, R', l)])
    (mkState (length tr + 1) (trace_converged (tr ++ [(p, R', l)]))
       (update (st_llh s) (length tr + 1) l) R' (Some p)).
Proof.
  intros (Ht & Hlen & Hllh & HR & HP & HC) Hlt.
  unfold state_after. simpl. rewrite length_app. simpl length.
  repeat split; auto.
  - rewrite update_length. exact Hlen.
  - intros i. rewrite nth_update, Hlen, Hllh.
    replace (length tr + 1 <? maxiter) with true by (symmetry; apply Nat.ltb_lt; lia).
    rewrite andb_true_r.
    destruct (i =? length tr + 1) eqn:E1.
    + apply Nat.eqb_eq in E1. subst i. rewrite Nat.leb_refl.
      rewrite trace_llh_app_last. reflexivity.
    + apply Nat.eqb_neq in E1.
      destruct (i <=? length tr) eqn:E2.
      * apply Nat.leb_le in E2.
        replace (i <=? length tr + 1) with true by (symmetry; apply Nat.leb_le; lia).
        rewrite trace_llh_app_le by lia. reflexivity.
      * apply Nat.leb_gt in E2.
        replace (i <=? length tr + 1) with false by (symmetry; apply Nat.leb_gt; lia).
        reflexivity.
  - unfold trace_R. rewrite map_app. simpl. symmetry. apply last_last.
  - unfold trace_params. rewrite map_app. simpl. symmetry. apply last_last.
Qed.

Lemma state_after_unique (R0 : matrix) (tr : trace) (s s' : state) :
  state_after R0 tr s -> state_after R0 tr s' -> s = s'.
Proof.
  intros (A1 & A2 & A3 & A4 & A5 & A6) (B1 & B2 & B3 & B4 & B5 & B6).
  destruct s as [t c llh R ps], s' as [t' c' llh' R' ps']; simpl in *. subst.
  f_equal. apply (nth_ext _ _ NaN NaN); [congruence|].
  intros n _. rewrite A3, B3. reflexivity.
Qed.

(** The passes from the initial state are the traces that chain. *)
Lemma EMGM_passes_trace (R0 : matrix) (j : nat) (s : state) :
  EMGM_passes j X W (initial_state R0) = Ok s ->
  exists tr, length tr = j /\ em_chain X W R0 tr /\
             (0 < j -> j < maxiter) /\ state_after R0 tr s.
Proof.
  revert s; induction j as [|j IH]; intros s H; simpl in H.
  - inversion H; subst. exists [].
    split; [reflexivity|]. split; [exact I|]. split; [lia|].
    apply state_after_initial.
  - inv_bind H as s1 H1. apply IH in H1.
    destruct H1 as (tr & Hl & Hc & _ & Hs).
    apply (EMGM_step_state_after _ _ _ s Hs) in H.
    destruct H as (p & R' & l & Hlt & HM & HE & ->).
    exists (tr ++ [(p, R', l)]). rewrite length_app. simpl length.
    split; [lia|]. split; [apply em_chain_app; auto|]. split; [intros; lia|].
    apply state_after_step; auto.
Qed.

Lemma EMGM_trace_passes (R0 : matrix) (tr : trace) :
  em_chain X W R0 tr -> (tr <> [] -> length tr < maxiter) ->
  exists s, EMGM_passes (length tr) X W (initial_state R0) = Ok s /\
            state_after R0 tr s.
Proof.
  induction tr as [|[[p R'] l] tr IH] using rev_ind; intros Hc Hlt.
  - exists (initial_state R0). split; [reflexivity | apply state_after_initial].
  - apply em_chain_app in Hc. destruct Hc as (Hc & HM & HE).
    rewrite length_app in *. simpl length in *.
    assert (Hlt' : length tr + 1 < maxiter)
      by (apply Hlt; intros E; apply app_eq_nil in E; destruct E; discriminate).
    destruct IH as (s0 & Hp0 & Hs0); [exact Hc | intros; lia |].
    exists (mkState (length tr + 1) (trace_converged (tr ++ [(p, R', l)]))
              (update (st_llh s0) (length tr + 1) l) R' (Some p)).
    split; [|apply state_after_step; auto].
    replace (EMGM_passes (length tr + 1) X W (initial_state R0))
      with (s' <- EMGM_passes (length tr) X W (initial_state R0) ;; EMGM_step X W s')
      by (rewrite Nat.add_1_r; reflexivity).
    rewrite Hp0. cbn [bind].
    apply (EMGM_step_state_after _ _ _ _ Hs0). exists p, R', l. repeat split; auto.
Qed.

End TraceFacts.

Section DriverCorrect.

Context {lib : Library}.
Variables X W : matrix.

Lemma trace_params_last (tr : trace) (p : params) :
  trace_params tr = Some p <->
  exists R l, nth_error tr (length tr - 1) = Some (p, R, l).
Proof.
  destruct tr as [|x0 tr0] using rev_ind.
  - unfold trace_params. simpl. split; [discriminate | intros (R & l & H); discriminate].
  - clear IHtr0. destruct x0 as [[q R] l].
    unfold trace_params. rewrite map_app, length_app. simpl map. simpl length.
    rewrite last_last. replace (length tr0 + 1 - 1) with (length tr0 + 0) by lia.
    rewrite nth_error_app2 by lia.
    replace (length tr0 + 0 - length tr0) with 0 by lia. simpl.
    split.
    + intros H. inversion H; subst. eauto.
    + intros (R1 & l1 & H). inversion H; subst. reflexivity.
Qed.

Lemma trace_converged_firstn (tr : trace) (j : nat) :
  j <= length tr ->
  trace_converged (firstn j tr) =
  if 1 <? j then converged_test (trace_llh tr (j - 1)) (trace_llh tr (j - 2))
  else false.
Proof.
  intros Hj. unfold trace_converged. rewrite firstn_length_le by exact Hj.
  destruct (1 <? j); [|reflexivity].
  rewrite !trace_llh_firstn by lia. reflexivity.
Qed.

(** The states the loop goes through on a trace whose test first holds
    after its last pass. *)
Lemma EMGM_loop_trace (R0 : matrix) (tr : trace) :
  em_chain X W R0 tr ->
  length tr < maxiter ->
  trace_converged tr = true ->
  (forall j, 1 < j -> j < length tr ->
     converged_test (trace_llh tr (j - 1)) (trace_llh tr (j - 2)) = false) ->
  exists s, EMGM_loop maxiter X W (initial_state R0) = Ok s /\ state_after R0 tr s.
Proof.
  intros Hc Hlt Hconv Hfirst.
  destruct (EMGM_trace_passes X W R0 tr Hc (fun _ => Hlt)) as (s & Hp & Hs).
  exists s. split; [|exact Hs].
  apply (EMGM_loop_of_passes X W (length tr)); auto; [lia | |].
  - unfold EMGM_guard. destruct Hs as (_ & _ & _ & _ & _ & ->). rewrite Hconv. reflexivity.
  - intros i si Hi Hpi.
    destruct (EMGM_trace_passes X W R0 (firstn i tr)) as (s' & Hp' & Hs').
    + apply em_chain_firstn. exact Hc.
    + intros _. rewrite firstn_length_le by lia. lia.
    + rewrite firstn_length_le in Hp' by lia. rewrite Hpi in Hp'.
      inversion Hp'; subst s'. clear Hp'.
      destruct Hs' as (Ht & _ & _ & _ & _ & HC).
      rewrite firstn_length_le in Ht by lia.
      unfold EMGM_guard. rewrite HC, Ht, trace_converged_firstn by lia.
      replace (i <? maxiter) with true by (symmetry; apply Nat.ltb_lt; lia).
      destruct (1 <? i) eqn:E; [|reflexivity].
      apply Nat.ltb_lt in E. rewrite Hfirst by lia. reflexivity.
Qed.

(** Whatever the loop returns is the state after a trace whose test first
    holds after its last pass, and that pass is not the last the array
    [llh] has room for. *)
Lemma EMGM_loop_inv (R0 : matrix) (s : state) :
  EMGM_loop maxiter X W (initial_state R0) = Ok s ->
  exists tr,
    em_chain X W R0 tr /\ state_after R0 tr s /\
    length tr < maxiter /\
    trace_converged tr = true /\
    (forall j, 1 < j -> j < length tr ->
       converged_test (trace_llh tr (j - 1)) (trace_llh tr (j - 2)) = false).
Proof.
  intros H. apply EMGM_passes_of_loop in H; [|unfold initial_state; cbn [st_t]; lia].
  destruct H as (j & Hp & Hg & Hi).
  destruct (EMGM_passes_trace X W R0 j s Hp) as (tr & Hl & Hc & Hlt & Hs).
  assert (Hj : 0 < j).
  { destruct j as [|j]; [|lia]. simpl in Hp. inversion Hp; subst s.
    unfold EMGM_guard, initial_state, maxiter in Hg. simpl in Hg. discriminate. }
  specialize (Hlt Hj). exists tr. subst j.
  split; [exact Hc|]. split; [exact Hs|]. split; [exact Hlt|].
  pose proof Hs as (Ht & _ & _ & _ & _ & HC).
  split.
  - unfold EMGM_guard in Hg. rewrite Ht, HC in Hg.
    replace (length tr <? maxiter) with true in Hg by (symmetry; apply Nat.ltb_lt; lia).
    rewrite andb_true_r in Hg. destruct (trace_converged tr); [reflexivity | discriminate].
  - intros i H1 H2.
    destruct (EMGM_trace_passes X W R0 (firstn i tr)) as (s' & Hp' & Hs').
    + apply em_chain_firstn. exact Hc.
    + intros _. rewrite firstn_length_le by lia. lia.
    + rewrite firstn_length_le in Hp' by lia.
      specialize (Hi i s' H2 Hp').
      destruct Hs' as (_ & _ & _ & _ & _ & HC').
      unfold EMGM_guard in Hi. rewrite HC', trace_converged_firstn in Hi by lia.
      replace (1 <? i) with true in Hi by (symmetry; apply Nat.ltb_lt; lia).
      apply andb_prop in Hi. destruct Hi as [Hi _].
      destruct (converged_test _ _); [discriminate | reflexivity].
Qed.

End DriverCorrect.

Section DriverCap.

Context {lib : Library}.
Variables X W : matrix.

Lemma EMGM_loop_raises (j : nat) :
  forall (fuel : nat) (s sj : state) (e : exn),
    j < fuel ->
    EMGM_passes j X W s = Ok sj ->
    (forall i si, i <= j -> EMGM_passes i X W s = Ok si -> EMGM_guard si = true) ->
    EMGM_step X W sj = Err e ->
    EMGM_loop fuel X W s = Err e.
Proof.
  induction j as [|j IH]; intros fuel s sj e Hf Hp Hi He; rewrite EMGM_loop_unfold.
  - simpl in Hp. inversion Hp; subst sj.
    rewrite (Hi 0 s) by (simpl; auto). destruct fuel; [lia|]. rewrite He. reflexivity.
  - rewrite (Hi 0 s) by (simpl; auto; lia). destruct fuel as [|fuel]; [lia|].
    rewrite EMGM_passes_front in Hp. inv_bind Hp as s1 H1. rewrite H1. cbn [bind].
    apply (IH fuel s1 sj e); auto; [lia|].
    intros i si Hij Hpi. apply (Hi (S i)); [lia|].
    rewrite EMGM_passes_front, H1. exact Hpi.
Qed.

(** The pass that would write [llh[maxiter]] raises [IndexError]. *)
Lemma EMGM_step_cap (R0 : matrix) (tr : trace) (s : state) (p : params)
  (R' : matrix) (l : num) :
  state_after R0 tr s ->
  length tr + 1 = maxiter ->
  maximization X W (trace_R R0 tr) = Ok p ->
  (let '(mu, si, pi) := p in expectation X W mu si pi) = Ok (R', l) ->
  EMGM_step X W s = Err IndexError.
Proof.
  intros (Ht & Hlen & _ & HR & _ & _) Hcap HM HE.
  unfold EMGM_step. rewrite Ht, HR, HM.
  replace (1 <? length tr + 1) with true
    by (symmetry; apply Nat.ltb_lt; unfold maxiter in Hcap; lia).
  rewrite (getitem_lt _ _ NaN) by lia. cbn [bind].
  rewrite (getitem_lt _ _ NaN) by lia. cbn [bind].
  destruct p as [[mu si] pi]. rewrite HE. cbn [bind].
  unfold setitem. rewrite Hlen, Hcap, Nat.ltb_irrefl. reflexivity.
Qed.

(** A fit of [maxiter] passes none of whose tests holds ends in
    [IndexError] in its last pass. *)
Lemma EMGM_loop_cap (R0 : matrix) (tr : trace) :
  em_chain X W R0 tr ->
  length tr = maxiter ->
  (forall j, 1 < j -> j < maxiter ->
     converged_test (trace_llh tr (j - 1)) (trace_llh tr (j - 2)) = false) ->
  EMGM_loop maxiter X W (initial_state R0) = Err IndexError.
Proof.
  intros Hc Hl Hno.
  destruct (exists_last (l := tr)) as (tr' & [[p R'] l] & ->);
    [intros ->; unfold maxiter in Hl; discriminate|].
  rewrite length_app in Hl. simpl length in Hl.
  apply em_chain_app in Hc. destruct Hc as (Hc & HM & HE).
  destruct (EMGM_trace_passes X W R0 tr' Hc) as (s & Hp & Hs); [intros; lia|].
  apply (EMGM_loop_raises (length tr') maxiter (initial_state R0) s); auto; [lia | |].
  - intros i si Hi Hpi.
    destruct (EMGM_trace_passes X W R0 (firstn i tr')) as (s' & Hp' & Hs').
    + apply em_chain_firstn. exact Hc.
    + intros _. rewrite firstn_length_le by lia. lia.
    + rewrite firstn_length_le in Hp' by lia. rewrite Hpi in Hp'.
      inversion Hp'; subst s'. clear Hp'.
      destruct Hs' as (Ht & _ & _ & _ & _ & HC).
      rewrite firstn_length_le in Ht by lia.
      unfold EMGM_guard. rewrite HC, Ht, trace_converged_firstn by lia.
      replace (i <? maxiter) with true by (symmetry; apply Nat.ltb_lt; lia).
      destruct (1 <? i) eqn:E; [|reflexivity].
      apply Nat.ltb_lt in E.
      specialize (Hno i E ltac:(lia)).
      rewrite !trace_llh_app_le in Hno by lia. rewrite Hno. reflexivity.
  - apply (EMGM_step_cap R0 tr' s p R' l); auto.
Qed.

End DriverCap.

(** ** The driver [EMGM] *)

Section DriverTheorems.

Context {lib : Library}.

Lemma EMGM_unfold (X : matrix) (W : vector) (nGM : nat) :
  EMGM X W nGM =
  (R <- initialization X nGM ;;
   s <- EMGM_loop maxiter X (reshape_col W) (initial_state R) ;;
   match st_params s with
   | Some p => Ok (p, if st_converged s then Converged (st_t s - 1)
                      else NotConverged maxiter)
   | None => Err UnboundLocalError
   end).
Proof. reflexivity. Qed.

Lemma EMGM_inv (X : matrix) (W : vector) (nGM : nat) (p : params) (rep : report) :
  EMGM X W nGM = Ok (p, rep) ->
  exists R0 s,
    initialization X nGM = Ok R0 /\
    EMGM_loop maxiter X (reshape_col W) (initial_state R0) = Ok s /\
    st_params s = Some p /\
    rep = (if st_converged s then Converged (st_t s - 1) else NotConverged maxiter).
Proof.
  rewrite EMGM_unfold. intros H. inv_bind H as R0 HR. inv_bind H as s Hs.
  exists R0, s. destruct (st_params s) as [q|]; [|discriminate].
  inversion H; subst. auto.
Qed.

(** The runs on which [EMGM] returns. *)
Lemma EMGM_returns_iff (X : matrix) (W : vector) (nGM : nat)
  (p : params) (rep : report) :
  EMGM X W nGM = Ok (p, rep) <->
  exists R0 tr R l,
    initialization X nGM = Ok R0 /\
    em_chain X (reshape_col W) R0 tr /\
    2 < length tr /\ length tr < maxiter /\
    converged_test (trace_llh tr (length tr - 1)) (trace_llh tr (length tr - 2)) = true /\
    (forall j, 1 < j -> j < length tr ->
       converged_test (trace_llh tr (j - 1)) (trace_llh tr (j - 2)) = false) /\
    nth_error tr (length tr - 1) = Some (p, R, l) /\
    rep = Converged (length tr - 1).
Proof.
  split.
  - intros H. apply EMGM_inv in H. destruct H as (R0 & s & HR & Hs & Hp & ->).
    apply EMGM_loop_inv in Hs. destruct Hs as (tr & Hc & Hst & Hlt & Hconv & Hfirst).
    destruct Hst as (Ht & _ & _ & _ & HP & HC).
    rewrite HP in Hp. apply trace_params_last in Hp. destruct Hp as (R & l & Hp).
    exists R0, tr, R, l. rewrite HC, Hconv, Ht.
    unfold trace_converged in Hconv.
    destruct (1 <? length tr) eqn:E; [|discriminate]. apply Nat.ltb_lt in E.
    repeat split; auto.
    destruct (Nat.eq_dec (length tr) 2) as [E2|E2]; [|lia].
    rewrite E2 in Hconv. simpl in Hconv. unfold trace_llh at 2 in Hconv.
    simpl in Hconv. rewrite converged_test_NInf in Hconv. discriminate.
  - intros (R0 & tr & R & l & HR & Hc & H2 & Hlt & Hconv & Hfirst & Hp & ->).
    destruct (EMGM_loop_trace X (reshape_col W) R0 tr) as (s & Hs & Hst); auto.
    { unfold trace_converged.
      replace (1 <? length tr) with true by (symmetry; apply Nat.ltb_lt; lia).
      exact Hconv. }
    rewrite EMGM_unfold, HR. cbn [bind]. rewrite Hs. cbn [bind].
    destruct Hst as (Ht & _ & _ & _ & HP & HC).
    rewrite HP, HC, Ht.
    replace (trace_params tr) with (Some p)
      by (symmetry; apply trace_params_last; eauto).
    unfold trace_converged.
    replace (1 <? length tr) with true by (symmetry; apply Nat.ltb_lt; lia).
    rewrite Hconv. reflexivity.
Qed.

(** C4: when a fit is declared converged.  The test is made from the
    second pass on, on the two entries of [llh] written last; at the second
    pass one of them is still the initial -inf and the test fails, so the
    first pass [t] at which it can hold is the third, where both entries
    are log-likelihoods returned by [expectation].  The loop makes no pass
    after the first one whose test holds, and [EMGM] returns the
    parameters of the maximization of that pass and reports [t - 1] steps.
    But [EMGM] returns this way only if that pass is one of the first
    [maxiter - 1]: a fit whose test first holds at pass [maxiter] is not
    declared converged, because that pass writes [llh[maxiter]] and raises
    [IndexError] (lemma [EMGM_converged_at_cap_raises] below), the slip
    that also keeps a fit from ending as not converged. *)
Theorem EMGM_converged_iff (X : matrix) (W : vector) (nGM : nat)
  (p : params) (rep : report) :
  EMGM X W nGM = Ok (p, rep) <->
  exists R0 tr R l,
    initialization X nGM = Ok R0 /\
    em_chain X (reshape_col W) R0 tr /\
    2 < length tr /\ length tr < maxiter /\
    converged_test (trace_llh tr (length tr - 1)) (trace_llh tr (length tr - 2)) = true /\
    (forall j, 1 < j -> j < length tr ->
       converged_test (trace_llh tr (j - 1)) (trace_llh tr (j - 2)) = false) /\
    nth_error tr (length tr - 1) = Some (p, R, l) /\
    rep = Converged (length tr - 1).
Proof. apply EMGM_returns_iff. Qed.

(** C2: the state EXHAUSTED is never reached.  [EMGM] never returns with
    the report "not converged": the pass that brings [t] to [maxiter]
    writes [llh[maxiter]] in an array of [maxiter] entries and raises
    [IndexError] (lemma [EMGM_exhausted_raises]). *)
Theorem EMGM_never_exhausted (X : matrix) (W : vector) (nGM : nat) :
  match EMGM X W nGM with
  | Ok (_, NotConverged _) => False
  | _ => True
  end.
Proof.
  destruct (EMGM X W nGM) as [[p [n|n]]|e] eqn:H; auto.
  apply EMGM_returns_iff in H.
  destruct H as (R0 & tr & R & l & _ & _ & _ & _ & _ & _ & _ & H). discriminate.
Qed.

(** A fit whose test never passes, and whose maximization and expectation
    steps succeed in each of the [maxiter] passes, raises [IndexError]. *)
(** A fit whose test holds for the first time at pass [maxiter]. *)
Lemma EMGM_converged_at_cap_raises (X : matrix) (W : vector) (nGM : nat)
  (R0 : matrix) (tr : trace) :
  initialization X nGM = Ok R0 ->
  em_chain X (reshape_col W) R0 tr ->
  length tr = maxiter ->
  (forall j, 1 < j -> j < maxiter ->
     converged_test (trace_llh tr (j - 1)) (trace_llh tr (j - 2)) = false) ->
  converged_test (trace_llh tr (maxiter - 1)) (trace_llh tr (maxiter - 2)) = true ->
  EMGM X W nGM = Err IndexError.
Proof.
  intros HI Hc Hl Hno _. rewrite EMGM_unfold, HI. cbn [bind].
  rewrite (EMGM_loop_cap X (reshape_col W) R0 tr Hc Hl Hno). reflexivity.
Qed.

Lemma EMGM_exhausted_raises (X : matrix) (W : vector) (nGM : nat)
  (R0 : matrix) (tr : trace) :
  initialization X nGM = Ok R0 ->
  em_chain X (reshape_col W) R0 tr ->
  length tr = maxiter ->
  (forall j, 1 < j -> j < maxiter ->
     converged_test (trace_llh tr (j - 1)) (trace_llh tr (j - 2)) = false) ->
  EMGM X W nGM = Err IndexError.
Proof.
  intros HR Hc Hl Hno. rewrite EMGM_unfold, HR. cbn [bind].
  rewrite (EMGM_loop_cap X (reshape_col W) R0 tr Hc Hl Hno). reflexivity.
Qed.

End DriverTheorems.

(** ** Arrays *)

Lemma length_range (n : nat) : length (range n) = n.
Proof. apply length_seq. Qed.

Lemma nth_range (n i d : nat) : i < n -> nth i (range n) d = i.
Proof. intros H. unfold range. rewrite seq_nth by exact H. reflexivity. Qed.

Lemma length_mk_vector (n : nat) (f : nat -> num) : length (mk_vector n f) = n.
Proof. unfold mk_vector. rewrite length_map. apply length_range. Qed.

Lemma nth_mk_vector (n : nat) (f : nat -> num) (i : nat) (d : num) :
  i < n -> nth i (mk_vector n f) d = f i.
Proof.
  intros H. unfold mk_vector.
  rewrite (nth_indep _ d (f 0)) by (rewrite length_map, length_range; exact H).
  rewrite map_nth, nth_range by exact H. reflexivity.
Qed.

Lemma nth_mk_vector_out (n : nat) (f : nat -> num) (i : nat) (d : num) :
  n <= i -> nth i (mk_vector n f) d = d.
Proof. intros H. apply nth_overflow. rewrite length_mk_vector. exact H. Qed.

Lemma mk_vector_ext (n : nat) (f g : nat -> num) :
  (forall i, i < n -> f i = g i) -> mk_vector n f = mk_vector n g.
Proof.
  intros H. unfold mk_vector. apply map_ext_in. intros i Hi.
  apply in_seq in Hi. apply H. lia.
Qed.

Lemma nrows_mk_matrix (r c : nat) (f : nat -> nat -> num) :
  nrows (mk_matrix r c f) = r.
Proof. unfold nrows, mk_matrix. rewrite length_map. apply length_range. Qed.

Lemma nth_mk_matrix (r c : nat) (f : nat -> nat -> num) (i : nat) :
  i < r -> nth i (mk_matrix r c f) [] = mk_vector c (f i).
Proof.
  intros H. unfold mk_matrix.
  rewrite (nth_indep _ [] (mk_vector c (f 0)))
    by (rewrite length_map, length_range; exact H).
  rewrite (map_nth (fun i => mk_vector c (f i))), nth_range by exact H. reflexivity.
Qed.

Lemma ncols_mk_matrix (r c : nat) (f : nat -> nat -> num) :
  0 < r -> ncols (mk_matrix r c f) = c.
Proof.
  intros H. destruct r as [|r]; [lia|]. unfold mk_matrix, range. simpl.
  apply length_mk_vector.
Qed.

Lemma ncols_mk_matrix_0 (c : nat) (f : nat -> nat -> num) :
  ncols (mk_matrix 0 c f) = 0.
Proof. reflexivity. Qed.

Lemma get_mk_matrix (r c : nat) (f : nat -> nat -> num) (i j : nat) :
  i < r -> j < c -> get (mk_matrix r c f) i j = f i j.
Proof.
  intros Hi Hj. unfold get. rewrite nth_mk_matrix by exact Hi.
  apply nth_mk_vector. exact Hj.
Qed.

Lemma get_mk_matrix_out (r c : nat) (f : nat -> nat -> num) (i j : nat) :
  r <= i \/ c <= j -> get (mk_matrix r c f) i j = NaN.
Proof.
  intros H. unfold get.
  destruct (Nat.lt_ge_cases i r) as [Hi|Hi].
  - rewrite nth_mk_matrix by exact Hi. apply nth_mk_vector_out. lia.
  - rewrite (nth_overflow (mk_matrix r c f)) by (fold (nrows (mk_matrix r c f));
      rewrite nrows_mk_matrix; exact Hi).
    destruct j; reflexivity.
Qed.

Lemma mk_matrix_ext (r c : nat) (f g : nat -> nat -> num) :
  (forall i j, i < r -> j < c -> f i j = g i j) ->
  mk_matrix r c f = mk_matrix r c g.
Proof.
  intros H. unfold mk_matrix. apply map_ext_in. intros i Hi.
  apply in_seq in Hi. apply mk_vector_ext. intros j Hj. apply H; lia.
Qed.

Lemma has_shape_mk_matrix (r c : nat) (f : nat -> nat -> num) :
  has_shape r c (mk_matrix r c f).
Proof.
  split; [apply nrows_mk_matrix|]. unfold mk_matrix. apply Forall_map.
  apply Forall_forall. intros i _. apply length_mk_vector.
Qed.

Lemma has_shape_nrows (r c : nat) (A : matrix) : has_shape r c A -> nrows A = r.
Proof. intros [H _]. exact H. Qed.

Lemma has_shape_ncols (r c : nat) (A : matrix) :
  has_shape r c A -> 0 < r -> ncols A = c.
Proof.
  intros [H1 H2] Hr. destruct A as [|row A]; [simpl in H1; lia|].
  inversion H2 as [|? ? Hrow _]. exact Hrow.
Qed.

Lemma has_shape_nth (r c : nat) (A : matrix) (i : nat) :
  has_shape r c A -> i < r -> length (nth i A []) = c.
Proof.
  intros [H1 H2] Hi. rewrite Forall_forall in H2. apply H2.
  apply nth_In. lia.
Qed.

Lemma has_shape_eq (r c : nat) (A : matrix) :
  has_shape r c A -> A = mk_matrix r c (get A).
Proof.
  intros HA. pose proof HA as [H1 H2].
  apply (nth_ext _ _ [] []).
  - fold (nrows (mk_matrix r c (get A))). rewrite nrows_mk_matrix. exact H1.
  - intros i Hi. rewrite H1 in Hi. rewrite nth_mk_matrix by exact Hi.
    apply (nth_ext _ _ NaN NaN).
    + rewrite length_mk_vector. apply (has_shape_nth r c); assumption.
    + intros j Hj. rewrite (has_shape_nth r c) in Hj by assumption.
      rewrite nth_mk_vector by exact Hj. reflexivity.
Qed.

Lemma matrix_ext (r c : nat) (A B : matrix) :
  has_shape r c A -> has_shape r c B ->
  (forall i j, i < r -> j < c -> get A i j = get B i j) -> A = B.
Proof.
  intros HA HB H. rewrite (has_shape_eq r c A HA), (has_shape_eq r c B HB).
  apply mk_matrix_ext. exact H.
Qed.

Lemma update_mk_vector (n : nat) (f : nat -> num) (i : nat) (x : num) :
  update (mk_vector n f) i x = mk_vector n (fun a => if a =? i then x else f a).
Proof.
  apply (nth_ext _ _ NaN NaN).
  - rewrite update_length, !length_mk_vector. reflexivity.
  - intros j Hj. rewrite update_length, length_mk_vector in Hj.
    rewrite nth_update, !nth_mk_vector, length_mk_vector by exact Hj.
    destruct (j =? i) eqn:E; [|reflexivity].
    apply Nat.eqb_eq in E. subst j.
    replace (i <? n) with true by (symmetry; apply Nat.ltb_lt; exact Hj). reflexivity.
Qed.

Lemma setitem2_mk_matrix (r c : nat) (f : nat -> nat -> num) (i j : nat) (x : num) :
  i < r -> j < c ->
  setitem2 (mk_matrix r c f) i j x =
  Ok (mk_matrix r c (fun a b => if (a =? i) && (b =? j) then x else f a b)).
Proof.
  intros Hi Hj. unfold setitem2.
  rewrite (getitem_lt _ _ []) by (fold (nrows (mk_matrix r c f));
    rewrite nrows_mk_matrix; exact Hi).
  cbn [bind]. rewrite nth_mk_matrix by exact Hi.
  unfold setitem at 1. rewrite length_mk_vector.
  replace (j <? c) with true by (symmetry; apply Nat.ltb_lt; exact Hj).
  cbn [bind]. unfold setitem. fold (nrows (mk_matrix r c f)). rewrite nrows_mk_matrix.
  replace (i <? r) with true by (symmetry; apply Nat.ltb_lt; exact Hi).
  apply (f_equal Ok). apply (nth_ext _ _ [] []).
  - rewrite update_length. fold (nrows (mk_matrix r c f)).
    rewrite nrows_mk_matrix. symmetry. apply nrows_mk_matrix.
  - intros a Ha. rewrite update_length in Ha.
    fold (nrows (mk_matrix r c f)) in Ha. rewrite nrows_mk_matrix in Ha.
    rewrite nth_update. fold (nrows (mk_matrix r c f)). rewrite nrows_mk_matrix.
    rewrite !nth_mk_matrix by exact Ha.
    destruct (a =? i) eqn:E.
    + apply Nat.eqb_eq in E. subst a.
      replace (i <? r) with true by (symmetry; apply Nat.ltb_lt; exact Hi).
      cbn [andb]. apply update_mk_vector.
    + cbn [andb]. reflexivity.
Qed.

(** ** [dummyvar] and [initialization] *)

Lemma fold_left_max_ge (l : list nat) (i : nat) :
  i <= fold_left Nat.max l i /\ Forall (fun x => x <= fold_left Nat.max l i) l.
Proof.
  revert i; induction l as [|x l IH]; intros i; simpl; [split; auto|].
  destruct (IH (Nat.max i x)) as [H1 H2]. split; [lia|].
  constructor; [lia | exact H2].
Qed.

Lemma fold_left_max_In (l : list nat) (i : nat) :
  fold_left Nat.max l i = i \/ In (fold_left Nat.max l i) l.
Proof.
  revert i; induction l as [|x l IH]; intros i; simpl; [left; reflexivity|].
  destruct (IH (Nat.max i x)) as [H|H]; [|right; right; exact H].
  rewrite H. destruct (Nat.max_spec i x) as [[_ E]|[_ E]]; rewrite E; auto.
Qed.

Lemma max_label_ge (idx : list nat) : Forall (fun x => x <= max_label idx) idx.
Proof.
  destruct idx as [|i idx]; [constructor|]. simpl.
  destruct (fold_left_max_ge idx i) as [H1 H2]. constructor; assumption.
Qed.

Lemma max_label_In (idx : list nat) : idx <> [] -> In (max_label idx) idx.
Proof.
  destruct idx as [|i idx]; [congruence|]. intros _. simpl.
  destruct (fold_left_max_In idx i) as [H|H]; [left; symmetry; exact H | right; exact H].
Qed.

Lemma dummyvar_loop (idx : list nat) (c : nat) :
  Forall (fun x => x < c) idx ->
  forall len s,
    s + len = length idx ->
    foldM (fun i d => l <- getitem idx i ;; setitem2 d i l (Fin 1)) (seq s len)
      (mk_matrix (length idx) c
         (fun a b => if (a <? s) && (b =? nth a idx 0) then Fin 1 else Fin 0)) =
    Ok (one_hot idx c).
Proof.
  intros Hc. induction len as [|len IH]; intros s Hs.
  - simpl. f_equal. apply mk_matrix_ext. intros i j Hi Hj.
    replace (i <? s) with true by (symmetry; apply Nat.ltb_lt; lia). reflexivity.
  - cbn [seq foldM]. rewrite (getitem_lt _ _ 0) by lia. cbn [bind].
    rewrite setitem2_mk_matrix; [|lia|].
    2:{ rewrite Forall_forall in Hc. apply Hc. apply nth_In. lia. }
    cbn [bind]. rewrite <- (IH (S s)) by lia. f_equal.
    apply mk_matrix_ext. intros i j Hi Hj.
    destruct (i =? s) eqn:E1.
    + apply Nat.eqb_eq in E1. subst i.
      replace (s <? S s) with true by (symmetry; apply Nat.ltb_lt; lia).
      rewrite Nat.ltb_irrefl. cbn [andb].
      destruct (j =? nth s idx 0); reflexivity.
    + apply Nat.eqb_neq in E1. cbn [andb].
      destruct (i <? s) eqn:E2.
      * apply Nat.ltb_lt in E2.
        replace (i <? S s) with true by (symmetry; apply Nat.ltb_lt; lia). reflexivity.
      * apply Nat.ltb_ge in E2.
        replace (i <? S s) with false by (symmetry; apply Nat.ltb_ge; lia). reflexivity.
Qed.

(** [dummyvar] returns the indicator matrix of the labels, with one column
    for every label up to the largest that occurs. *)
Lemma dummyvar_spec (idx : list nat) :
  idx <> [] -> dummyvar idx = Ok (one_hot idx (max_label idx + 1)).
Proof.
  intros Hne. unfold dummyvar.
  assert (Hm : match idx with
               | [] => Err ValueError
               | i :: idx' => Ok (fold_left Nat.max idx' i)
               end = Ok (max_label idx)).
  { destruct idx; [congruence | reflexivity]. }
  rewrite Hm. cbn [bind]. unfold zeros, range.
  rewrite <- (dummyvar_loop idx (max_label idx + 1)) with (len := length idx) (s := 0).
  - f_equal.
  - pose proof (max_label_ge idx) as H. rewrite Forall_forall in *.
    intros x Hx. specialize (H x Hx). lia.
  - reflexivity.
Qed.

Lemma dummyvar_empty : dummyvar [] = Err ValueError.
Proof. reflexivity. Qed.

(** ** Arithmetic of the numbers *)

Section NumFacts.

Local Open Scope R_scope.

Lemma Rsign_pos (r : R) : 0 < r -> Rsign r = Pos.
Proof.
  intros H. unfold Rsign. destruct (total_order_T 0 r) as [[H1|H1]|H1]; auto; lra.
Qed.

Lemma Rsign_neg (r : R) : r < 0 -> Rsign r = Neg.
Proof.
  intros H. unfold Rsign. destruct (total_order_T 0 r) as [[H1|H1]|H1]; auto; lra.
Qed.

Lemma Rsign_zero : Rsign 0 = Zero.
Proof.
  unfold Rsign. destruct (total_order_T 0 0) as [[H1|H1]|H1]; auto; lra.
Qed.

Lemma Rsign_scale (c r : R) : 0 < c -> Rsign (c * r) = Rsign r.
Proof.
  intros Hc. destruct (total_order_T 0 r) as [[H|H]|H].
  - rewrite !Rsign_pos; auto. apply Rmult_lt_0_compat; assumption.
  - subst r. rewrite Rmult_0_r. reflexivity.
  - rewrite !Rsign_neg; auto. nra.
Qed.

Lemma ndiv_Fin (a b : R) : b <> 0 -> ndiv (Fin a) (Fin b) = Fin (a / b).
Proof.
  intros H. unfold ndiv. destruct (Req_dec_T b 0); [contradiction | reflexivity].
Qed.

Lemma ndiv_Fin_0 (a : R) : ndiv (Fin a) (Fin 0) = inf_of (Rsign a).
Proof.
  unfold ndiv. destruct (Req_dec_T 0 0); [reflexivity | contradiction].
Qed.

Lemma nsqrt_Fin (r : R) : 0 <= r -> nsqrt (Fin r) = Fin (sqrt r).
Proof.
  intros H. unfold nsqrt. destruct (Rlt_dec r 0); [lra | reflexivity].
Qed.

Lemma nsqrt_Fin_neg (r : R) : r < 0 -> nsqrt (Fin r) = NaN.
Proof.
  intros H. unfold nsqrt. destruct (Rlt_dec r 0); [reflexivity | lra].
Qed.

Lemma nlog_Fin (r : R) : 0 < r -> nlog (Fin r) = Fin (ln r).
Proof. intros H. unfold nlog. rewrite Rsign_pos by exact H. reflexivity. Qed.

Lemma nlog_0 : nlog (Fin 0) = NInf.
Proof. unfold nlog. rewrite Rsign_zero. reflexivity. Qed.

Lemma nltb_Fin (a b : R) : nltb (Fin a) (Fin b) = true <-> a < b.
Proof.
  unfold nltb. destruct (Rlt_dec a b); split; auto; discriminate.
Qed.

Lemma nltb_Fin_false (a b : R) : nltb (Fin a) (Fin b) = false <-> b <= a.
Proof.
  unfold nltb. destruct (Rlt_dec a b); split; auto; try discriminate; lra.
Qed.

Lemma nmax_Fin (a b : R) : nmax (Fin a) (Fin b) = Fin (Rmax a b).
Proof.
  unfold nmax, nltb, Rmax.
  destruct (Rlt_dec a b), (Rle_dec a b); try reflexivity; try lra.
  f_equal. lra.
Qed.

Lemma nadd_0_r (x : num) : nadd x (Fin 0) = x.
Proof. destruct x; simpl; try reflexivity. f_equal. lra. Qed.

Lemma nadd_0_l (x : num) : nadd (Fin 0) x = x.
Proof. destruct x; simpl; try reflexivity. f_equal. lra. Qed.

Lemma nadd_comm (x y : num) : nadd x y = nadd y x.
Proof. destruct x, y; simpl; try reflexivity. f_equal. lra. Qed.

Lemma nadd_assoc (x y z : num) : nadd x (nadd y z) = nadd (nadd x y) z.
Proof. destruct x, y, z; simpl; try reflexivity. f_equal. lra. Qed.

Lemma nmul_comm (x y : num) : nmul x y = nmul y x.
Proof.
  destruct x, y; simpl; try reflexivity;
    try (destruct (Rsign r); reflexivity).
  f_equal. lra.
Qed.

(** Scaling by a positive finite number keeps the kind of a number. *)
Lemma nmul_pos_NaN (c : R) : nmul (Fin c) NaN = NaN.
Proof. reflexivity. Qed.

Lemma nmul_pos_PInf (c : R) : 0 < c -> nmul (Fin c) PInf = PInf.
Proof. intros H. simpl. rewrite Rsign_pos by exact H. reflexivity. Qed.

Lemma nmul_pos_NInf (c : R) : 0 < c -> nmul (Fin c) NInf = NInf.
Proof. intros H. simpl. rewrite Rsign_pos by exact H. reflexivity. Qed.

Lemma nsign_scale (c : R) (x : num) : 0 < c -> nsign (nmul (Fin c) x) = nsign x.
Proof.
  intros H. destruct x; simpl; try (rewrite Rsign_pos by exact H); try reflexivity.
  apply Rsign_scale. exact H.
Qed.

Lemma nmul_scale_add (c : R) (x y : num) :
  0 < c -> nmul (Fin c) (nadd x y) = nadd (nmul (Fin c) x) (nmul (Fin c) y).
Proof.
  intros H. destruct x, y; simpl; try (rewrite Rsign_pos by exact H); try reflexivity.
  f_equal. lra.
Qed.

Lemma nmul_scale_neg (c : R) (x : num) :
  0 < c -> nmul (Fin c) (nneg x) = nneg (nmul (Fin c) x).
Proof.
  intros H. destruct x; simpl; try (rewrite Rsign_pos by exact H); try reflexivity.
  f_equal. lra.
Qed.

Lemma nmul_scale_assoc (c : R) (x y : num) :
  0 < c -> nmul (nmul (Fin c) x) y = nmul (Fin c) (nmul x y).
Proof.
  intros H.
  destruct x as [| | |a], y as [| | |b]; simpl;
    try (rewrite Rsign_pos by exact H); simpl; try reflexivity.
  - destruct (Rsign b); simpl; try (rewrite Rsign_pos by exact H); reflexivity.
  - destruct (Rsign b); simpl; try (rewrite Rsign_pos by exact H); reflexivity.
  - rewrite (Rsign_scale c a H).
    destruct (Rsign a); simpl; try (rewrite Rsign_pos by exact H); reflexivity.
  - rewrite (Rsign_scale c a H).
    destruct (Rsign a); simpl; try (rewrite Rsign_pos by exact H); reflexivity.
  - f_equal. lra.
Qed.

Lemma nmul_scale_assoc_r (c : R) (x y : num) :
  0 < c -> nmul x (nmul (Fin c) y) = nmul (Fin c) (nmul x y).
Proof.
  intros H. rewrite (nmul_comm x), nmul_scale_assoc by exact H.
  rewrite (nmul_comm y). reflexivity.
Qed.

Lemma ndiv_scale (c : R) (x y : num) :
  0 < c -> ndiv (nmul (Fin c) x) (nmul (Fin c) y) = ndiv x y.
Proof.
  intros H.
  destruct x as [| | |a], y as [| | |b]; simpl;
    try (rewrite Rsign_pos by exact H); simpl; try reflexivity.
  - destruct (Req_dec_T (c * b) 0) as [E|E], (Req_dec_T b 0) as [E'|E'];
      try reflexivity.
    + exfalso. apply E'. apply (Rmult_eq_reg_l c); lra.
    + exfalso. apply E. subst b. lra.
    + rewrite (Rsign_scale c b H). reflexivity.
  - destruct (Req_dec_T (c * b) 0) as [E|E], (Req_dec_T b 0) as [E'|E'];
      try reflexivity.
    + exfalso. apply E'. apply (Rmult_eq_reg_l c); lra.
    + exfalso. apply E. subst b. lra.
    + rewrite (Rsign_scale c b H). reflexivity.
  - destruct (Req_dec_T (c * b) 0) as [E|E], (Req_dec_T b 0) as [E'|E'].
    + rewrite (Rsign_scale c a H). reflexivity.
    + exfalso. apply E'. apply (Rmult_eq_reg_l c); lra.
    + exfalso. apply E. subst b. lra.
    + f_equal. field. split; lra.
Qed.

Lemma nsqrt_scale (c : R) (x : num) :
  0 < c -> nsqrt (nmul (Fin c) x) = nmul (Fin (sqrt c)) (nsqrt x).
Proof.
  intros H. assert (Hs : 0 < sqrt c) by (apply sqrt_lt_R0; exact H).
  destruct x as [| | |a]; simpl; try (rewrite Rsign_pos by exact H); simpl;
    try reflexivity.
  - rewrite Rsign_pos by exact Hs. reflexivity.
  - destruct (Rlt_dec (c * a) 0) as [E|E], (Rlt_dec a 0) as [E'|E']; simpl;
      try reflexivity.
    + exfalso. nra.
    + exfalso. nra.
    + f_equal. apply sqrt_mult; lra.
Qed.

End NumFacts.

(** ** Broadcasting *)

Lemma bdim_same (a : nat) : bdim a a = Ok a.
Proof. unfold bdim. rewrite Nat.eqb_refl. reflexivity. Qed.

Lemma bdim_1_r (a : nat) : bdim a 1 = Ok a.
Proof.
  unfold bdim. destruct (a =? 1) eqn:E; [apply Nat.eqb_eq in E; subst; reflexivity|].
  reflexivity.
Qed.

Lemma bdim_1_l (b : nat) : bdim 1 b = Ok b.
Proof.
  unfold bdim. destruct (1 =? b) eqn:E; [apply Nat.eqb_eq in E; subst; reflexivity|].
  reflexivity.
Qed.

Lemma bdim_Ok (a b c : nat) :
  bdim a b = Ok c -> (a = b /\ c = a) \/ (a = 1 /\ c = b) \/ (b = 1 /\ c = a).
Proof.
  unfold bdim. destruct (a =? b) eqn:E1.
  - apply Nat.eqb_eq in E1. intros H; inversion H; subst; lia.
  - destruct (a =? 1) eqn:E2.
    + apply Nat.eqb_eq in E2. intros H; inversion H; subst; lia.
    + destruct (b =? 1) eqn:E3; [|discriminate].
      apply Nat.eqb_eq in E3. intros H; inversion H; subst; lia.
Qed.

Lemma bidx_lt (dim i : nat) : i < dim -> bidx dim i = i.
Proof.
  intros H. unfold bidx. destruct (dim =? 1) eqn:E; [|reflexivity].
  apply Nat.eqb_eq in E. lia.
Qed.

Lemma bget_lt (A : matrix) (i j : nat) :
  i < nrows A -> j < ncols A -> bget A i j = get A i j.
Proof. intros Hi Hj. unfold bget. rewrite !bidx_lt by assumption. reflexivity. Qed.

Lemma nrows_reshape_col (v : vector) : nrows (reshape_col v) = length v.
Proof. apply length_map. Qed.

Lemma ncols_reshape_col (v : vector) : v <> [] -> ncols (reshape_col v) = 1.
Proof. destruct v; [congruence | reflexivity]. Qed.

Lemma has_shape_reshape_col (v : vector) : has_shape (length v) 1 (reshape_col v).
Proof.
  split; [apply length_map|]. unfold reshape_col. apply Forall_map.
  apply Forall_forall. reflexivity.
Qed.

Lemma get_reshape_col (v : vector) (i : nat) : get (reshape_col v) i 0 = nth i v NaN.
Proof.
  unfold get, reshape_col. revert i; induction v as [|x v IH]; intros [|i]; simpl; auto.
Qed.

(** Reading a column (n,1) stretched along the second axis. *)
Lemma bget_reshape_col (v : vector) (i j : nat) :
  i < length v -> bget (reshape_col v) i j = nth i v NaN.
Proof.
  intros Hi. unfold bget. rewrite nrows_reshape_col, (bidx_lt _ _ Hi).
  rewrite ncols_reshape_col by (intros ->; simpl in Hi; lia).
  apply get_reshape_col.
Qed.

Lemma nrows_mmap (f : num -> num) (A : matrix) : nrows (mmap f A) = nrows A.
Proof. apply length_map. Qed.

Lemma ncols_mmap (f : num -> num) (A : matrix) : ncols (mmap f A) = ncols A.
Proof. destruct A; [reflexivity | apply length_map]. Qed.

Lemma mmap_mk_matrix (g : num -> num) (r c : nat) (f : nat -> nat -> num) :
  mmap g (mk_matrix r c f) = mk_matrix r c (fun i j => g (f i j)).
Proof.
  unfold mmap, mk_matrix, mk_vector. rewrite map_map. apply map_ext.
  intros i. apply map_map.
Qed.

Lemma mk_vector_nth (F : num -> num) (row : vector) (d : num) :
  mk_vector (length row) (fun j => F (nth j row d)) = map F row.
Proof.
  apply (nth_ext _ _ (F d) (F d)).
  - rewrite length_mk_vector, length_map. reflexivity.
  - intros j Hj. rewrite length_mk_vector in Hj.
    rewrite nth_mk_vector by exact Hj. symmetry. apply map_nth.
Qed.

Lemma map_nth_range {A : Type} (l : list A) (d : A) :
  map (fun i => nth i l d) (range (length l)) = l.
Proof.
  apply (nth_ext _ _ d d).
  - rewrite length_map. apply length_range.
  - intros i Hi. rewrite length_map, length_range in Hi.
    rewrite (nth_indep _ d (nth 0 l d)) by (rewrite length_map, length_range; exact Hi).
    rewrite (map_nth (fun i => nth i l d)), nth_range by exact Hi. reflexivity.
Qed.

Lemma mapM_Ok {A B : Type} (f : A -> result B) (g : A -> B) (l : list A) :
  (forall a, In a l -> f a = Ok (g a)) -> mapM f l = Ok (map g l).
Proof.
  induction l as [|a l IH]; intros H; simpl; [reflexivity|].
  rewrite (H a (or_introl eq_refl)). cbn [bind].
  rewrite IH by (intros b Hb; apply H; right; exact Hb). reflexivity.
Qed.

(** ** [logsumexp] along axis 1 *)

Lemma assign_rows (y : matrix) (l : list nat) :
  forall s : matrix,
    length s = length y ->
    Forall (fun a => a < length y) l ->
    foldM (fun a s => ya <- getitem y a ;; setitem s a ya) l s =
    Ok (map (fun i => if existsb (Nat.eqb i) l then nth i y [] else nth i s [])
            (range (length y))).
Proof.
  induction l as [|a l IH]; intros s Hs Hl.
  - simpl. rewrite <- Hs. rewrite map_nth_range. reflexivity.
  - inversion Hl as [|? ? Ha Hl']; subst.
    cbn [foldM]. rewrite (getitem_lt _ _ []) by exact Ha. cbn [bind].
    unfold setitem. rewrite Hs.
    replace (a <? length y) with true by (symmetry; apply Nat.ltb_lt; exact Ha).
    cbn [bind]. rewrite IH by (rewrite ?update_length; auto).
    f_equal. apply map_ext_in. intros i Hi. apply in_seq in Hi.
    cbn [existsb]. rewrite nth_update, Hs.
    replace (a <? length y) with true by (symmetry; apply Nat.ltb_lt; exact Ha).
    rewrite andb_true_r.
    destruct (i =? a) eqn:E; cbn [orb].
    + apply Nat.eqb_eq in E. subst i.
      destruct (existsb (Nat.eqb a) l); reflexivity.
    + reflexivity.
Qed.

Lemma existsb_np_where (bs : list bool) (i : nat) :
  existsb (Nat.eqb i) (np_where bs) = nth i bs false.
Proof.
  unfold np_where.
  destruct (nth i bs false) eqn:E.
  - apply existsb_exists. exists i. split; [|apply Nat.eqb_refl].
    apply filter_In. split; [|exact E].
    apply in_seq. split; [lia|]. simpl.
    destruct (Nat.lt_ge_cases i (length bs)) as [H|H]; [exact H|].
    rewrite nth_overflow in E by exact H. discriminate.
  - destruct (existsb (Nat.eqb i) _) eqn:E'; [|reflexivity].
    apply existsb_exists in E'. destruct E' as (j & Hj & Hij).
    apply Nat.eqb_eq in Hij. subst j. apply filter_In in Hj.
    destruct Hj as [_ Hj]. congruence.
Qed.

Lemma assign_where (bs : list bool) (y s : matrix) :
  length s = length y -> length bs = length y ->
  foldM (fun a s => ya <- getitem y a ;; setitem s a ya) (np_where bs) s =
  Ok (select_rows bs y s).
Proof.
  intros Hs Hb. rewrite assign_rows; auto.
  - unfold select_rows. rewrite Hs. apply f_equal. apply map_ext. intros i.
    rewrite existsb_np_where. reflexivity.
  - apply Forall_forall. intros a Ha. unfold np_where in Ha.
    apply filter_In in Ha. destruct Ha as [Ha _]. apply in_seq in Ha. lia.
Qed.

Lemma row_max_Ok (row : vector) : row <> [] -> reduce_max row = Ok (row_max row).
Proof. destruct row; [congruence | reflexivity]. Qed.

Lemma broadcast_eval (f : num -> num -> num) (A B : matrix) (r c : nat) :
  bdim (nrows A) (nrows B) = Ok r ->
  bdim (ncols A) (ncols B) = Ok c ->
  broadcast f A B = Ok (mk_matrix r c (fun i j => f (bget A i j) (bget B i j))).
Proof. intros Hr Hc. unfold broadcast. rewrite Hr, Hc. reflexivity. Qed.

(** An (n,k) array against a column (n,1). *)
Lemma broadcast_col (f : num -> num -> num) (n k : nat) (A : matrix) (v : vector) :
  has_shape n k A -> 0 < n -> 0 < k -> length v = n ->
  broadcast f A (reshape_col v) =
  Ok (mk_matrix n k (fun i j => f (get A i j) (nth i v NaN))).
Proof.
  intros HA Hn Hk Hv.
  assert (Hne : v <> []) by (intros ->; simpl in Hv; lia).
  rewrite (broadcast_eval f A (reshape_col v) n k).
  - f_equal. apply mk_matrix_ext. intros i j Hi Hj.
    rewrite bget_lt, bget_reshape_col; auto; try lia.
    + rewrite (has_shape_nrows n k A HA). exact Hi.
    + rewrite (has_shape_ncols n k A HA Hn). exact Hj.
  - rewrite (has_shape_nrows n k A HA), nrows_reshape_col, Hv. apply bdim_same.
  - rewrite (has_shape_ncols n k A HA Hn), ncols_reshape_col by exact Hne.
    apply bdim_1_r.
Qed.

(** Two columns (n,1). *)
Lemma broadcast_cols (f : num -> num -> num) (n : nat) (u v : vector) :
  0 < n -> length u = n -> length v = n ->
  broadcast f (reshape_col u) (reshape_col v) =
  Ok (reshape_col (mk_vector n (fun i => f (nth i u NaN) (nth i v NaN)))).
Proof.
  intros Hn Hu Hv.
  assert (Hue : u <> []) by (intros ->; simpl in Hu; lia).
  assert (Hve : v <> []) by (intros ->; simpl in Hv; lia).
  rewrite (broadcast_eval f _ _ n 1).
  - f_equal. unfold mk_matrix, reshape_col, mk_vector. rewrite map_map.
    apply map_ext_in. intros i Hi. apply in_seq in Hi.
    unfold range. cbn [seq map].
    rewrite !bget_reshape_col by lia. reflexivity.
  - rewrite !nrows_reshape_col, Hu, Hv. apply bdim_same.
  - rewrite !ncols_reshape_col by assumption. reflexivity.
Qed.

Lemma map_mk_matrix {B : Type} (g : vector -> B) (r c : nat) (f : nat -> nat -> num) :
  map g (mk_matrix r c f) = map (fun i => g (mk_vector c (f i))) (range r).
Proof. unfold mk_matrix. apply map_map. Qed.

Lemma map_as_range {A B : Type} (g : A -> B) (l : list A) (d : A) :
  map g l = map (fun i => g (nth i l d)) (range (length l)).
Proof.
  rewrite <- (map_nth_range l d) at 1. apply map_map.
Qed.

Lemma squeeze_reshape_col (v : vector) : squeeze (reshape_col v) = v.
Proof.
  unfold squeeze, reshape_col. rewrite map_map. simpl. apply map_id.
Qed.

Lemma reshape_col_mk_vector (n : nat) (f : nat -> num) :
  reshape_col (mk_vector n f) = map (fun i => [f i]) (range n).
Proof. unfold reshape_col, mk_vector. apply map_map. Qed.

Lemma nth_reshape_col (v : vector) (i : nat) :
  i < length v -> nth i (reshape_col v) [] = [nth i v NaN].
Proof.
  intros Hi. unfold reshape_col.
  rewrite (nth_indep _ [] [NaN]) by (rewrite length_map; exact Hi).
  apply (map_nth (fun x => [x])).
Qed.

Lemma select_rows_col (bs : list bool) (u v : vector) :
  length u = length v -> length bs = length v ->
  select_rows bs (reshape_col u) (reshape_col v) =
  reshape_col (mk_vector (length v)
                 (fun i => if nth i bs false then nth i u NaN else nth i v NaN)).
Proof.
  intros Hu Hb. rewrite reshape_col_mk_vector. unfold select_rows.
  change (length (reshape_col v)) with (nrows (reshape_col v)).
  rewrite nrows_reshape_col.
  apply map_ext_in. intros i Hi. apply in_seq in Hi.
  rewrite !nth_reshape_col by lia.
  destruct (nth i bs false); reflexivity.
Qed.

(** Along axis 1, [logsumexp] returns the column of the [lse_row] of the
    rows. *)
Lemma logsumexp_rows (n k : nat) (x : matrix) :
  has_shape n k x -> 0 < k ->
  logsumexp x 1 = Ok (reshape_col (map lse_row x)).
Proof.
  intros Hx Hk. pose proof Hx as [Hn Hrows]. rewrite Forall_forall in Hrows.
  unfold logsumexp. cbn [np_max].
  rewrite (mapM_Ok reduce_max row_max).
  2:{ intros row Hrow. apply row_max_Ok. intros ->.
      specialize (Hrows [] Hrow). simpl in Hrows. lia. }
  cbn [bind].
  destruct (Nat.eq_dec n 0) as [E0|E0].
  { subst n. destruct x; [|discriminate]. reflexivity. }
  assert (Hn0 : 0 < n) by lia.
  set (m := map row_max x).
  assert (Hm : length m = n) by (unfold m; rewrite length_map; exact Hn).
  rewrite (broadcast_col nsub n k x m Hx Hn0 Hk Hm). cbn [bind].
  rewrite mmap_mk_matrix. cbn [np_sum bind].
  rewrite map_mk_matrix, map_map.
  set (t := map _ (range n)).
  assert (Ht : length t = n) by (unfold t; rewrite length_map; apply length_range).
  rewrite (broadcast_cols nadd n m t Hn0 Hm Ht). cbn [bind].
  rewrite squeeze_reshape_col.
  rewrite assign_where.
  2:{ fold (nrows (reshape_col m)). rewrite !nrows_reshape_col, length_mk_vector.
      symmetry; exact Hm. }
  2:{ fold (nrows (reshape_col m)).
      rewrite !length_map, nrows_reshape_col. reflexivity. }
  rewrite select_rows_col.
  2:{ rewrite length_mk_vector. exact Hm. }
  2:{ rewrite !length_map, length_mk_vector. exact Hm. }
  f_equal. f_equal. rewrite length_mk_vector.
  rewrite (map_as_range lse_row x []), Hn. unfold mk_vector.
  apply map_ext_in. intros i Hi. apply in_seq in Hi.
  assert (Hi' : i < n) by lia.
  assert (Hmi : nth i m NaN = row_max (nth i x [])).
  { unfold m. rewrite (nth_indep _ NaN (row_max [])) by (rewrite length_map; lia).
    apply map_nth. }
  rewrite map_map.
  rewrite (nth_indep _ false (negb (isfinite (row_max [])))) by (unfold m; rewrite !length_map; lia).
  unfold m at 1. rewrite map_map. rewrite (map_nth (fun x0 => negb (isfinite (row_max x0)))).
  unfold lse_row. rewrite Hmi.
  destruct (isfinite (row_max (nth i x []))); cbn [negb]; [|reflexivity].
  fold (mk_vector n (fun i0 => nadd (nth i0 m NaN) (nth i0 t NaN))).
  rewrite nth_mk_vector by exact Hi'. rewrite Hmi. f_equal.
  unfold t. rewrite (nth_indep _ NaN ((fun i0 => nlog (nsum (mk_vector k
     (fun j => nexp (nsub (get x i0 j) (nth i0 m NaN)))))) 0))
    by (rewrite length_map, length_range; exact Hi').
  rewrite (map_nth (fun i0 => nlog (nsum (mk_vector k
     (fun j => nexp (nsub (get x i0 j) (nth i0 m NaN))))))).
  rewrite nth_range by exact Hi'. rewrite Hmi. f_equal. f_equal.
  assert (Hlen : length (nth i x []) = k) by (apply (has_shape_nth n k); assumption).
  rewrite <- (mk_vector_nth (fun v => nexp (nsub v (row_max (nth i x [])))) (nth i x []) NaN).
  rewrite Hlen. reflexivity.
Qed.

(** ** The value [logsumexp] leaves for a row *)

Section LseRow.

Local Open Scope R_scope.

Lemma nmax_below_inf (x y : num) :
  below_inf (nmax x y) -> below_inf x /\ below_inf y /\ (nmax x y = x \/ nmax x y = y).
Proof.
  unfold below_inf.
  destruct x as [| | |a], y as [| | |b]; simpl; intros H;
    try (destruct H as [H|[c H]]; discriminate);
    try (repeat split; eauto; fail).
  repeat split; eauto. destruct (Rlt_dec a b); auto.
Qed.

Lemma fold_left_nmax_below_inf (l : vector) (x : num) :
  below_inf (fold_left nmax l x) ->
  Forall below_inf (x :: l) /\ In (fold_left nmax l x) (x :: l).
Proof.
  revert x; induction l as [|y l IH]; intros x H; simpl in *.
  - split; [constructor; auto | left; reflexivity].
  - destruct (IH _ H) as [H1 H2]. inversion H1 as [|? ? Hxy Hl]; subst.
    destruct (nmax_below_inf _ _ Hxy) as (Hx & Hy & Hsel).
    split; [constructor; [exact Hx | constructor; [exact Hy | exact Hl]]|].
    destruct H2 as [H2|H2]; [|right; right; exact H2].
    rewrite <- H2. destruct Hsel as [E|E]; rewrite E; auto.
Qed.

Lemma row_max_Fin (row : vector) (r : R) :
  row_max row = Fin r -> Forall below_inf row /\ In (Fin r) row.
Proof.
  destruct row as [|x row]; [discriminate|]. simpl. intros H.
  destruct (fold_left_nmax_below_inf row x) as [H1 H2].
  - rewrite H. right. eauto.
  - rewrite H in H2. auto.
Qed.

Lemma row_max_NInf (row : vector) :
  row <> [] -> Forall (fun v => v = NInf) row -> row_max row = NInf.
Proof.
  destruct row as [|x row]; [congruence|]. intros _ H.
  inversion H as [|? ? Hx Hrow]; subst. simpl. clear H.
  induction row as [|y row IH]; [reflexivity|].
  inversion Hrow as [|? ? Hy Hrow']; subst. simpl. apply IH. exact Hrow'.
Qed.

Lemma rexp_nonneg (v : num) : 0 <= rexp v.
Proof. destruct v; simpl; try lra. left. apply exp_pos. Qed.

Lemma Rsum_rexp_nonneg (row : vector) : 0 <= Rsum (map rexp row).
Proof.
  induction row as [|v row IH]; simpl; [lra|].
  pose proof (rexp_nonneg v). lra.
Qed.

Lemma Rsum_rexp_pos (row : vector) (r : R) :
  In (Fin r) row -> 0 < Rsum (map rexp row).
Proof.
  induction row as [|v row IH]; simpl; [tauto|]. intros [H|H].
  - subst v. simpl. pose proof (exp_pos r). pose proof (Rsum_rexp_nonneg row). lra.
  - pose proof (rexp_nonneg v). specialize (IH H). lra.
Qed.

Lemma nsum_nexp (row : vector) :
  Forall below_inf row -> nsum (map nexp row) = Fin (Rsum (map rexp row)).
Proof.
  induction 1 as [|v row Hv Hrow IH]; [reflexivity|].
  change (nsum (map nexp (v :: row))) with (nadd (nexp v) (nsum (map nexp row))).
  change (Rsum (map rexp (v :: row))) with (rexp v + Rsum (map rexp row)).
  rewrite IH.
  destruct Hv as [->|[a ->]]; simpl; f_equal; lra.
Qed.

Lemma nsum_nexp_shift (row : vector) (t : R) :
  Forall below_inf row ->
  nsum (map (fun v => nexp (nsub v (Fin t))) row) =
  Fin (Rsum (map rexp row) * exp (- t)).
Proof.
  induction 1 as [|v row Hv Hrow IH].
  - simpl. f_equal. lra.
  - change (nsum (map (fun v => nexp (nsub v (Fin t))) (v :: row)))
      with (nadd (nexp (nsub v (Fin t)))
                 (nsum (map (fun v => nexp (nsub v (Fin t))) row))).
    change (Rsum (map rexp (v :: row))) with (rexp v + Rsum (map rexp row)).
    rewrite IH.
    destruct Hv as [->|[a ->]]; simpl; f_equal; [lra|].
    rewrite exp_plus. lra.
Qed.

(** A row whose maximum is finite is left with log(sum(exp(row))), the
    -inf entries counting for exp(-inf) = 0. *)
Lemma lse_row_Fin (row : vector) (r : R) :
  row_max row = Fin r ->
  lse_row row = Fin (ln (Rsum (map rexp row))) /\
  lse_row row = nlog (nsum (map nexp row)).
Proof.
  intros Hm. destruct (row_max_Fin row r Hm) as [Hrow Hin].
  pose proof (Rsum_rexp_pos row r Hin) as Hpos.
  assert (H1 : lse_row row = Fin (ln (Rsum (map rexp row)))).
  { unfold lse_row. rewrite Hm. cbn [isfinite].
    rewrite (nsum_nexp_shift row r Hrow).
    rewrite nlog_Fin by (apply Rmult_lt_0_compat; [exact Hpos | apply exp_pos]).
    simpl. f_equal. rewrite ln_mult by (try exact Hpos; apply exp_pos).
    rewrite ln_exp. lra. }
  split; [exact H1|].
  rewrite H1, (nsum_nexp row Hrow), nlog_Fin by exact Hpos. reflexivity.
Qed.

(** A row of -inf is left with -inf. *)
Lemma lse_row_NInf (row : vector) :
  row <> [] -> Forall (fun v => v = NInf) row -> lse_row row = NInf.
Proof.
  intros Hne H. unfold lse_row. rewrite (row_max_NInf row Hne H). reflexivity.
Qed.

(** The value left for a row is finite only if the maximum of the row is. *)
Lemma lse_row_finite (row : vector) :
  isfinite (lse_row row) = true -> exists r, row_max row = Fin r.
Proof.
  unfold lse_row. destruct (row_max row) as [| | |r] eqn:E; simpl; try discriminate.
  eauto.
Qed.

(** exp(row - T) sums to 1 when T is the finite value left for the row. *)
Lemma exp_sub_lse_sums_to_1 (row : vector) :
  isfinite (lse_row row) = true ->
  nsum (map (fun v => nexp (nsub v (lse_row row))) row) = Fin 1.
Proof.
  intros Hf. destruct (lse_row_finite row Hf) as [r Hm].
  destruct (row_max_Fin row r Hm) as [Hrow Hin].
  pose proof (Rsum_rexp_pos row r Hin) as Hpos.
  destruct (lse_row_Fin row r Hm) as [-> _].
  rewrite (nsum_nexp_shift row _ Hrow). f_equal.
  rewrite exp_Ropp, exp_ln by exact Hpos. field. lra.
Qed.

End LseRow.

(** ** [logsumexp] *)

(** Along axis 1 (the axis [expectation] reduces), every row of -inf is
    left with -inf and every row with a finite maximum with
    log(sum(exp(row))), computed as max + log(sum(exp(row - max))). *)
Lemma logsumexp_axis1 (n k : nat) (x : matrix) :
  has_shape n k x -> 0 < k ->
  exists s,
    logsumexp x 1 = Ok s /\ has_shape n 1 s /\
    forall i, i < n ->
      let row := nth i x [] in
      (Forall (fun v => v = NInf) row -> get s i 0 = NInf) /\
      (forall r, row_max row = Fin r ->
         get s i 0 = nadd (Fin r) (nlog (nsum (map (fun v => nexp (nsub v (Fin r))) row))) /\
         get s i 0 = nlog (nsum (map nexp row))).
Proof.
  intros Hx Hk. exists (reshape_col (map lse_row x)).
  pose proof Hx as [Hn Hrows].
  split; [apply (logsumexp_rows n k); assumption|].
  split.
  { rewrite <- Hn, <- (length_map lse_row x). apply has_shape_reshape_col. }
  intros i Hi row. rewrite get_reshape_col.
  rewrite (nth_indep _ NaN (lse_row [])) by (rewrite length_map; lia).
  rewrite (map_nth lse_row). fold row.
  assert (Hne : row <> []).
  { intros E. pose proof (has_shape_nth n k x i Hx Hi) as Hl. fold row in Hl.
    rewrite E in Hl. simpl in Hl. lia. }
  split.
  - intros Hall. apply lse_row_NInf; assumption.
  - intros r Hr. split.
    + unfold lse_row. rewrite Hr. reflexivity.
    + apply (lse_row_Fin row r Hr).
Qed.

Arguments nadd : simpl never.
Arguments nsub : simpl never.
Arguments nmul : simpl never.
Arguments ndiv : simpl never.
Arguments nsqrt : simpl never.
Arguments nexp : simpl never.
Arguments nlog : simpl never.
Arguments nmax : simpl never.
Arguments nltb : simpl never.
Arguments nabs : simpl never.
Arguments nneg : simpl never.

Section Evaluation.

Local Open Scope R_scope.

Lemma nadd_Fin (a b : R) : nadd (Fin a) (Fin b) = Fin (a + b).
Proof. reflexivity. Qed.

Lemma nsub_Fin (a b : R) : nsub (Fin a) (Fin b) = Fin (a - b).
Proof. reflexivity. Qed.

Lemma nmul_Fin (a b : R) : nmul (Fin a) (Fin b) = Fin (a * b).
Proof. reflexivity. Qed.

Lemma nexp_Fin (a : R) : nexp (Fin a) = Fin (exp a).
Proof. reflexivity. Qed.

Lemma nneg_Fin (a : R) : nneg (Fin a) = Fin (- a).
Proof. reflexivity. Qed.

Lemma nabs_Fin (a : R) : nabs (Fin a) = Fin (Rabs a).
Proof. reflexivity. Qed.

End Evaluation.

Create Rewrite HintDb num_eval.
#[export] Hint Rewrite nadd_Fin nsub_Fin nmul_Fin nexp_Fin nneg_Fin nabs_Fin nmax_Fin
  : num_eval.

(** C5: along axis 0, the default, [logsumexp] does not return the
    log-sum-exp of the columns.  The maxima of the k columns are made a
    (k,1) column and subtracted from the (n,k) array: for n <> k (and
    n, k > 1) the shapes do not broadcast and the call raises
    [ValueError]; for n = k the maximum of column i is subtracted from row
    i and the sums are those of other numbers.  On [[0,1],[0,1]] the
    entry for the first column is log(1 + exp(-1)), not log(2). *)
Theorem logsumexp_axis0_wrong :
  logsumexp [[Fin 0; Fin 0; Fin 0]; [Fin 0; Fin 0; Fin 0]] 0 = Err ValueError /\
  logsumexp [[NInf; NInf; NInf]; [NInf; NInf; NInf]] 0 = Err ValueError /\
  exists s,
    logsumexp [[Fin 0; Fin 1]; [Fin 0; Fin 1]] 0 = Ok s /\
    get s 0 0 = Fin (ln (1 + exp (- 1))) /\
    get s 0 0 <> nlog (nsum (map nexp [Fin 0; Fin 0])).
Proof.
  split; [reflexivity|]. split; [reflexivity|].
  eexists. split; [|split].
  - unfold logsumexp. cbn. autorewrite with num_eval. cbn.
    rewrite !nlog_Fin.
    + cbn. autorewrite with num_eval. reflexivity.
    + pose proof (exp_pos (1 - Rmax 0 0)). pose proof (exp_pos (1 - Rmax 1 1)). lra.
    + pose proof (exp_pos (0 - Rmax 0 0)). pose proof (exp_pos (0 - Rmax 1 1)). lra.
  - cbn. f_equal. unfold Rmax.
    destruct (Rle_dec 0 0); [|lra]. destruct (Rle_dec 1 1); [|lra].
    replace (0 - 0)%R with 0%R by lra. replace (0 - 1)%R with (- 1)%R by lra.
    rewrite exp_0. rewrite Rplus_0_l. f_equal. lra.
  - cbn. autorewrite with num_eval. rewrite nlog_Fin.
    + intros H. inversion H as [H1]. clear H. revert H1. unfold Rmax.
      destruct (Rle_dec 0 0); [|lra]. destruct (Rle_dec 1 1); [|lra].
      replace (0 - 0)%R with 0%R by lra. replace (0 - 1)%R with (- 1)%R by lra.
      rewrite exp_0, Rplus_0_l. intros H1.
      apply ln_inv in H1.
      * assert (E : exp (- 1) = exp 0) by (rewrite exp_0; lra).
        apply exp_inv in E. lra.
      * pose proof (exp_pos (- 1)). lra.
      * lra.
    + rewrite exp_0. lra.
Qed.

(** ** [expectation] *)

Lemma broadcast_Ok_inv (f : num -> num -> num) (A B C : matrix) :
  broadcast f A B = Ok C ->
  exists r c,
    bdim (nrows A) (nrows B) = Ok r /\ bdim (ncols A) (ncols B) = Ok c /\
    C = mk_matrix r c (fun i j => f (bget A i j) (bget B i j)).
Proof.
  unfold broadcast. intros H. inv_bind H as r Hr. inv_bind H as c Hc.
  inversion H; subst. exists r, c. auto.
Qed.

Lemma broadcast_has_shape (f : num -> num -> num) (A B C : matrix) :
  broadcast f A B = Ok C -> exists r c, has_shape r c C.
Proof.
  intros H. apply broadcast_Ok_inv in H. destruct H as (r & c & _ & _ & ->).
  exists r, c. apply has_shape_mk_matrix.
Qed.

Lemma has_shape_0 (c : nat) (A : matrix) : has_shape 0 c A -> A = [].
Proof. intros [H _]. destruct A; [reflexivity | discriminate]. Qed.

Lemma has_shape_empty (c : nat) : has_shape 0 c [].
Proof. split; [reflexivity | constructor]. Qed.

Lemma nth_row_mk_matrix_map (r c : nat) (A : matrix) (F : nat -> num -> num) (i : nat) :
  has_shape r c A -> i < r ->
  nth i (mk_matrix r c (fun a b => F a (get A a b))) [] = map (F i) (nth i A []).
Proof.
  intros HA Hi. rewrite nth_mk_matrix by exact Hi.
  rewrite <- (mk_vector_nth (F i) (nth i A []) NaN).
  rewrite (has_shape_nth r c A i HA Hi). reflexivity.
Qed.

Section Expectation.

Context {lib : Library}.

Lemma expectation_logpdf_has_shape (X mu : matrix) (si : list matrix) (pi : vector)
  (logpdf : matrix) :
  expectation_logpdf X mu si pi = Ok logpdf -> exists r c, has_shape r c logpdf.
Proof.
  unfold expectation_logpdf. intros H. inv_bind H as L HL.
  apply broadcast_has_shape in H. exact H.
Qed.

(** C6: when every entry of T = logsumexp(logpdf, 1) is finite,
    [expectation] returns R = exp(logpdf - T), T broadcast along the rows,
    and every row of R sums to 1. *)
Theorem expectation_rows_sum_to_1 (X W mu : matrix) (si : list matrix) (pi : vector)
  (logpdf T : matrix) :
  expectation_logpdf X mu si pi = Ok logpdf ->
  logsumexp logpdf 1 = Ok T ->
  Forall (Forall (fun v => isfinite v = true)) T ->
  has_shape (nrows logpdf) 1 W ->
  exists R llh,
    expectation X W mu si pi = Ok (R, llh) /\
    has_shape (nrows logpdf) (ncols logpdf) R /\
    (forall i j, i < nrows logpdf -> j < ncols logpdf ->
       get R i j = nexp (nsub (get logpdf i j) (get T i 0))) /\
    (forall row, In row R -> nsum row = Fin 1).
Proof.
  intros HL HT Hfin HW.
  destruct (expectation_logpdf_has_shape _ _ _ _ _ HL) as (r & c & Hs).
  unfold expectation. rewrite HL. cbn [bind]. rewrite HT. cbn [bind].
  rewrite (has_shape_nrows r c logpdf Hs) in *.
  destruct (Nat.eq_dec r 0) as [Er|Er].
  { subst r. rewrite (has_shape_0 c logpdf Hs) in *.
    rewrite (has_shape_0 1 W HW). cbn in HT. inversion HT; subst T.
    cbn. eexists _, _. split; [reflexivity|].
    split; [apply has_shape_empty|]. split; [intros; lia | intros row []]. }
  assert (Hr : 0 < r) by lia.
  rewrite (has_shape_ncols r c logpdf Hs Hr).
  destruct (Nat.eq_dec c 0) as [Ec|Ec].
  { exfalso. subst c. destruct logpdf as [|row L]; [destruct Hs; simpl in *; lia|].
    destruct Hs as [_ Hrows]. inversion Hrows as [|? ? Hrow _]; subst.
    destruct row; [|discriminate]. cbn in HT. discriminate. }
  assert (Hc : 0 < c) by lia.
  rewrite (logsumexp_rows r c logpdf Hs Hc) in HT. inversion HT; subst T. clear HT.
  set (t := map lse_row logpdf) in *.
  assert (Ht : length t = r) by (unfold t; rewrite length_map; apply Hs).
  assert (Hw : W = reshape_col (squeeze W)).
  { destruct HW as [HW1 HW2]. unfold reshape_col, squeeze. rewrite map_map.
    rewrite <- (map_id W) at 1. apply map_ext_in. intros row Hrow.
    rewrite Forall_forall in HW2. specialize (HW2 row Hrow).
    destruct row as [|a [|b row]]; try discriminate. reflexivity. }
  assert (HWT : broadcast nmul W (reshape_col t) =
                Ok (reshape_col (mk_vector r
                      (fun i => nmul (nth i (squeeze W) NaN) (nth i t NaN))))).
  { rewrite Hw at 1. apply broadcast_cols; auto.
    unfold squeeze. rewrite length_map. apply HW. }
  rewrite HWT. cbn [bind].
  rewrite (broadcast_col nsub r c logpdf t Hs Hr Hc Ht). cbn [bind].
  rewrite mmap_mk_matrix.
  eexists _, _. split; [reflexivity|].
  split; [apply has_shape_mk_matrix|]. split.
  - intros i j Hi Hj. rewrite get_mk_matrix by assumption.
    rewrite get_reshape_col. reflexivity.
  - intros row Hrow. apply In_nth with (d := []) in Hrow.
    destruct Hrow as (i & Hi & <-).
    change (length (mk_matrix r c (fun i0 j => nexp (nsub (get logpdf i0 j) (nth i0 t NaN)))))
      with (nrows (mk_matrix r c (fun i0 j => nexp (nsub (get logpdf i0 j) (nth i0 t NaN))))) in Hi.
    rewrite nrows_mk_matrix in Hi.
    rewrite (nth_row_mk_matrix_map r c logpdf (fun a v => nexp (nsub v (nth a t NaN))) i Hs Hi).
    assert (Hti : nth i t NaN = lse_row (nth i logpdf [])).
    { unfold t. rewrite (nth_indep _ NaN (lse_row [])) by (rewrite length_map; destruct Hs; lia).
      apply map_nth. }
    rewrite Hti. apply exp_sub_lse_sums_to_1.
    rewrite Forall_forall in Hfin.
    assert (Hin : In [nth i t NaN] (reshape_col t)).
    { rewrite <- (nth_reshape_col t i) by lia. apply nth_In.
      change (length (reshape_col t)) with (nrows (reshape_col t)).
      rewrite nrows_reshape_col. lia. }
    specialize (Hfin _ Hin). inversion Hfin as [|? ? Hv _]; subst.
    rewrite <- Hti. exact Hv.
Qed.

End Expectation.

(** ** Sums of finite numbers *)

Section FiniteSums.

Local Open Scope R_scope.

Lemma finite_to_R (v : num) : finite v -> v = Fin (to_R v).
Proof. intros [a ->]. reflexivity. Qed.

Lemma finite_isfinite (v : num) : finite v <-> isfinite v = true.
Proof.
  split.
  - intros [a ->]. reflexivity.
  - destruct v; try discriminate. intros _. exists r. reflexivity.
Qed.

Lemma nsum_map_Fin {A : Type} (F : A -> num) (g : A -> R) (l : list A) :
  (forall a, In a l -> F a = Fin (g a)) ->
  nsum (map F l) = Fin (Rsum (map g l)).
Proof.
  induction l as [|a l IH]; intros H; [reflexivity|].
  change (nsum (map F (a :: l))) with (nadd (F a) (nsum (map F l))).
  rewrite IH by (intros b Hb; apply H; right; exact Hb).
  rewrite (H a (or_introl eq_refl)). reflexivity.
Qed.

Lemma nsum_Fin (v : vector) :
  Forall finite v -> nsum v = Fin (Rsum (map to_R v)).
Proof.
  intros H. rewrite <- (map_id v) at 1. apply nsum_map_Fin.
  intros a Ha. rewrite Forall_forall in H. apply finite_to_R. apply H. exact Ha.
Qed.

Lemma nsum_mk_vector_Fin (n : nat) (f : nat -> num) (g : nat -> R) :
  (forall i, (i < n)%nat -> f i = Fin (g i)) ->
  nsum (mk_vector n f) = Fin (rsum n g).
Proof.
  intros H. unfold mk_vector, rsum. apply nsum_map_Fin.
  intros i Hi. apply in_seq in Hi. apply H. lia.
Qed.

Lemma Rsum_map_ext {A : Type} (f g : A -> R) (l : list A) :
  (forall a, In a l -> f a = g a) -> Rsum (map f l) = Rsum (map g l).
Proof. intros H. f_equal. apply map_ext_in. exact H. Qed.

Lemma rsum_ext (n : nat) (f g : nat -> R) :
  (forall i, (i < n)%nat -> f i = g i) -> rsum n f = rsum n g.
Proof.
  intros H. unfold rsum. apply Rsum_map_ext. intros i Hi.
  apply in_seq in Hi. apply H. lia.
Qed.

Lemma Rsum_map_plus {A : Type} (f g : A -> R) (l : list A) :
  Rsum (map (fun a => f a + g a) l) = Rsum (map f l) + Rsum (map g l).
Proof.
  unfold Rsum. induction l as [|a l IH]; simpl; [lra | rewrite IH; lra].
Qed.

Lemma Rsum_map_scale {A : Type} (c : R) (f : A -> R) (l : list A) :
  Rsum (map (fun a => c * f a) l) = c * Rsum (map f l).
Proof.
  unfold Rsum. induction l as [|a l IH]; simpl; [lra | rewrite IH; lra].
Qed.

Lemma Rsum_map_0 {A : Type} (l : list A) : Rsum (map (fun _ => 0) l) = 0.
Proof.
  unfold Rsum. induction l as [|a l IH]; simpl; [lra | rewrite IH; lra].
Qed.

Lemma Rsum_map_swap {A B : Type} (f : A -> B -> R) (l1 : list A) (l2 : list B) :
  Rsum (map (fun a => Rsum (map (f a) l2)) l1) =
  Rsum (map (fun b => Rsum (map (fun a => f a b) l1)) l2).
Proof.
  induction l1 as [|a l1 IH].
  - simpl. symmetry. apply Rsum_map_0.
  - change (Rsum (map (fun a0 => Rsum (map (f a0) l2)) (a :: l1)))
      with (Rsum (map (f a) l2) + Rsum (map (fun a0 => Rsum (map (f a0) l2)) l1)).
    rewrite IH, <- Rsum_map_plus. apply Rsum_map_ext. intros b _. reflexivity.
Qed.

Lemma rsum_swap (n k : nat) (f : nat -> nat -> R) :
  rsum n (fun i => rsum k (fun j => f i j)) = rsum k (fun j => rsum n (fun i => f i j)).
Proof. unfold rsum. apply Rsum_map_swap. Qed.

Lemma rsum_scale (n : nat) (c : R) (f : nat -> R) :
  rsum n (fun i => c * f i) = c * rsum n f.
Proof. unfold rsum. apply Rsum_map_scale. Qed.

Lemma Rsum_to_R_range (v : vector) :
  Rsum (map to_R v) = rsum (length v) (fun j => to_R (nth j v NaN)).
Proof.
  unfold rsum. rewrite <- (map_nth_range v NaN) at 1. rewrite map_map. reflexivity.
Qed.

End FiniteSums.

(** ** [maximization] *)

Section Maximization.

Local Open Scope R_scope.

Lemma column_reshape (n : nat) (W : matrix) :
  has_shape n 1 W -> W = reshape_col (squeeze W) /\ length (squeeze W) = n.
Proof.
  intros [HW1 HW2]. split.
  - unfold reshape_col, squeeze. rewrite map_map.
    rewrite <- (map_id W) at 1. apply map_ext_in. intros row Hrow.
    rewrite Forall_forall in HW2. specialize (HW2 row Hrow).
    destruct row as [|a [|b row]]; try discriminate. reflexivity.
  - unfold squeeze. rewrite length_map. exact HW1.
Qed.

(** A column (n,1) against an (n,k) array. *)
Lemma broadcast_col_l (f : num -> num -> num) (n k : nat) (v : vector) (A : matrix) :
  has_shape n k A -> (0 < n)%nat -> (0 < k)%nat -> length v = n ->
  broadcast f (reshape_col v) A =
  Ok (mk_matrix n k (fun i j => f (nth i v NaN) (get A i j))).
Proof.
  intros HA Hn Hk Hv.
  assert (Hne : v <> []) by (intros ->; simpl in Hv; lia).
  rewrite (broadcast_eval f (reshape_col v) A n k).
  - f_equal. apply mk_matrix_ext. intros i j Hi Hj.
    rewrite bget_reshape_col, bget_lt; auto; try lia.
    + rewrite (has_shape_nrows n k A HA). exact Hi.
    + rewrite (has_shape_ncols n k A HA Hn). exact Hj.
  - rewrite (has_shape_nrows n k A HA), nrows_reshape_col, Hv. apply bdim_same.
  - rewrite (has_shape_ncols n k A HA Hn), ncols_reshape_col by exact Hne.
    apply bdim_1_l.
Qed.

Lemma transpose_mk_matrix (n k : nat) (F : nat -> nat -> num) :
  (0 < n)%nat ->
  transpose (mk_matrix n k F) = mk_matrix k n (fun j i => F i j).
Proof.
  intros Hn. unfold transpose. rewrite nrows_mk_matrix, ncols_mk_matrix by exact Hn.
  apply mk_matrix_ext. intros j i Hj Hi. apply get_mk_matrix; assumption.
Qed.

(** The sums of the columns of an (n,k) array. *)
Lemma np_sum_0_mk_matrix (n k : nat) (F : nat -> nat -> num) :
  (0 < n)%nat ->
  np_sum (mk_matrix n k F) 0 =
  Ok (mk_vector k (fun j => nsum (mk_vector n (fun i => F i j)))).
Proof.
  intros Hn. cbn [np_sum]. rewrite transpose_mk_matrix by exact Hn.
  rewrite map_mk_matrix. reflexivity.
Qed.

Lemma np_sum_all_column (v : vector) :
  Forall finite v -> np_sum_all (reshape_col v) = Fin (Rsum (map to_R v)).
Proof.
  intros Hv. unfold np_sum_all, reshape_col. rewrite map_map.
  apply nsum_map_Fin. intros a Ha. rewrite Forall_forall in Hv.
  destruct (Hv a Ha) as [r ->]. cbn. unfold nadd. f_equal. lra.
Qed.

(** The first steps of [maximization]: the reweighted responsibilities,
    the masses and the mixing weights. *)
Lemma maximization_Ok_inv (X W R mu : matrix) (Sigma : list matrix) (w : vector) :
  maximization X W R = Ok (mu, Sigma, w) ->
  exists R' nk XR,
    broadcast nmul W R = Ok R' /\
    np_sum R' 0 = Ok nk /\
    w = map (fun x => ndiv x (np_sum_all W)) nk /\
    matmul X R' = Ok XR /\
    broadcast ndiv XR (reshape_col nk) = Ok mu /\
    foldM (maximization_Sigma X mu (mmap nsqrt R') nk (nrows X)) (range (ncols R'))
          (repeat (zeros (nrows X) (nrows X)) (ncols R')) = Ok Sigma.
Proof.
  unfold maximization. intros H.
  inv_bind H as R' HR. inv_bind H as nk Hnk. inv_bind H as XR HXR.
  inv_bind H as mu' Hmu. inv_bind H as S' HS. inversion H; subst.
  exists R', nk, XR. auto 10.
Qed.

(** C7: the mixing weights are the masses nk[j] = sum_i (W (.) R)[i,j]
    over sum(W), and they sum to 1 when every row of R does. *)
Theorem maximization_weights_sum_to_1 (s : R) (X W R mu : matrix)
  (Sigma : list matrix) (w : vector) (n k : nat) :
  has_shape n 1 W -> has_shape n k R ->
  Forall (Forall (fun v => exists a, v = Fin a /\ 0 <= a)) W ->
  np_sum_all W = Fin s -> 0 < s ->
  Forall (fun row => Forall finite row /\ nsum row = Fin 1) R ->
  maximization X W R = Ok (mu, Sigma, w) ->
  exists R' nk,
    broadcast nmul W R = Ok R' /\
    np_sum R' 0 = Ok nk /\
    length nk = k /\ length w = k /\
    (forall j, (j < k)%nat -> nth j w NaN = ndiv (nth j nk NaN) (np_sum_all W)) /\
    nsum w = Fin 1.
Proof.
  intros HW HR Hnonneg Hs Hpos Hrows HM.
  destruct (column_reshape n W HW) as [EW Hwl].
  remember (squeeze W) as wv eqn:Ewv.
  assert (Hwfin : Forall finite wv).
  { rewrite Ewv. unfold squeeze. apply Forall_map. rewrite Forall_forall in *.
    intros row Hrow. specialize (Hnonneg row Hrow).
    destruct HW as [_ HW2]. rewrite Forall_forall in HW2. specialize (HW2 row Hrow).
    destruct row as [|a [|b row]]; try discriminate.
    inversion Hnonneg as [|? ? (r & -> & _) _]; subst. exists r. reflexivity. }
  assert (Hsum : Rsum (map to_R wv) = s).
  { rewrite EW, (np_sum_all_column wv Hwfin) in Hs. inversion Hs. reflexivity. }
  assert (Hn : (0 < n)%nat).
  { destruct n; [|lia]. exfalso. destruct wv; [|discriminate].
    simpl in Hsum. lra. }
  assert (Hk : (0 < k)%nat).
  { destruct k; [|lia]. exfalso. destruct R as [|row R]; [destruct HR; simpl in *; lia|].
    inversion Hrows as [|? ? [_ Hrow] _]; subst.
    destruct HR as [_ HR2]. inversion HR2 as [|? ? Hlen _]; subst.
    destruct row; [|discriminate]. cbn in Hrow. inversion Hrow. lra. }
  apply maximization_Ok_inv in HM.
  destruct HM as (R' & nk & XR & HR' & Hnk & -> & _).
  exists R', nk. rewrite EW in HR' at 1.
  rewrite (broadcast_col_l nmul n k wv R HR Hn Hk Hwl) in HR'.
  inversion HR'; subst R'. clear HR'.
  rewrite np_sum_0_mk_matrix in Hnk by exact Hn.
  inversion Hnk; subst nk. clear Hnk.
  split; [rewrite EW at 1; apply broadcast_col_l; assumption|].
  split; [apply np_sum_0_mk_matrix; exact Hn|].
  split; [apply length_mk_vector|].
  split; [rewrite length_map; apply length_mk_vector|].
  split.
  - intros j Hj.
    rewrite (nth_indep _ NaN (ndiv NaN (np_sum_all W)))
      by (rewrite length_map, length_mk_vector; exact Hj).
    apply (map_nth (fun x => ndiv x (np_sum_all W))).
  - set (rr := fun i j => to_R (get R i j)).
    assert (HRfin : forall i j, (i < n)%nat -> (j < k)%nat -> get R i j = Fin (rr i j)).
    { intros i j Hi Hj. apply finite_to_R. rewrite Forall_forall in Hrows.
      assert (Hin : In (nth i R []) R) by (apply nth_In; destruct HR; lia).
      destruct (Hrows _ Hin) as [Hf _]. rewrite Forall_forall in Hf.
      apply Hf. unfold get. apply nth_In. rewrite (has_shape_nth n k R i HR Hi). exact Hj. }
    assert (Hrow1 : forall i, (i < n)%nat -> rsum k (fun j => rr i j) = 1).
    { intros i Hi. rewrite Forall_forall in Hrows.
      assert (Hin : In (nth i R []) R) by (apply nth_In; destruct HR; lia).
      destruct (Hrows _ Hin) as [Hf H1]. rewrite (nsum_Fin _ Hf) in H1.
      injection H1 as H2. rewrite Rsum_to_R_range in H2.
      rewrite (has_shape_nth n k R i HR Hi) in H2. exact H2. }
    assert (Hw : forall i, (i < n)%nat -> nth i wv NaN = Fin (to_R (nth i wv NaN))).
    { intros i Hi. apply finite_to_R. rewrite Forall_forall in Hwfin.
      apply Hwfin. apply nth_In. lia. }
    rewrite Hs. unfold mk_vector at 1. rewrite map_map.
    rewrite (nsum_map_Fin _ (fun j => rsum n (fun i => to_R (nth i wv NaN) * rr i j) / s)).
    + f_equal. fold (rsum k (fun j => rsum n (fun i => to_R (nth i wv NaN) * rr i j) / s)).
      unfold Rdiv.
      rewrite (rsum_ext k _ (fun j => / s * rsum n (fun i => to_R (nth i wv NaN) * rr i j)))
        by (intros; lra).
      rewrite rsum_scale, <- rsum_swap.
      rewrite (rsum_ext n _ (fun i => to_R (nth i wv NaN))).
      * rewrite <- Hwl, <- Rsum_to_R_range, Hsum. field. lra.
      * intros i Hi. rewrite rsum_scale.
        replace (rsum k (rr i)) with 1 by (symmetry; apply (Hrow1 i Hi)). lra.
    + intros j Hj. apply in_seq in Hj.
      rewrite (nsum_mk_vector_Fin n _ (fun i => to_R (nth i wv NaN) * rr i j)).
      * apply ndiv_Fin. lra.
      * intros i Hi. rewrite (Hw i Hi), HRfin by (try exact Hi; lia). reflexivity.
Qed.

End Maximization.

(** ** Rescaling the weights *)

Section Scaling.

Local Open Scope R_scope.

Lemma get_mmap (g : num -> num) (A : matrix) (i j : nat) :
  g NaN = NaN -> get (mmap g A) i j = g (get A i j).
Proof.
  intros Hg. unfold get, mmap.
  change (@nil num) with (map g []) at 1. rewrite map_nth.
  rewrite <- Hg at 1. apply map_nth.
Qed.

Lemma bget_mmap (g : num -> num) (A : matrix) (i j : nat) :
  g NaN = NaN -> bget (mmap g A) i j = g (bget A i j).
Proof.
  intros Hg. unfold bget. rewrite nrows_mmap, ncols_mmap. apply get_mmap. exact Hg.
Qed.

Lemma transpose_mmap (g : num -> num) (A : matrix) :
  g NaN = NaN -> transpose (mmap g A) = mmap g (transpose A).
Proof.
  intros Hg. unfold transpose. rewrite nrows_mmap, ncols_mmap, mmap_mk_matrix.
  apply mk_matrix_ext. intros i j _ _. apply get_mmap. exact Hg.
Qed.

Lemma reshape_col_map (g : num -> num) (v : vector) :
  reshape_col (map g v) = mmap g (reshape_col v).
Proof. unfold reshape_col, mmap. rewrite !map_map. reflexivity. Qed.

Lemma reshape_row_map (g : num -> num) (v : vector) :
  reshape_row (map g v) = mmap g (reshape_row v).
Proof. reflexivity. Qed.

Lemma broadcast_mmap_l (f f' : num -> num -> num) (g h : num -> num) (A B : matrix) :
  g NaN = NaN -> (forall a b, f (g a) b = h (f' a b)) ->
  broadcast f (mmap g A) B = (C <- broadcast f' A B ;; Ok (mmap h C)).
Proof.
  intros Hg Hf. unfold broadcast. rewrite nrows_mmap, ncols_mmap.
  destruct (bdim (nrows A) (nrows B)) as [r|e]; [|reflexivity]. cbn [bind].
  destruct (bdim (ncols A) (ncols B)) as [c|e]; [|reflexivity]. cbn [bind].
  rewrite mmap_mk_matrix. f_equal. apply mk_matrix_ext. intros i j _ _.
  rewrite bget_mmap by exact Hg. apply Hf.
Qed.

Lemma broadcast_mmap_r (f f' : num -> num -> num) (g h : num -> num) (A B : matrix) :
  g NaN = NaN -> (forall a b, f a (g b) = h (f' a b)) ->
  broadcast f A (mmap g B) = (C <- broadcast f' A B ;; Ok (mmap h C)).
Proof.
  intros Hg Hf. unfold broadcast. rewrite nrows_mmap, ncols_mmap.
  destruct (bdim (nrows A) (nrows B)) as [r|e]; [|reflexivity]. cbn [bind].
  destruct (bdim (ncols A) (ncols B)) as [c|e]; [|reflexivity]. cbn [bind].
  rewrite mmap_mk_matrix. f_equal. apply mk_matrix_ext. intros i j _ _.
  rewrite bget_mmap by exact Hg. apply Hf.
Qed.

Lemma broadcast_mmap_both (f : num -> num -> num) (g g' : num -> num) (A B : matrix) :
  g NaN = NaN -> g' NaN = NaN -> (forall a b, f (g a) (g' b) = f a b) ->
  broadcast f (mmap g A) (mmap g' B) = broadcast f A B.
Proof.
  intros Hg Hg' Hf. unfold broadcast. rewrite !nrows_mmap, !ncols_mmap.
  destruct (bdim (nrows A) (nrows B)) as [r|e]; [|reflexivity]. cbn [bind].
  destruct (bdim (ncols A) (ncols B)) as [c|e]; [|reflexivity]. cbn [bind].
  f_equal. apply mk_matrix_ext. intros i j _ _.
  rewrite !bget_mmap by assumption. apply Hf.
Qed.

Lemma nsum_scale (c : R) (v : vector) :
  0 < c -> nsum (map (nmul (Fin c)) v) = nmul (Fin c) (nsum v).
Proof.
  intros Hc. induction v as [|x v IH].
  - cbn. unfold nmul. f_equal. lra.
  - change (nsum (map (nmul (Fin c)) (x :: v)))
      with (nadd (nmul (Fin c) x) (nsum (map (nmul (Fin c)) v))).
    change (nsum (x :: v)) with (nadd x (nsum v)).
    rewrite IH, nmul_scale_add by exact Hc. reflexivity.
Qed.

Lemma np_sum_all_scale (c : R) (A : matrix) :
  0 < c -> np_sum_all (mmap (nmul (Fin c)) A) = nmul (Fin c) (np_sum_all A).
Proof.
  intros Hc. unfold np_sum_all, mmap. rewrite map_map.
  rewrite <- (nsum_scale c (map nsum A) Hc), map_map. f_equal.
  apply map_ext. intros row. apply nsum_scale. exact Hc.
Qed.

Lemma np_sum_scale (c : R) (A : matrix) (axis : nat) :
  0 < c ->
  np_sum (mmap (nmul (Fin c)) A) axis = (v <- np_sum A axis ;; Ok (map (nmul (Fin c)) v)).
Proof.
  intros Hc. destruct axis as [|[|axis]]; cbn [np_sum bind]; [| |reflexivity].
  - rewrite transpose_mmap by reflexivity. f_equal. unfold mmap. rewrite !map_map.
    apply map_ext. intros row. apply nsum_scale. exact Hc.
  - f_equal. unfold mmap. rewrite !map_map.
    apply map_ext. intros row. apply nsum_scale. exact Hc.
Qed.

Lemma nsum_mk_vector_ext (n : nat) (f g : nat -> num) :
  (forall i, (i < n)%nat -> f i = g i) -> nsum (mk_vector n f) = nsum (mk_vector n g).
Proof. intros H. f_equal. apply mk_vector_ext. exact H. Qed.

Lemma nsum_mk_vector_scale (c : R) (n : nat) (f : nat -> num) :
  0 < c ->
  nsum (mk_vector n (fun i => nmul (Fin c) (f i))) = nmul (Fin c) (nsum (mk_vector n f)).
Proof.
  intros Hc. rewrite <- nsum_scale by exact Hc. unfold mk_vector.
  rewrite map_map. reflexivity.
Qed.

Lemma matmul_scale_r (c : R) (A B : matrix) :
  0 < c ->
  matmul A (mmap (nmul (Fin c)) B) = (C <- matmul A B ;; Ok (mmap (nmul (Fin c)) C)).
Proof.
  intros Hc. unfold matmul. rewrite nrows_mmap, ncols_mmap.
  destruct (ncols A =? nrows B); [|reflexivity]. cbn [bind].
  rewrite mmap_mk_matrix. f_equal. apply mk_matrix_ext. intros i j _ _.
  rewrite <- nsum_mk_vector_scale by exact Hc.
  apply nsum_mk_vector_ext. intros l _.
  rewrite get_mmap by reflexivity. apply nmul_scale_assoc_r. exact Hc.
Qed.

Lemma nmul_scale_twice (s : R) (x : num) :
  0 < s -> nmul (Fin s) (nmul (Fin s) x) = nmul (Fin (s * s)) x.
Proof.
  intros Hs. assert (Hss : 0 < s * s) by nra.
  destruct x as [| | |a]; unfold nmul; cbn [nsign];
    rewrite ?(Rsign_pos s Hs), ?(Rsign_pos (s * s) Hss); cbn;
    rewrite ?(Rsign_pos s Hs); try reflexivity.
  f_equal. lra.
Qed.

Lemma matmul_gram_scale (s : R) (A : matrix) :
  0 < s ->
  matmul (mmap (nmul (Fin s)) A) (transpose (mmap (nmul (Fin s)) A)) =
  (C <- matmul A (transpose A) ;; Ok (mmap (nmul (Fin (s * s))) C)).
Proof.
  intros Hs. rewrite transpose_mmap by reflexivity.
  unfold matmul. rewrite !nrows_mmap, !ncols_mmap.
  destruct (ncols A =? nrows (transpose A)); [|reflexivity]. cbn [bind].
  rewrite mmap_mk_matrix. f_equal. apply mk_matrix_ext. intros i j _ _.
  assert (Hss : 0 < s * s) by nra.
  rewrite <- nsum_mk_vector_scale by exact Hss.
  apply nsum_mk_vector_ext. intros l _.
  rewrite !get_mmap by reflexivity.
  rewrite nmul_scale_assoc, nmul_scale_assoc_r, nmul_scale_twice by exact Hs.
  reflexivity.
Qed.

Lemma getcol_mmap (g : num -> num) (A : matrix) (j : nat) :
  g NaN = NaN -> getcol (mmap g A) j = (v <- getcol A j ;; Ok (map g v)).
Proof.
  intros Hg. unfold getcol. rewrite ncols_mmap.
  destruct (j <? ncols A); [|reflexivity]. cbn [bind]. f_equal.
  unfold mmap. rewrite !map_map. apply map_ext. intros row.
  rewrite <- Hg at 1. apply map_nth.
Qed.

Lemma getitem_map {A B : Type} (g : A -> B) (v : list A) (i : nat) :
  getitem (map g v) i = (x <- getitem v i ;; Ok (g x)).
Proof.
  unfold getitem. rewrite nth_error_map. destruct (nth_error v i); reflexivity.
Qed.

Lemma mmap_mmap (g h : num -> num) (A : matrix) :
  mmap g (mmap h A) = mmap (fun x => g (h x)) A.
Proof.
  unfold mmap. rewrite map_map. apply map_ext. intros row. apply map_map.
Qed.

Lemma mmap_ext (g h : num -> num) (A : matrix) :
  (forall x, g x = h x) -> mmap g A = mmap h A.
Proof.
  intros H. unfold mmap. apply map_ext. intros row. apply map_ext. exact H.
Qed.

End Scaling.

Section Rescaling.

Local Open Scope R_scope.

Lemma maximization_Sigma_scale (c : R) (X mu R' : matrix) (nk : vector) (d i : nat)
  (S : list matrix) :
  0 < c ->
  maximization_Sigma X mu (mmap nsqrt (mmap (nmul (Fin c)) R'))
    (map (nmul (Fin c)) nk) d i S =
  maximization_Sigma X mu (mmap nsqrt R') nk d i S.
Proof.
  intros Hc. assert (Hs : 0 < sqrt c) by (apply sqrt_lt_R0; exact Hc).
  unfold maximization_Sigma.
  destruct (getcol mu i) as [mui|e]; [|reflexivity]. cbn [bind].
  destruct (broadcast nsub X (reshape_col mui)) as [Xo|e]; [|reflexivity]. cbn [bind].
  rewrite mmap_mmap, (mmap_ext _ (fun x => nmul (Fin (sqrt c)) (nsqrt x)))
    by (intros x; apply nsqrt_scale; exact Hc).
  rewrite <- (mmap_mmap (nmul (Fin (sqrt c))) nsqrt).
  rewrite getcol_mmap by reflexivity.
  destruct (getcol (mmap nsqrt R') i) as [sqi|e]; [|reflexivity]. cbn [bind].
  rewrite reshape_row_map.
  rewrite (broadcast_mmap_r nmul nmul (nmul (Fin (sqrt c))) (nmul (Fin (sqrt c))))
    by (try reflexivity; intros a b; apply nmul_scale_assoc_r; exact Hs).
  destruct (broadcast nmul Xo (reshape_row sqi)) as [Xo2|e]; [|reflexivity].
  cbn [bind]. rewrite matmul_gram_scale by exact Hs.
  rewrite sqrt_sqrt by lra.
  destruct (matmul Xo2 (transpose Xo2)) as [XX|e]; [|reflexivity]. cbn [bind].
  rewrite getitem_map.
  destruct (getitem nk i) as [nki|e]; [|reflexivity]. cbn [bind].
  rewrite mmap_mmap, (mmap_ext _ (fun x => ndiv x nki))
    by (intros x; apply ndiv_scale; exact Hc).
  reflexivity.
Qed.

Lemma maximization_scale (c : R) (X W R : matrix) :
  0 < c -> maximization X (scale_weights c W) R = maximization X W R.
Proof.
  intros Hc. unfold maximization, scale_weights.
  rewrite (broadcast_mmap_l nmul nmul (nmul (Fin c)) (nmul (Fin c)))
    by (try reflexivity; intros a b; apply nmul_scale_assoc; exact Hc).
  destruct (broadcast nmul W R) as [R'|e]; [|reflexivity]. cbn [bind].
  rewrite np_sum_scale by exact Hc.
  destruct (np_sum R' 0) as [nk|e]; [|reflexivity]. cbn [bind].
  rewrite matmul_scale_r by exact Hc.
  destruct (matmul X R') as [XR|e]; [|reflexivity]. cbn [bind].
  rewrite reshape_col_map.
  rewrite (broadcast_mmap_both ndiv (nmul (Fin c)) (nmul (Fin c)))
    by (try reflexivity; intros a b; apply ndiv_scale; exact Hc).
  destruct (broadcast ndiv XR (reshape_col nk)) as [mu|e]; [|reflexivity].
  cbn [bind]. rewrite ncols_mmap.
  rewrite (foldM_ext _ (maximization_Sigma X mu (mmap nsqrt R') nk (nrows X)))
    by (intros i S _; apply maximization_Sigma_scale; exact Hc).
  destruct (foldM _ _ _) as [Sigma|e]; [|reflexivity]. cbn [bind].
  rewrite np_sum_all_scale, map_map by exact Hc.
  f_equal. f_equal. apply map_ext. intros x. apply ndiv_scale. exact Hc.
Qed.

Lemma expectation_scale {lib : Library} (c : R) (X W mu : matrix) (si : list matrix)
  (pi : vector) :
  0 < c -> expectation X (scale_weights c W) mu si pi = expectation X W mu si pi.
Proof.
  intros Hc. unfold expectation, scale_weights.
  destruct (expectation_logpdf X mu si pi) as [L|e]; [|reflexivity]. cbn [bind].
  destruct (logsumexp L 1) as [T|e]; [|reflexivity]. cbn [bind].
  rewrite (broadcast_mmap_l nmul nmul (nmul (Fin c)) (nmul (Fin c)))
    by (try reflexivity; intros a b; apply nmul_scale_assoc; exact Hc).
  destruct (broadcast nmul W T) as [WT|e]; [|reflexivity]. cbn [bind].
  rewrite !np_sum_all_scale, ndiv_scale by exact Hc. reflexivity.
Qed.

(** C10: for c > 0, [maximization] and [expectation] return on c*W what
    they return on W (the same parameters, the same responsibilities and
    log-likelihood, or the same exception). *)
Theorem weights_rescaling {lib : Library} (c : R) (X W R mu : matrix)
  (si : list matrix) (pi : vector) :
  0 < c ->
  maximization X (scale_weights c W) R = maximization X W R /\
  expectation X (scale_weights c W) mu si pi = expectation X W mu si pi.
Proof.
  intros Hc. split; [apply maximization_scale | apply expectation_scale]; exact Hc.
Qed.

End Rescaling.

(** ** Evaluating the routines on given numbers *)

Section EvaluationFacts.

Local Open Scope R_scope.

Lemma nltb_Fin_true (a b : R) : a < b -> nltb (Fin a) (Fin b) = true.
Proof. intros H. apply nltb_Fin. exact H. Qed.

Lemma nltb_Fin_not (a b : R) : b <= a -> nltb (Fin a) (Fin b) = false.
Proof. intros H. apply nltb_Fin_false. exact H. Qed.

Lemma is_zero_Fin (r : R) : r <> 0 -> is_zero (Fin r) = false.
Proof.
  intros H. unfold is_zero. destruct (Req_dec_T r 0); [contradiction | reflexivity].
Qed.

Lemma ndiv_0_0 : ndiv (Fin 0) (Fin 0) = NaN.
Proof. rewrite ndiv_Fin_0, Rsign_zero. reflexivity. Qed.

Lemma nadd_NaN_l (x : num) : nadd NaN x = NaN.
Proof. reflexivity. Qed.

Lemma nadd_NaN_r (x : num) : nadd x NaN = NaN.
Proof. destruct x; reflexivity. Qed.

Lemma nsub_NaN_l (x : num) : nsub NaN x = NaN.
Proof. reflexivity. Qed.

Lemma nsub_NaN_r (x : num) : nsub x NaN = NaN.
Proof. destruct x; reflexivity. Qed.

Lemma nmul_NaN_l (x : num) : nmul NaN x = NaN.
Proof. reflexivity. Qed.

Lemma nmul_NaN_r (x : num) : nmul x NaN = NaN.
Proof. destruct x; reflexivity. Qed.

Lemma ndiv_NaN_l (x : num) : ndiv NaN x = NaN.
Proof. reflexivity. Qed.

Lemma ndiv_NaN_r (x : num) : ndiv x NaN = NaN.
Proof. destruct x; reflexivity. Qed.

Lemma Rminus_same (r : R) : r - r = 0.
Proof. lra. Qed.

End EvaluationFacts.

#[export] Hint Rewrite ndiv_0_0 nadd_NaN_l nadd_NaN_r nsub_NaN_l nsub_NaN_r
  nmul_NaN_l nmul_NaN_r ndiv_NaN_l ndiv_NaN_r : num_eval.
#[export] Hint Rewrite Rminus_0_r Rplus_0_r Rplus_0_l Rmult_1_l Rmult_1_r Rmult_0_l
  Rmult_0_r Rminus_same sqrt_1 sqrt_0 ln_1 exp_0 Ropp_0 : num_eval.

(** Side conditions on given reals. *)
Ltac num_side :=
  solve [ lra
        | apply Rgt_not_eq; lra
        | apply Rlt_not_eq; lra
        | apply exp_pos
        | apply Rgt_not_eq, exp_pos ].

(** Evaluation of the array operations, the arithmetic left in place. *)
Ltac arr_eval :=
  cbv - [nadd nsub nmul ndiv nsqrt nexp nlog nmax nltb nabs nneg is_zero
         Rplus Rminus Rmult Rdiv Ropp Rinv IZR INR sqrt exp ln PI Rabs Rmax
         Rlt Rle Rgt Rge].

(** One round of evaluation of a call on given arrays. *)
Ltac num_eval :=
  repeat (progress (arr_eval; autorewrite with num_eval)
          || (rewrite ndiv_Fin by num_side)
          || (rewrite nsqrt_Fin by num_side)
          || (rewrite nlog_Fin by num_side)
          || (rewrite nltb_Fin_true by num_side)
          || (rewrite nltb_Fin_not by num_side)
          || (rewrite is_zero_Fin by num_side)).

(** Equality of arrays of given reals, entry by entry. *)
Ltac num_eq :=
  lazymatch goal with
  | |- Ok _ = Ok _ => apply f_equal; num_eq
  | |- (_, _) = (_, _) => apply f_equal2; num_eq
  | |- _ :: _ = _ :: _ => apply f_equal2; num_eq
  | |- Fin _ = Fin _ => apply f_equal; first [lra | field; lra]
  | |- _ => reflexivity
  end.

(** ** The means of [maximization] *)

Section MeansExample.

Local Open Scope R_scope.

Lemma maximization_X22 :
  exists Sigma w,
    maximization X22 W2 R22 =
    Ok ([[Fin (4 / 3); Fin (2 / 3)]; [Fin 10; Fin 4]], Sigma, w).
Proof.
  eexists _, _.
  unfold maximization, X22, W2, R22. num_eval.
  unfold maximization_Sigma. num_eval.
  apply f_equal. apply f_equal2; [apply f_equal2; [num_eq | reflexivity] | reflexivity].
Qed.

(** C1: [maximization] divides the d x k array of weighted sums X (W(.)R)
    by the masses reshaped to a (k,1) column, so row [a] is divided by
    [nk[a]] where column [j] should be divided by [nk[j]].  For d = k = 2
    the masses are 3/2 and 1/2 and the weighted sums [[2,1],[5,2]]: the
    centroid of component 1 is (2,4) and that of component 0 is
    (4/3,10/3), but the means returned are (2/3,4) and (4/3,10).  For
    k > 1 and d different from k the call raises [ValueError]. *)
Theorem maximization_means_wrong :
  (exists mu Sigma w,
     maximization X22 W2 R22 = Ok (mu, Sigma, w) /\
     np_sum R22 0 = Ok [Fin (3 / 2); Fin (1 / 2)] /\
     matmul X22 R22 = Ok [[Fin 2; Fin 1]; [Fin 5; Fin 2]] /\
     mu = [[Fin (4 / 3); Fin (2 / 3)]; [Fin 10; Fin 4]] /\
     get mu 0 1 <> ndiv (Fin 1) (Fin (1 / 2)) /\
     get mu 1 0 <> ndiv (Fin 5) (Fin (3 / 2))) /\
  maximization [[Fin 1]; [Fin 2]] [[Fin 1]]
    [[Fin (1 / 2); Fin (1 / 4); Fin (1 / 4)]] = Err ValueError /\
  maximization [[Fin 1]] [[Fin 1]] [[Fin (1 / 2); Fin (1 / 2)]] = Err ValueError.
Proof.
  split; [|split].
  - destruct maximization_X22 as (Sigma & w & HM).
    eexists _, Sigma, w. split; [exact HM|]. split; [|split; [|split; [|split]]].
    + unfold R22. num_eval. num_eq.
    + unfold X22, R22. num_eval. num_eq.
    + reflexivity.
    + num_eval. intros H. inversion H. lra.
    + num_eval. intros H. inversion H. lra.
  - unfold maximization. num_eval. reflexivity.
  - unfold maximization. num_eval. unfold maximization_Sigma. num_eval. reflexivity.
Qed.

End MeansExample.

(** ** Positive-definite covariances *)

Section PosDef.

Local Open Scope R_scope.

Lemma nsub_Fin_PInf (a : R) : nsub (Fin a) PInf = NInf.
Proof. reflexivity. Qed.

Lemma nsub_Fin_NInf (a : R) : nsub (Fin a) NInf = PInf.
Proof. reflexivity. Qed.

Lemma nmul_NInf_pos (b : R) : 0 < b -> nmul NInf (Fin b) = NInf.
Proof. intros H. unfold nmul. cbn. rewrite Rsign_pos by exact H. reflexivity. Qed.

Lemma nmul_PInf_pos (b : R) : 0 < b -> nmul PInf (Fin b) = PInf.
Proof. intros H. unfold nmul. cbn. rewrite Rsign_pos by exact H. reflexivity. Qed.

Lemma nmul_neg_NInf (a : R) : a < 0 -> nmul (Fin a) NInf = PInf.
Proof. intros H. unfold nmul. cbn. rewrite Rsign_neg by exact H. reflexivity. Qed.

Lemma nmul_pos_NInf' (a : R) : 0 < a -> nmul (Fin a) NInf = NInf.
Proof. apply nmul_pos_NInf. Qed.

Lemma nmul_NInf_neg (b : R) : b < 0 -> nmul NInf (Fin b) = PInf.
Proof. intros H. unfold nmul. cbn. rewrite Rsign_neg by exact H. reflexivity. Qed.

Lemma nmul_NInf_NInf : nmul NInf NInf = PInf.
Proof. reflexivity. Qed.

Lemma nadd_PInf_NInf : nadd PInf NInf = NaN.
Proof. reflexivity. Qed.

Lemma nadd_NInf_PInf : nadd NInf PInf = NaN.
Proof. reflexivity. Qed.

Lemma nadd_PInf_PInf : nadd PInf PInf = PInf.
Proof. reflexivity. Qed.

Lemma nadd_PInf_Fin (a : R) : nadd PInf (Fin a) = PInf.
Proof. reflexivity. Qed.

Lemma nadd_Fin_PInf (a : R) : nadd (Fin a) PInf = PInf.
Proof. reflexivity. Qed.

Lemma ndiv_pos_0 (a : R) : 0 < a -> ndiv (Fin a) (Fin 0) = PInf.
Proof. intros H. rewrite ndiv_Fin_0, Rsign_pos by exact H. reflexivity. Qed.

Lemma ndiv_PInf_pos (b : R) : 0 < b -> ndiv PInf (Fin b) = PInf.
Proof.
  intros H. unfold ndiv. destruct (Req_dec_T b 0); [lra|].
  cbn. rewrite Rsign_pos by exact H. reflexivity.
Qed.

End PosDef.

#[export] Hint Rewrite nsub_Fin_PInf nsub_Fin_NInf nmul_NInf_NInf nadd_PInf_NInf
  nadd_NInf_PInf nadd_PInf_PInf nadd_PInf_Fin nadd_Fin_PInf : num_eval.

Ltac num_eval_inf :=
  repeat (progress num_eval
          || (rewrite ndiv_pos_0 by num_side)
          || (rewrite ndiv_PInf_pos by num_side)
          || (rewrite nmul_NInf_pos by num_side)
          || (rewrite nmul_PInf_pos by num_side)
          || (rewrite nmul_neg_NInf by num_side)
          || (rewrite nmul_pos_NInf by num_side)
          || (rewrite nmul_NInf_neg by num_side)).

Section CovarianceExample.

Local Open Scope R_scope.

(** C8: the division of row [a] of the weighted sums by [nk[a]] puts the
    mass of the other components in the mean of component [j]: with
    nk = (2, 0) the mean of component 0, whose mass is 2, is (3/2, 7/0) =
    (3/2, +inf) where the centroid is (3/2, 7/2), and its covariance has
    the entries NaN and +inf: it is not positive-definite. *)
Theorem maximization_covariance_wrong :
  exists mu Sigma w S0,
    maximization X22 W2 R22_empty = Ok (mu, Sigma, w) /\
    np_sum R22_empty 0 = Ok [Fin 2; Fin 0] /\
    getcol mu 0 = Ok [Fin (3 / 2); PInf] /\
    getitem Sigma 0 = Ok S0 /\
    get S0 0 1 = NaN /\ get S0 1 1 = PInf /\
    ~ pos_def 2 S0.
Proof.
  eexists _, _, _, _. split; [|split; [|split; [|split; [|split; [|split]]]]].
  - unfold maximization, X22, W2, R22_empty. num_eval_inf.
    unfold maximization_Sigma. num_eval_inf. reflexivity.
  - unfold R22_empty. num_eval. num_eq.
  - num_eval. num_eq.
  - reflexivity.
  - reflexivity.
  - reflexivity.
  - intros [(_ & Hfin & _) _]. destruct (Hfin 0%nat 1%nat) as [a Ha]; [lia | lia |].
    discriminate.
Qed.

End CovarianceExample.

(** ** The number of components during a fit *)

Lemma foldM_invariant {A S : Type} (P : S -> Prop) (body : A -> S -> result S)
  (l : list A) (s s' : S) :
  (forall a s1 s2, In a l -> P s1 -> body a s1 = Ok s2 -> P s2) ->
  P s -> foldM body l s = Ok s' -> P s'.
Proof.
  revert s; induction l as [|a l IH]; intros s Hstep Hs H; simpl in H.
  - inversion H; subst. exact Hs.
  - inv_bind H as s1 H1. apply (IH s1); auto.
    + intros b t1 t2 Hb. apply Hstep. right. exact Hb.
    + apply (Hstep a s s1); auto. left. reflexivity.
Qed.

Lemma setslice_length (d : nat) (S S' : list matrix) (i : nat) (M : matrix) :
  setslice d S i M = Ok S' -> length S' = length S.
Proof.
  unfold setslice. destruct (negb (i <? length S)); [discriminate|].
  destruct (negb _); [discriminate|]. intros H; inversion H.
  apply update_length.
Qed.

Lemma maximization_Sigma_length (X mu sqrtR : matrix) (nk : vector) (d i : nat)
  (S S' : list matrix) :
  maximization_Sigma X mu sqrtR nk d i S = Ok S' -> length S' = length S.
Proof.
  unfold maximization_Sigma. intros H.
  inv_bind H as mui H1. inv_bind H as Xo H2. inv_bind H as sqi H3.
  inv_bind H as Xo2 H4. inv_bind H as XX H5. inv_bind H as nki H6.
  inv_bind H as S1 H7. inv_bind H as Si H8. inv_bind H as Si' H9.
  apply setslice_length in H7, H. congruence.
Qed.

(** The shapes of what [maximization] returns for k components. *)
Lemma maximization_shapes (X W R mu : matrix) (Sigma : list matrix) (w : vector)
  (n k : nat) :
  has_shape n 1 W -> has_shape n k R -> 0 < n -> 0 < k -> 0 < nrows X ->
  maximization X W R = Ok (mu, Sigma, w) ->
  ncols mu = k /\ 0 < nrows mu /\ length Sigma = k /\ length w = k.
Proof.
  intros HW HR Hn Hk Hd HM.
  destruct (column_reshape n W HW) as [EW Hwl].
  apply maximization_Ok_inv in HM.
  destruct HM as (R' & nk & XR & HR' & Hnk & -> & HXR & Hmu & HS).
  rewrite EW in HR'.
  rewrite (broadcast_col_l nmul n k _ R HR Hn Hk Hwl) in HR'.
  inversion HR'; subst R'. clear HR'.
  rewrite np_sum_0_mk_matrix in Hnk by exact Hn. inversion Hnk; subst nk. clear Hnk.
  rewrite ncols_mk_matrix in HS by exact Hn.
  unfold matmul in HXR. destruct (ncols X =? _); [|discriminate].
  inversion HXR; subst XR. clear HXR.
  rewrite ncols_mk_matrix in Hmu by exact Hn.
  apply broadcast_Ok_inv in Hmu. destruct Hmu as (r & c & Hr & Hc & ->).
  rewrite nrows_mk_matrix, nrows_reshape_col, length_mk_vector in Hr.
  rewrite ncols_mk_matrix, ncols_reshape_col in Hc;
    [| destruct k; [lia | discriminate] | exact Hd].
  rewrite bdim_1_r in Hc. inversion Hc; subst c.
  assert (Hr0 : 0 < r) by (apply bdim_Ok in Hr; lia).
  rewrite nrows_mk_matrix, ncols_mk_matrix by exact Hr0.
  split; [reflexivity|]. split; [exact Hr0|]. split.
  - apply (foldM_invariant (fun S => length S = k)) in HS; auto.
    + intros a s1 s2 _ Hs1 Hb. apply maximization_Sigma_length in Hb. congruence.
    + apply repeat_length.
  - rewrite length_map. apply length_mk_vector.
Qed.

Lemma setcol_has_shape (A A' : matrix) (j : nat) (y : vector) (n k : nat) :
  has_shape n k A -> 0 < n -> setcol A j y = Ok A' -> has_shape n k A'.
Proof.
  intros HA Hn. unfold setcol.
  destruct (negb (j <? ncols A)); [discriminate|].
  destruct (negb _); [discriminate|]. intros H; inversion H.
  rewrite (has_shape_nrows n k A HA), (has_shape_ncols n k A HA Hn).
  apply has_shape_mk_matrix.
Qed.

Section ComponentCount.

Context {lib : Library}.

(** The shape of the responsibilities [expectation] returns for k
    components. *)
Lemma expectation_shapes (X W mu : matrix) (si : list matrix) (pi : vector)
  (R : matrix) (l : num) (k : nat) :
  0 < ncols X -> 0 < k -> ncols mu = k -> length pi = k ->
  expectation X W mu si pi = Ok (R, l) ->
  has_shape (ncols X) k R.
Proof.
  intros Hn Hk Hmu Hpi HE. unfold expectation in HE.
  inv_bind HE as logpdf HL. inv_bind HE as T HT. inv_bind HE as WT HWT.
  inv_bind HE as logR HlogR. inversion HE; subst R l. clear HE.
  unfold expectation_logpdf in HL. inv_bind HL as L0 HL0.
  rewrite Hmu in HL0.
  assert (HL0s : has_shape (ncols X) k L0).
  { apply (foldM_invariant (has_shape (ncols X) k)) in HL0; auto.
    - intros i s1 s2 _ Hs1 Hb. inv_bind Hb as mui H1. inv_bind Hb as sii H2.
      inv_bind Hb as y H3. apply (setcol_has_shape s1 s2 i y); auto.
    - apply has_shape_mk_matrix. }
  apply broadcast_Ok_inv in HL. destruct HL as (r & c & Hr & Hc & ->).
  rewrite (has_shape_nrows _ _ _ HL0s) in Hr.
  rewrite (has_shape_ncols _ _ _ HL0s Hn) in Hc.
  cbn [nrows reshape_row length] in Hr. rewrite bdim_1_r in Hr.
  inversion Hr; subst r. clear Hr.
  cbn [ncols reshape_row] in Hc. rewrite length_map, Hpi, bdim_same in Hc.
  inversion Hc; subst c. clear Hc.
  rewrite (logsumexp_rows (ncols X) k) in HT
    by (try apply has_shape_mk_matrix; exact Hk).
  inversion HT; subst T. clear HT.
  rewrite (broadcast_col nsub (ncols X) k) in HlogR;
    [| apply has_shape_mk_matrix | exact Hn | exact Hk
     | rewrite length_map; apply nrows_mk_matrix ].
  inversion HlogR; subst logR. rewrite mmap_mk_matrix. apply has_shape_mk_matrix.
Qed.

(** Every pass of a fit has the components of the initial
    responsibilities. *)
Lemma em_chain_components (X W R0 : matrix) (k : nat) (tr : trace) :
  has_shape (ncols X) 1 W -> 0 < ncols X -> 0 < nrows X -> 0 < k ->
  has_shape (ncols X) k R0 ->
  em_chain X W R0 tr ->
  Forall (fun x => let '(mu, si, pi, R, _) := x in
                   ncols mu = k /\ length si = k /\ length pi = k /\ ncols R = k) tr.
Proof.
  intros HW Hn Hd Hk. revert R0.
  induction tr as [|[[[[mu si] pi] R] l] tr IH]; intros R0 HR0 Hc; [constructor|].
  destruct Hc as (HM & HE & Hc).
  destruct (maximization_shapes X W R0 mu si pi (ncols X) k HW HR0 Hn Hk Hd HM)
    as (Hmu & _ & Hsi & Hpi).
  pose proof (expectation_shapes X W mu si pi R l k Hn Hk Hmu Hpi HE) as HR.
  constructor.
  - repeat split; auto. apply (has_shape_ncols (ncols X) k); assumption.
  - apply (IH R); assumption.
Qed.

End ComponentCount.

(** ** [initialization] *)

Section Initialization.

Context {lib : Library}.

(** C3 (as the code has it): given one label below [nGM] per sample,
    [initialization] returns the one-hot matrix of the labels with one
    column for every label up to the largest one used: n rows and
    max(idx) + 1 columns.  The column of an unused label below the largest
    is all zeros; the matrix has [nGM] columns exactly when the label
    [nGM - 1] is used.  Every pass of the fit then has max(idx) + 1
    components. *)
Theorem initialization_one_hot (X : matrix) (nGM : nat) (cents : matrix)
  (idx : list nat) :
  kmeans2 (transpose X) nGM 10 = Ok (cents, idx) ->
  length idx = ncols X ->
  0 < ncols X ->
  Forall (fun l => l < nGM) idx ->
  exists R,
    initialization X nGM = Ok R /\
    has_shape (ncols X) (max_label idx + 1) R /\
    (forall i j, i < ncols X -> j < max_label idx + 1 ->
       get R i j = if j =? nth i idx 0 then Fin 1 else Fin 0) /\
    (forall j, j < max_label idx + 1 -> ~ In j idx ->
       forall i, i < ncols X -> get R i j = Fin 0) /\
    max_label idx + 1 <= nGM /\
    (max_label idx + 1 = nGM <-> In (nGM - 1) idx) /\
    (forall W tr,
       has_shape (ncols X) 1 W -> 0 < nrows X -> em_chain X W R tr ->
       Forall (fun x => let '(mu, si, pi, R', _) := x in
                        ncols mu = max_label idx + 1 /\
                        length si = max_label idx + 1 /\
                        length pi = max_label idx + 1 /\
                        ncols R' = max_label idx + 1) tr).
Proof.
  intros Hk Hlen Hn Hlt.
  assert (Hne : idx <> []) by (intros ->; simpl in Hlen; lia).
  exists (one_hot idx (max_label idx + 1)).
  assert (Hshape : has_shape (ncols X) (max_label idx + 1)
                     (one_hot idx (max_label idx + 1))).
  { rewrite <- Hlen. apply has_shape_mk_matrix. }
  pose proof (max_label_In idx Hne) as Hmax.
  assert (Hmlt : max_label idx < nGM)
    by (rewrite Forall_forall in Hlt; apply Hlt; exact Hmax).
  split; [|split; [|split; [|split; [|split; [|split]]]]].
  - unfold initialization. rewrite Hk. cbn [bind]. apply dummyvar_spec. exact Hne.
  - exact Hshape.
  - intros i j Hi Hj. unfold one_hot. apply get_mk_matrix; [lia | exact Hj].
  - intros j Hj Hnot i Hi. unfold one_hot. rewrite get_mk_matrix by lia.
    destruct (j =? nth i idx 0) eqn:E; [|reflexivity].
    apply Nat.eqb_eq in E. exfalso. apply Hnot. rewrite E. apply nth_In. lia.
  - lia.
  - split.
    + intros E. replace (nGM - 1) with (max_label idx) by lia. exact Hmax.
    + intros Hin. pose proof (max_label_ge idx) as Hge.
      rewrite Forall_forall in Hge. specialize (Hge _ Hin). lia.
  - intros W tr HW Hd Hc.
    apply (em_chain_components X W (one_hot idx (max_label idx + 1))); auto. lia.
Qed.

End Initialization.

(** C3 (as stated) fails when the last cluster is empty: with two clusters
    asked for and both samples put in cluster 0, the responsibilities have
    one column, not two. *)
Lemma initialization_drops_last_cluster :
  kmeans2 (Library := library_with_labels [0; 0]) (transpose [[Fin 0; Fin 1]]) 2 10
    = Ok (zeros 2 1, [0; 0]) /\
  Forall (fun l => l < 2) [0; 0] /\
  initialization (lib := library_with_labels [0; 0]) [[Fin 0; Fin 1]] 2
    = Ok [[Fin 1]; [Fin 1]] /\
  ncols [[Fin 1]; [Fin 1]] <> 2.
Proof.
  split; [reflexivity|]. split; [repeat constructor|].
  split; [reflexivity|]. cbn. lia.
Qed.

Lemma initialization_one_hot_witness :
  kmeans2 (Library := library_with_labels [0; 2; 0])
    (transpose [[Fin 0; Fin 5; Fin 1]]) 3 10 = Ok (zeros 3 1, [0; 2; 0]) /\
  length [0; 2; 0] = ncols [[Fin 0; Fin 5; Fin 1]] /\
  0 < ncols [[Fin 0; Fin 5; Fin 1]] /\
  Forall (fun l => l < 3) [0; 2; 0] /\
  exists R,
    initialization (lib := library_with_labels [0; 2; 0]) [[Fin 0; Fin 5; Fin 1]] 3
      = Ok R /\
    has_shape 3 3 R /\
    (forall i, i < 3 -> get R i 1 = Fin 0).
Proof.
  assert (H1 : kmeans2 (Library := library_with_labels [0; 2; 0])
    (transpose [[Fin 0; Fin 5; Fin 1]]) 3 10 = Ok (zeros 3 1, [0; 2; 0]))
    by reflexivity.
  assert (H2 : length [0; 2; 0] = ncols [[Fin 0; Fin 5; Fin 1]]) by reflexivity.
  assert (H3 : 0 < ncols [[Fin 0; Fin 5; Fin 1]]) by (cbn; lia).
  assert (H4 : Forall (fun l => l < 3) [0; 2; 0]) by (repeat constructor).
  split; [exact H1|]. split; [exact H2|]. split; [exact H3|]. split; [exact H4|].
  destruct (initialization_one_hot (lib := library_with_labels [0; 2; 0])
              [[Fin 0; Fin 5; Fin 1]] 3 (zeros 3 1) [0; 2; 0] H1 H2 H3 H4)
    as (R & HR & Hs & Hget & Hzero & _).
  exists R. split; [exact HR|]. split; [exact Hs|].
  intros i Hi. apply (Hzero 1).
  - cbn. lia.
  - cbn. intros [E|[E|[E|[]]]]; discriminate.
  - cbn. exact Hi.
Defined.

(** ** The factorization of the reference library *)

Section RealSums.

Local Open Scope R_scope.

Lemma Rsum_app (l1 l2 : list R) : Rsum (l1 ++ l2) = Rsum l1 + Rsum l2.
Proof. unfold Rsum. induction l1 as [|a l1 IH]; simpl; [lra | rewrite IH; lra]. Qed.

Lemma rsum_0 (f : nat -> R) : rsum 0 f = 0.
Proof. reflexivity. Qed.

Lemma rsum_S (n : nat) (f : nat -> R) : rsum (S n) f = rsum n f + f n.
Proof.
  unfold rsum, range. rewrite seq_S, map_app, Rsum_app. simpl. unfold Rsum. simpl. lra.
Qed.

Lemma rsum_zero (n : nat) (f : nat -> R) :
  (forall i, (i < n)%nat -> f i = 0) -> rsum n f = 0.
Proof.
  induction n as [|n IH]; intros H; [reflexivity|].
  rewrite rsum_S, IH, H by (try lia; intros; apply H; lia). lra.
Qed.

Lemma rsum_nonneg (n : nat) (f : nat -> R) :
  (forall i, (i < n)%nat -> 0 <= f i) -> 0 <= rsum n f.
Proof.
  induction n as [|n IH]; intros H; [rewrite rsum_0; lra|].
  rewrite rsum_S. assert (0 <= rsum n f) by (apply IH; intros; apply H; lia).
  assert (0 <= f n) by (apply H; lia). lra.
Qed.

(** A sum whose terms vanish from [m] on. *)
Lemma rsum_trunc (n m : nat) (f : nat -> R) :
  (m <= n)%nat -> (forall i, (m <= i < n)%nat -> f i = 0) -> rsum n f = rsum m f.
Proof.
  intros Hmn. induction n as [|n IH]; intros H.
  - replace m with 0%nat by lia. reflexivity.
  - destruct (Nat.eq_dec m (S n)) as [->|Hne]; [reflexivity|].
    rewrite rsum_S, H, IH by (try lia; intros; apply H; lia). lra.
Qed.

Lemma rsum_plus (n : nat) (f g : nat -> R) :
  rsum n (fun i => f i + g i) = rsum n f + rsum n g.
Proof. unfold rsum. apply Rsum_map_plus. Qed.

Lemma rsum_scale_r (n : nat) (c : R) (f : nat -> R) :
  rsum n (fun i => f i * c) = rsum n f * c.
Proof.
  rewrite (rsum_ext n _ (fun i => c * f i)) by (intros; lra).
  rewrite rsum_scale. lra.
Qed.

(** A sum of squares that vanishes has vanishing terms. *)
Lemma rsum_squares_zero (n : nat) (y : nat -> R) :
  rsum n (fun k => y k * y k) = 0 -> forall k, (k < n)%nat -> y k = 0.
Proof.
  induction n as [|n IH]; intros H k Hk; [lia|].
  rewrite rsum_S in H.
  assert (H1 : 0 <= rsum n (fun k => y k * y k))
    by (apply rsum_nonneg; intros; nra).
  assert (H2 : 0 <= y n * y n) by nra.
  destruct (Nat.eq_dec k n) as [->|Hne].
  - nra.
  - apply IH; [lra | lia].
Qed.

End RealSums.

Section CholeskyFacts.

Local Open Scope R_scope.

Lemma rsum_S_front (n : nat) (f : nat -> R) :
  rsum (S n) f = f 0%nat + rsum n (fun i => f (S i)).
Proof.
  unfold rsum, range. cbn [seq map]. rewrite <- seq_shift, map_map. reflexivity.
Qed.

Lemma dot_Fin (u : vector) :
  forall (v : vector),
    (length u <= length v)%nat ->
    Forall finite u ->
    (forall k, (k < length u)%nat -> finite (nth k v NaN)) ->
    dot u v = Fin (rsum (length u) (fun k => vr u k * vr v k)).
Proof.
  induction u as [|x u IH]; intros v Hlen Hu Hv.
  - reflexivity.
  - destruct v as [|y v]; [simpl in Hlen; lia|].
    inversion Hu as [|? ? Hx Hu']; subst.
    assert (Hy : finite y) by (apply (Hv 0%nat); simpl; lia).
    unfold dot. cbn [combine map fst snd length].
    change (nsum (nmul x y :: map (fun p => nmul (fst p) (snd p)) (combine u v)))
      with (nadd (nmul x y) (dot u v)).
    rewrite IH; [| simpl in Hlen; lia | exact Hu' |
                 intros k Hk; apply (Hv (S k)); simpl; lia].
    destruct Hx as [a ->], Hy as [b ->]. rewrite rsum_S_front. reflexivity.
Qed.

Lemma get_app_l (L M : matrix) (p q : nat) :
  (p < length L)%nat -> get (L ++ M) p q = get L p q.
Proof. intros H. unfold get. rewrite app_nth1 by exact H. reflexivity. Qed.

Lemma get_app_last (L : matrix) (row : vector) (q : nat) :
  get (L ++ [row]) (length L) q = nth q row NaN.
Proof. unfold get. rewrite nth_middle. reflexivity. Qed.

Lemma nth_row_l (acc zs : vector) (x : num) (q : nat) :
  (q < length acc)%nat -> nth q (acc ++ x :: zs) NaN = nth q acc NaN.
Proof. intros H. apply app_nth1. exact H. Qed.

Lemma nth_row_diag (acc zs : vector) (x : num) :
  nth (length acc) (acc ++ x :: zs) NaN = x.
Proof. apply nth_middle. Qed.

Lemma nth_row_r (acc : vector) (x : num) (m q : nat) :
  (length acc < q)%nat -> (q < length acc + 1 + m)%nat ->
  nth q (acc ++ x :: repeat (Fin 0) m) NaN = Fin 0.
Proof.
  intros H1 H2. rewrite app_nth2 by lia.
  destruct (q - length acc)%nat as [|r] eqn:E; [lia|]. cbn [nth].
  apply nth_repeat_lt. lia.
Qed.

Lemma chol_inv_nil (d : nat) (s : nat -> nat -> R) : chol_inv d s [].
Proof. unfold chol_inv. simpl. repeat split; intros; lia. Qed.

(** Forward substitution: the entries of a row left of the diagonal. *)
Lemma chol_row_spec (d : nat) (s : nat -> nat -> R) (L : matrix) (a : vector)
  (sa : nat -> R) :
  chol_inv d s L ->
  (forall q, (q < d)%nat -> nth q a NaN = Fin (sa q)) ->
  forall (rest done : matrix) (acc : vector),
    L = done ++ rest ->
    length acc = length done ->
    Forall finite acc ->
    (forall q, (q < length acc)%nat ->
       rsum (S q) (fun k => vr acc k * lr L q k) = sa q) ->
    length (chol_row rest a acc) = length L /\
    Forall finite (chol_row rest a acc) /\
    (forall q, (q < length L)%nat ->
       rsum (S q) (fun k => vr (chol_row rest a acc) k * lr L q k) = sa q).
Proof.
  intros (Hd & Hlen & Hfin & Hup & Hdiag & Hsum) Ha.
  induction rest as [|Lj rest IH]; intros done acc HL Hacc Hf Hs.
  - cbn [chol_row]. rewrite app_nil_r in HL. subst done.
    split; [exact Hacc|]. split; [exact Hf|].
    intros q Hq. apply Hs. lia.
  - cbn [chol_row].
    assert (Hj : (length acc < length L)%nat).
    { rewrite HL, length_app, Hacc. simpl. lia. }
    assert (HLj : Lj = nth (length acc) L []).
    { rewrite HL, Hacc. symmetry. apply nth_middle. }
    remember (length acc) as j eqn:Ej.
    assert (Hdot : dot acc Lj = Fin (rsum j (fun k => vr acc k * lr L j k))).
    { rewrite dot_Fin; auto.
      - rewrite <- Ej. f_equal. apply rsum_ext. intros k Hk.
        unfold vr at 2, lr, get. rewrite <- HLj. reflexivity.
      - rewrite <- Ej, HLj, Hlen by exact Hj. lia.
      - intros k Hk. rewrite <- Ej in Hk. rewrite HLj. apply (Hfin j k); lia. }
    assert (Hpiv : nth j Lj NaN = Fin (lr L j j)).
    { rewrite HLj. apply finite_to_R. apply (Hfin j j); lia. }
    pose proof (Hdiag j Hj) as Hpos.
    assert (He : ndiv (nsub (nth j a NaN) (dot acc Lj)) (nth j Lj NaN) =
                 Fin ((sa j - rsum j (fun k => vr acc k * lr L j k)) / lr L j j)).
    { rewrite Ha, Hdot, Hpiv by lia. rewrite nsub_Fin. apply ndiv_Fin. lra. }
    rewrite He.
    assert (Hold : forall k, (k < j)%nat ->
              vr (acc ++ [Fin ((sa j - rsum j (fun k => vr acc k * lr L j k)) / lr L j j)]) k
              = vr acc k).
    { intros k Hk. unfold vr. rewrite app_nth1 by lia. reflexivity. }
    assert (Hnew :
              vr (acc ++ [Fin ((sa j - rsum j (fun k => vr acc k * lr L j k)) / lr L j j)]) j
              = (sa j - rsum j (fun k => vr acc k * lr L j k)) / lr L j j).
    { unfold vr. rewrite Ej, nth_middle. reflexivity. }
    apply (IH (done ++ [Lj])).
    + rewrite <- app_assoc. exact HL.
    + rewrite !length_app. simpl. lia.
    + apply Forall_app. split; [exact Hf|]. constructor; [|constructor].
      eexists. reflexivity.
    + intros q Hq. rewrite length_app in Hq. simpl in Hq. rewrite <- Ej in Hq.
      destruct (Nat.eq_dec q j) as [->|Hne].
      * rewrite rsum_S, Hnew.
        rewrite (rsum_ext j _ (fun k => vr acc k * lr L j k))
          by (intros k Hk; rewrite Hold by exact Hk; reflexivity).
        field. lra.
      * rewrite <- (Hs q) by lia. apply rsum_ext. intros k Hk.
        rewrite Hold by lia. reflexivity.
Qed.

End CholeskyFacts.

Section CholeskyCorrect.

Local Open Scope R_scope.

Lemma chol_inv_snoc (d : nat) (s : nat -> nat -> R) (L : matrix) (acc : vector)
  (pv : R) :
  chol_inv d s L ->
  (length L < d)%nat ->
  length acc = length L ->
  Forall finite acc ->
  (forall q, (q < length L)%nat ->
     rsum (S q) (fun k => vr acc k * lr L q k) = s (length L) q) ->
  0 < pv ->
  pv = s (length L) (length L) - rsum (length L) (fun k => vr acc k * vr acc k) ->
  chol_inv d s (L ++ [acc ++ Fin (sqrt pv) :: repeat (Fin 0) (d - length L - 1)]).
Proof.
  intros (Hd & Hlen & Hfin & Hup & Hdiag & Hsum) Hi Hacc Hf Hs Hpv Epv.
  set (i := length L) in *.
  set (row := acc ++ Fin (sqrt pv) :: repeat (Fin 0) (d - i - 1)).
  assert (Hrow_l : forall q, (q < i)%nat -> nth q row NaN = nth q acc NaN).
  { intros q Hq. apply nth_row_l. lia. }
  assert (Hrow_d : nth i row NaN = Fin (sqrt pv)).
  { unfold row. rewrite <- Hacc. apply nth_row_diag. }
  assert (Hrow_r : forall q, (i < q)%nat -> (q < d)%nat -> nth q row NaN = Fin 0).
  { intros q H1 H2. apply nth_row_r; lia. }
  assert (Hacc_fin : forall q, (q < i)%nat -> finite (nth q acc NaN)).
  { intros q Hq. rewrite Forall_forall in Hf. apply Hf. apply nth_In. lia. }
  assert (Hg_old : forall p q, (p < i)%nat -> get (L ++ [row]) p q = get L p q).
  { intros p q Hp. apply get_app_l. exact Hp. }
  assert (Hg_new : forall q, get (L ++ [row]) i q = nth q row NaN).
  { intros q. apply get_app_last. }
  assert (Hl_old : forall p q, (p < i)%nat -> lr (L ++ [row]) p q = lr L p q).
  { intros p q Hp. unfold lr. rewrite Hg_old by exact Hp. reflexivity. }
  assert (Hl_new : forall q, (q < i)%nat -> lr (L ++ [row]) i q = vr acc q).
  { intros q Hq. unfold lr, vr. rewrite Hg_new, Hrow_l by exact Hq. reflexivity. }
  assert (Hl_diag : lr (L ++ [row]) i i = sqrt pv).
  { unfold lr. rewrite Hg_new, Hrow_d. reflexivity. }
  assert (Hlen' : length (L ++ [row]) = S i) by (rewrite length_app; simpl; lia).
  unfold chol_inv. rewrite Hlen'.
  split; [lia|]. split; [|split; [|split; [|split]]].
  - intros p Hp. destruct (Nat.eq_dec p i) as [->|Hne].
    + unfold i at 1. rewrite nth_middle. unfold row.
      rewrite length_app. cbn [length]. rewrite repeat_length. lia.
    + rewrite app_nth1 by (fold i; lia). apply Hlen. fold i. lia.
  - intros p q Hp Hq. destruct (Nat.eq_dec p i) as [->|Hne].
    + rewrite Hg_new.
      destruct (Nat.lt_trichotomy q i) as [H|[->|H]].
      * rewrite Hrow_l by exact H. apply Hacc_fin. exact H.
      * rewrite Hrow_d. eexists. reflexivity.
      * rewrite Hrow_r by assumption. eexists. reflexivity.
    + rewrite Hg_old by lia. apply Hfin; [fold i; lia | exact Hq].
  - intros p q Hp Hpq Hq. destruct (Nat.eq_dec p i) as [->|Hne].
    + unfold lr. rewrite Hg_new, Hrow_r by assumption. reflexivity.
    + rewrite Hl_old by lia. apply Hup; [fold i; lia | exact Hpq | exact Hq].
  - intros p Hp. destruct (Nat.eq_dec p i) as [->|Hne].
    + rewrite Hl_diag. apply sqrt_lt_R0. exact Hpv.
    + rewrite Hl_old by lia. apply Hdiag. fold i. lia.
  - intros p q Hp Hqp. destruct (Nat.eq_dec p i) as [->|Hne].
    + destruct (Nat.eq_dec q i) as [->|Hq].
      * rewrite rsum_S, Hl_diag, sqrt_sqrt by lra.
        rewrite (rsum_ext i _ (fun k => vr acc k * vr acc k))
          by (intros k Hk; rewrite Hl_new by exact Hk; reflexivity).
        lra.
      * rewrite <- (Hs q) by lia. apply rsum_ext. intros k Hk.
        rewrite Hl_new, Hl_old by lia. reflexivity.
    + rewrite <- (Hsum p q) by (try exact Hqp; fold i; lia).
      apply rsum_ext. intros k Hk. rewrite !Hl_old by lia. reflexivity.
Qed.

Lemma chol_rows_spec (d : nat) (Sg : matrix) :
  has_shape d d Sg ->
  (forall i j, (i < d)%nat -> (j < d)%nat -> finite (get Sg i j)) ->
  forall (rest done L Lout : matrix),
    Sg = done ++ rest ->
    length L = length done ->
    chol_inv d (lr Sg) L ->
    chol_rows d rest L = Ok Lout ->
    chol_inv d (lr Sg) Lout /\ length Lout = d.
Proof.
  intros HS Hfin. induction rest as [|a rest IH]; intros done L Lout HSd HL Hinv H.
  - cbn in H. inversion H; subst Lout. split; [exact Hinv|].
    rewrite app_nil_r in HSd. subst done. rewrite HL. apply HS.
  - cbn [chol_rows] in H.
    assert (Hi : (length L < d)%nat).
    { destruct HS as [HS1 _]. rewrite HSd, length_app in HS1. simpl in HS1. lia. }
    assert (Ha : forall q, (q < d)%nat -> nth q a NaN = Fin (lr Sg (length L) q)).
    { intros q Hq. unfold lr. rewrite <- finite_to_R by (apply Hfin; lia).
      unfold get. rewrite HSd, HL, nth_middle. reflexivity. }
    destruct (chol_row_spec d (lr Sg) L a (lr Sg (length L)) Hinv Ha L [] []
                eq_refl eq_refl (Forall_nil _)) as (Hacc & Hf & Hs).
    { intros q Hq. simpl in Hq. lia. }
    set (acc := chol_row L a []) in *.
    assert (Hdot : dot acc acc = Fin (rsum (length L) (fun k => vr acc k * vr acc k))).
    { rewrite dot_Fin; auto.
      - rewrite Hacc. reflexivity.
      - intros k Hk. rewrite Forall_forall in Hf. apply Hf. apply nth_In. exact Hk. }
    rewrite Ha, Hdot, nsub_Fin in H by lia.
    set (pv := lr Sg (length L) (length L) -
               rsum (length L) (fun k => vr acc k * vr acc k)) in *.
    destruct (nltb (Fin 0) (Fin pv)) eqn:Ep; cbn [orb isnan] in H; [|discriminate].
    apply nltb_Fin in Ep.
    rewrite nsqrt_Fin in H by lra.
    apply (IH (done ++ [a])) in H.
    + exact H.
    + rewrite <- app_assoc. exact HSd.
    + rewrite !length_app. simpl. lia.
    + apply chol_inv_snoc; auto.
Qed.

Lemma chol_rows_Err (d : nat) (rest L : matrix) (e : exn) :
  chol_rows d rest L = Err e -> e = LinAlgError.
Proof.
  revert L; induction rest as [|a rest IH]; intros L H; cbn [chol_rows] in H.
  - discriminate.
  - destruct (nltb _ _ || isnan _); [apply IH in H; exact H | inversion H; reflexivity].
Qed.

Lemma rsum_single (n j : nat) (f : nat -> R) :
  (j < n)%nat -> (forall i, (i < n)%nat -> i <> j -> f i = 0) -> rsum n f = f j.
Proof.
  induction n as [|n IH]; intros Hj H; [lia|].
  rewrite rsum_S. destruct (Nat.eq_dec j n) as [->|Hne].
  - rewrite rsum_zero by (intros i Hi; apply H; lia). lra.
  - rewrite IH, (H n) by (try lia; intros; apply H; lia). lra.
Qed.

(** A symmetric matrix with a factor L L' = Sg, L lower triangular with a
    positive diagonal, is positive-definite. *)
Lemma chol_inv_pos_def (d : nat) (Sg L : matrix) :
  covariance d Sg -> chol_inv d (lr Sg) L -> length L = d -> pos_def d Sg.
Proof.
  intros Hcov (_ & _ & _ & Hup & Hdiag & Hsum) HL.
  split; [exact Hcov|]. destruct Hcov as (_ & _ & Hsym).
  rewrite HL in *.
  assert (Hfull : forall p q, (p < d)%nat -> (q < d)%nat ->
            lr Sg p q = rsum d (fun k => lr L p k * lr L q k)).
  { assert (Hle : forall p q, (p < d)%nat -> (q <= p)%nat ->
              lr Sg p q = rsum d (fun k => lr L p k * lr L q k)).
    { intros p q Hp Hq. rewrite <- (Hsum p q Hp Hq). symmetry.
      apply rsum_trunc; [lia|]. intros k Hk. rewrite (Hup q k) by lia. lra. }
    intros p q Hp Hq. destruct (Nat.le_gt_cases q p) as [H|H].
    - apply Hle; assumption.
    - unfold lr at 1. rewrite Hsym by assumption. fold (lr Sg q p).
      rewrite Hle by lia. apply rsum_ext. intros k _. lra. }
  intros x (i0 & Hi0 & Hx).
  set (y := fun k => rsum d (fun p => x p * lr L p k)).
  assert (Hquad : quad_form d Sg x = rsum d (fun k => y k * y k)).
  { unfold quad_form.
    rewrite (rsum_ext d _ (fun i => rsum d (fun k => (x i * lr L i k) * y k))).
    - rewrite rsum_swap. apply rsum_ext. intros k Hk.
      rewrite rsum_scale_r. reflexivity.
    - intros i Hi.
      rewrite (rsum_ext d _ (fun j => rsum d (fun k => (x i * lr L i k) * (x j * lr L j k)))).
      + rewrite rsum_swap. apply rsum_ext. intros k Hk.
        unfold y. rewrite rsum_scale. reflexivity.
      + intros j Hj. fold (lr Sg i j). rewrite Hfull by assumption.
        rewrite <- rsum_scale, <- rsum_scale_r. apply rsum_ext. intros k _. lra. }
  rewrite Hquad.
  assert (Hge : 0 <= rsum d (fun k => y k * y k))
    by (apply rsum_nonneg; intros; nra).
  destruct Hge as [Hgt|Heq]; [exact Hgt|]. exfalso. apply Hx.
  pose proof (rsum_squares_zero d y (eq_sym Heq)) as Hy.
  assert (Hall : forall m, (m <= d)%nat ->
            forall p, (d - m <= p)%nat -> (p < d)%nat -> x p = 0).
  { induction m as [|m IHm]; intros Hm p Hp1 Hp2; [lia|].
    destruct (Nat.eq_dec p (d - S m)) as [->|Hne]; [|apply IHm; lia].
    set (k0 := (d - S m)%nat) in *.
    assert (Hk0 : y k0 = x k0 * lr L k0 k0).
    { unfold y. apply (rsum_single d k0 (fun p => x p * lr L p k0)); [lia|].
      intros p Hp Hpk. destruct (Nat.lt_ge_cases p k0) as [H|H].
      - rewrite (Hup p k0) by lia. lra.
      - rewrite (IHm ltac:(lia) p) by (unfold k0 in *; lia). lra. }
    rewrite (Hy k0) in Hk0 by lia.
    pose proof (Hdiag k0 ltac:(lia)) as Hpos. nra. }
  apply (Hall d); lia.
Qed.

(** The reference factorization rejects every covariance matrix that is
    not positive-definite. *)
Lemma lapack_cholesky_rejects (d : nat) (Sg : matrix) :
  covariance d Sg -> ~ pos_def d Sg -> lapack_cholesky Sg = Err LinAlgError.
Proof.
  intros Hcov Hnot. unfold lapack_cholesky.
  destruct (nrows Sg =? ncols Sg); [|reflexivity].
  destruct (chol_rows (nrows Sg) Sg []) as [L|e] eqn:E.
  - exfalso. apply Hnot. pose proof Hcov as (HS & Hfin & _).
    rewrite (has_shape_nrows d d Sg HS) in E.
    destruct (chol_rows_spec d Sg HS Hfin Sg [] [] L) as [Hinv HL]; auto.
    { apply chol_inv_nil. }
    apply (chol_inv_pos_def d Sg L); assumption.
  - apply chol_rows_Err in E. rewrite E. reflexivity.
Qed.

End CholeskyCorrect.

(** ** [loggausspdf] on a covariance that is not positive-definite *)

Lemma foldM_raises {A S : Type} (body : A -> S -> result S) (l : list A) (a : A) :
  In a l ->
  (forall s, exists e, body a s = Err e) ->
  forall s, exists e, foldM body l s = Err e.
Proof.
  intros Hin Hbody. induction l as [|b l IH]; intros s; [destruct Hin|].
  cbn [foldM]. destruct Hin as [->|Hin].
  - destruct (Hbody s) as [e He]. rewrite He. exists e. reflexivity.
  - destruct (body b s) as [s1|e]; cbn [bind]; [apply IH; exact Hin | eauto].
Qed.

Section NotPosDef.

Context {lib : Library}.

(** C9: on a covariance matrix that is not positive-definite,
    [loggausspdf] returns no value: it raises, and what it raises is the
    [LinAlgError] of the factorization as soon as the data could be
    centred.  Nothing catches the exception: [expectation] raises when the
    covariance of one of its components is such a matrix, and so does the
    pass of the fit whose [maximization] returned it. *)
Theorem loggausspdf_not_pos_def (d : nat) (X : matrix) (mu : vector) (Sigma : matrix) :
  cholesky_rejects ->
  covariance d Sigma -> ~ pos_def d Sigma ->
  (exists e, loggausspdf X mu Sigma = Err e) /\
  (forall Xc, broadcast nsub X (reshape_col mu) = Ok Xc ->
     loggausspdf X mu Sigma = Err LinAlgError) /\
  (forall W mus si pi i,
     i < ncols mus -> getitem si i = Ok Sigma ->
     exists e, expectation X W mus si pi = Err e) /\
  (forall W s mus si pi i,
     maximization X W (st_R s) = Ok (mus, si, pi) ->
     i < ncols mus -> getitem si i = Ok Sigma ->
     exists e, EMGM_step X W s = Err e).
Proof.
  intros Hlib Hcov Hnot.
  pose proof (Hlib d Sigma Hcov Hnot) as Hchol.
  assert (H1 : forall m, exists e, loggausspdf X m Sigma = Err e).
  { intros m. unfold loggausspdf.
    destruct (broadcast nsub X (reshape_col m)) as [Xc|e]; cbn [bind]; [|eauto].
    rewrite Hchol. cbn [bind]. eauto. }
  assert (H3 : forall W mus si pi i,
     i < ncols mus -> getitem si i = Ok Sigma ->
     exists e, expectation X W mus si pi = Err e).
  { intros W mus si pi i Hi Hsi. unfold expectation, expectation_logpdf.
    assert (Hin : In i (range (ncols mus))) by (unfold range; apply in_seq; lia).
    assert (Hbody : forall s, exists e,
              (mui <- getcol mus i ;; sii <- getitem si i ;;
               y <- loggausspdf X mui sii ;; setcol s i y) = Err e).
    { intros s. unfold getcol. apply Nat.ltb_lt in Hi. rewrite Hi. cbn [bind].
      rewrite Hsi. cbn [bind].
      destruct (H1 (map (fun row => nth i row NaN) mus)) as [e He].
      rewrite He. cbn [bind]. eauto. }
    destruct (foldM_raises
                (fun i logpdf =>
                   mui <- getcol mus i ;; sii <- getitem si i ;;
                   y <- loggausspdf X mui sii ;; setcol logpdf i y)
                (range (ncols mus)) i Hin Hbody (zeros (ncols X) (ncols mus)))
      as [e He].
    rewrite He. cbn [bind]. eauto. }
  split; [apply H1|]. split; [|split; [exact H3|]].
  - intros Xc HXc. unfold loggausspdf. rewrite HXc. cbn [bind].
    rewrite Hchol. reflexivity.
  - intros W s mus si pi i HM Hi Hsi. unfold EMGM_step.
    destruct (if 1 <? st_t s + 1 then _ else _) as [c|e]; cbn [bind]; [|eauto].
    rewrite HM. cbn [bind].
    destruct (H3 W mus si pi i Hi Hsi) as [e He]. rewrite He. cbn [bind]. eauto.
Qed.

End NotPosDef.

Section NotPosDefExample.

Local Open Scope R_scope.

Lemma indefinite_covariance : covariance 2 indefinite.
Proof.
  unfold covariance, indefinite. split; [|split].
  - split; [reflexivity | repeat constructor].
  - intros [|[|i]] [|[|j]] Hi Hj; try lia; eexists; reflexivity.
  - intros [|[|i]] [|[|j]] Hi Hj; try lia; reflexivity.
Qed.

Lemma indefinite_not_pos_def : ~ pos_def 2 indefinite.
Proof.
  intros [_ H].
  specialize (H (fun i => match i with 0%nat => 1 | _ => - 1 end)).
  assert (Hx : exists i, (i < 2)%nat /\
                 (match i with 0%nat => 1 | _ => - 1 end) <> 0).
  { exists 0%nat. split; [lia | lra]. }
  specialize (H Hx). unfold quad_form, rsum, range, Rsum, lr in H. cbn in H. lra.
Qed.

Lemma library_with_labels_rejects (idx : list nat) :
  cholesky_rejects (lib := library_with_labels idx).
Proof. intros d S. apply lapack_cholesky_rejects. Qed.

Lemma loggausspdf_not_pos_def_witness :
  cholesky_rejects (lib := library_with_labels [0%nat]) /\
  covariance 2 indefinite /\
  ~ pos_def 2 indefinite /\
  loggausspdf (lib := library_with_labels [0%nat])
    [[Fin 0]; [Fin 0]] [Fin 0; Fin 0] indefinite = Err LinAlgError.
Proof.
  split; [apply library_with_labels_rejects|].
  split; [apply indefinite_covariance|].
  split; [apply indefinite_not_pos_def|].
  destruct (loggausspdf_not_pos_def (lib := library_with_labels [0%nat]) 2
              [[Fin 0]; [Fin 0]] [Fin 0; Fin 0] indefinite
              (library_with_labels_rejects [0%nat])
              indefinite_covariance indefinite_not_pos_def) as (_ & H & _).
  apply (H [[Fin (0 - 0)]; [Fin (0 - 0)]]). reflexivity.
Defined.

End NotPosDefExample.

(** ** The properties at given inputs *)

Ltac pose_exp_pos :=
  repeat match goal with
         | |- context [exp ?x] =>
             lazymatch goal with
             | H : (0 < exp x)%R |- _ => fail
             | _ => pose proof (exp_pos x)
             end
         end.

Ltac num_side_pos :=
  solve [ num_side
        | pose proof PI_RGT_0; lra
        | pose_exp_pos; lra
        | apply Rgt_not_eq; pose_exp_pos; lra ].

Ltac num_eval_pos :=
  repeat (progress num_eval
          || (rewrite ndiv_Fin by num_side_pos)
          || (rewrite nlog_Fin by num_side_pos)
          || (rewrite nsqrt_Fin by num_side_pos)
          || (rewrite nltb_Fin_true by num_side_pos)
          || (rewrite is_zero_Fin by num_side_pos)).

Section Witnesses.

Local Open Scope R_scope.

Lemma weights_rescaling_witness :
  0 < 2 /\
  maximization X22 (scale_weights 2 W2) R22 = maximization X22 W2 R22 /\
  expectation (lib := library_with_labels [0%nat; 1%nat])
    X22 (scale_weights 2 W2) [[Fin 0; Fin 1]; [Fin 0; Fin 1]]
    [eye 2; eye 2] [Fin (1 / 2); Fin (1 / 2)] =
  expectation (lib := library_with_labels [0%nat; 1%nat])
    X22 W2 [[Fin 0; Fin 1]; [Fin 0; Fin 1]]
    [eye 2; eye 2] [Fin (1 / 2); Fin (1 / 2)].
Proof.
  assert (H : 0 < 2) by lra.
  split; [exact H|].
  exact (weights_rescaling (lib := library_with_labels [0%nat; 1%nat]) 2
           X22 W2 R22 [[Fin 0; Fin 1]; [Fin 0; Fin 1]] [eye 2; eye 2]
           [Fin (1 / 2); Fin (1 / 2)] H).
Defined.

Lemma maximization_weights_witness :
  has_shape 2 1 W2 /\
  has_shape 2 2 R22 /\
  Forall (Forall (fun v => exists a, v = Fin a /\ 0 <= a)) W2 /\
  np_sum_all W2 = Fin 2 /\
  0 < 2 /\
  Forall (fun row => Forall finite row /\ nsum row = Fin 1) R22 /\
  exists mu Sigma w,
    maximization X22 W2 R22 = Ok (mu, Sigma, w) /\
    length w = 2%nat /\
    nsum w = Fin 1.
Proof.
  assert (H1 : has_shape 2 1 W2) by (split; [reflexivity | repeat constructor]).
  assert (H2 : has_shape 2 2 R22) by (split; [reflexivity | repeat constructor]).
  assert (H3 : Forall (Forall (fun v => exists a, v = Fin a /\ 0 <= a)) W2).
  { assert (Hrow : Forall (fun v => exists a, v = Fin a /\ 0 <= a) [Fin 1]).
    { constructor; [|constructor]. exists 1. split; [reflexivity | lra]. }
    unfold W2. constructor; [exact Hrow|]. constructor; [exact Hrow|]. constructor. }
  assert (H4 : np_sum_all W2 = Fin 2) by (unfold W2; num_eval; num_eq).
  assert (H5 : 0 < 2) by lra.
  assert (H6 : Forall (fun row => Forall finite row /\ nsum row = Fin 1) R22).
  { unfold R22. constructor; [|constructor; [|constructor]].
    - split; [repeat constructor; eexists; reflexivity | num_eval; num_eq].
    - split; [repeat constructor; eexists; reflexivity | num_eval; num_eq]. }
  split; [exact H1|]. split; [exact H2|]. split; [exact H3|].
  split; [exact H4|]. split; [exact H5|]. split; [exact H6|].
  destruct maximization_X22 as (Sigma & w & HM).
  exists [[Fin (4 / 3); Fin (2 / 3)]; [Fin 10; Fin 4]], Sigma, w.
  split; [exact HM|].
  destruct (maximization_weights_sum_to_1 2 X22 W2 R22 _ Sigma w 2 2
              H1 H2 H3 H4 H5 H6 HM) as (R' & nk & _ & _ & _ & Hlen & _ & Hsum).
  split; [exact Hlen | exact Hsum].
Defined.

Lemma expectation_rows_witness :
  exists logpdf T,
    expectation_logpdf (lib := library_with_labels [0; 1]%nat)
      [[Fin 0; Fin 1]] [[Fin 0; Fin 1]] [[[Fin 1]]; [[Fin 1]]] [Fin (1 / 2); Fin (1 / 2)]
      = Ok logpdf /\
    logsumexp logpdf 1 = Ok T /\
    Forall (Forall (fun v => isfinite v = true)) T /\
    has_shape (nrows logpdf) 1 [[Fin 1]; [Fin 1]] /\
    exists R llh,
      expectation (lib := library_with_labels [0; 1]%nat)
        [[Fin 0; Fin 1]] [[Fin 1]; [Fin 1]] [[Fin 0; Fin 1]] [[[Fin 1]]; [[Fin 1]]]
        [Fin (1 / 2); Fin (1 / 2)] = Ok (R, llh) /\
      has_shape 2 2 R /\
      (forall row, In row R -> nsum row = Fin 1).
Proof.
  eassert (H1 : expectation_logpdf (lib := library_with_labels [0; 1]%nat)
      [[Fin 0; Fin 1]] [[Fin 0; Fin 1]] [[[Fin 1]]; [[Fin 1]]] [Fin (1 / 2); Fin (1 / 2)]
      = Ok _).
  { unfold expectation_logpdf, loggausspdf. num_eval_pos. reflexivity. }
  match type of H1 with
  | _ = Ok ?p => eassert (H2 : logsumexp p 1 = Ok _)
  end.
  { unfold logsumexp. num_eval_pos. reflexivity. }
  match type of H2 with
  | _ = Ok ?T =>
      assert (H3 : Forall (Forall (fun v => isfinite v = true)) T)
  end.
  { repeat (constructor; [repeat constructor|]). constructor. }
  match type of H1 with
  | _ = Ok ?p => assert (H4 : has_shape (nrows p) 1 [[Fin 1]; [Fin 1]])
  end.
  { split; [reflexivity | repeat constructor]. }
  eexists _, _. split; [exact H1|]. split; [exact H2|]. split; [exact H3|].
  split; [exact H4|].
  destruct (expectation_rows_sum_to_1 (lib := library_with_labels [0; 1]%nat)
              _ _ _ _ _ _ _ H1 H2 H3 H4) as (R & llh & HE & Hs & _ & Hrows).
  exists R, llh. split; [exact HE|]. split; [exact Hs | exact Hrows].
Defined.

End Witnesses.

(* ================================================================== *)
(** * Further properties of the routines *)

(** ** [maximization] on well-shaped arrays *)

Section MaximizationShapes.

(** The first lines of [maximization] on arrays of the shapes (d,n),
    (n,1) and (n,k). *)
Lemma maximization_prefix (X W R : matrix) (d n k : nat) :
  has_shape d n X -> has_shape n 1 W -> has_shape n k R ->
  0 < d -> 0 < n -> 0 < k ->
  let wv := squeeze W in
  let R' := mk_matrix n k (fun i j => nmul (nth i wv NaN) (get R i j)) in
  let nk := mk_vector k (fun j => nsum (mk_vector n (fun i => nmul (nth i wv NaN) (get R i j)))) in
  let XR := mk_matrix d k (fun a j =>
              nsum (mk_vector n (fun l => nmul (get X a l) (get R' l j)))) in
  maximization X W R =
  (mu <- broadcast ndiv XR (reshape_col nk) ;;
   Sigma <- foldM (maximization_Sigma X mu (mmap nsqrt R') nk d) (range k)
              (repeat (zeros d d) k) ;;
   Ok (mu, Sigma, map (fun x => ndiv x (np_sum_all W)) nk)).
Proof.
  intros HX HW HR Hd Hn Hk wv R' nk XR.
  destruct (column_reshape n W HW) as [EW Hwl]. fold wv in EW, Hwl.
  unfold maximization.
  rewrite EW at 1.
  rewrite (broadcast_col_l nmul n k wv R HR Hn Hk Hwl). cbn [bind]. fold R'.
  unfold R' at 1. rewrite np_sum_0_mk_matrix by exact Hn. cbn [bind]. fold nk.
  unfold matmul.
  rewrite (has_shape_ncols d n X HX Hd), (has_shape_nrows d n X HX).
  assert (Hc : ncols R' = k) by (apply ncols_mk_matrix; exact Hn).
  assert (Hr : nrows R' = n) by apply nrows_mk_matrix.
  rewrite !Hc, Hr, Nat.eqb_refl. cbn [bind]. reflexivity.
Qed.

Lemma bdim_Err (a b : nat) : a <> b -> a <> 1 -> b <> 1 -> bdim a b = Err ValueError.
Proof.
  intros H1 H2 H3. unfold bdim.
  destruct (Nat.eqb_spec a b); [contradiction|].
  destruct (Nat.eqb_spec a 1); [contradiction|].
  destruct (Nat.eqb_spec b 1); [contradiction|]. reflexivity.
Qed.

Lemma range_S_front (k : nat) : range (S k) = 0 :: seq 1 k.
Proof. reflexivity. Qed.

Lemma length_getcol (A : matrix) (j : nat) (v : vector) :
  getcol A j = Ok v -> length v = nrows A.
Proof.
  unfold getcol. destruct (j <? ncols A); [|discriminate].
  intros H. injection H as <-. apply length_map.
Qed.

Lemma getcol_Ok (A : matrix) (j : nat) :
  j < ncols A -> getcol A j = Ok (map (fun row => nth j row NaN) A).
Proof.
  intros H. unfold getcol. apply Nat.ltb_lt in H. rewrite H. reflexivity.
Qed.

Lemma maximization_Sigma_mismatch (X mu sqrtR : matrix) (nk : vector)
  (n k : nat) (S : list matrix) :
  has_shape 1 n X -> has_shape k k mu -> has_shape n k sqrtR ->
  length nk = k -> length S = k -> 0 < n -> 1 < k ->
  maximization_Sigma X mu sqrtR nk 1 0 S = Err ValueError.
Proof.
  intros HX Hmu Hsq Hnk HS Hn Hk. unfold maximization_Sigma.
  rewrite getcol_Ok by (rewrite (has_shape_ncols k k mu Hmu); lia). cbn [bind].
  set (mui := map _ mu).
  assert (Hmui : length mui = k) by (unfold mui; rewrite length_map; apply Hmu).
  rewrite (broadcast_eval nsub X (reshape_col mui) k n).
  2:{ rewrite (has_shape_nrows 1 n X HX), nrows_reshape_col, Hmui. apply bdim_1_l. }
  2:{ rewrite (has_shape_ncols 1 n X HX) by lia.
      rewrite ncols_reshape_col by (intros E; rewrite E in Hmui; simpl in Hmui; lia).
      apply bdim_1_r. }
  cbn [bind]. set (Xo := mk_matrix k n _).
  rewrite getcol_Ok by (rewrite (has_shape_ncols n k sqrtR Hsq); lia). cbn [bind].
  set (sqi := map _ sqrtR).
  assert (Hsqi : length sqi = n) by (unfold sqi; rewrite length_map; apply Hsq).
  rewrite (broadcast_eval nmul Xo (reshape_row sqi) k n).
  2:{ unfold Xo. rewrite nrows_mk_matrix. apply bdim_1_r. }
  2:{ unfold Xo. rewrite ncols_mk_matrix by lia. cbn [reshape_row ncols].
      rewrite Hsqi. apply bdim_same. }
  cbn [bind]. set (Xo2 := mk_matrix k n _).
  assert (Hr2 : nrows Xo2 = k) by apply nrows_mk_matrix.
  assert (Hc2 : ncols Xo2 = n) by (apply ncols_mk_matrix; lia).
  unfold matmul. unfold transpose at 1. rewrite nrows_mk_matrix, Nat.eqb_refl.
  cbn [bind].
  destruct nk as [|nk0 nk']; [simpl in Hnk; lia|]. cbn [getitem nth_error bind].
  unfold setslice at 1.
  assert (H0 : (0 <? length S) = true) by (apply Nat.ltb_lt; lia).
  rewrite H0. cbn [negb]. rewrite nrows_mmap, nrows_mk_matrix, Hr2.
  unfold fits. destruct (Nat.eqb_spec k 1); [lia|]. reflexivity.
Qed.

Lemma maximization_needs_square (X W R : matrix) (d n k : nat) :
  has_shape d n X -> has_shape n 1 W -> has_shape n k R ->
  0 < d -> 0 < n -> 1 < k -> d <> k ->
  maximization X W R = Err ValueError.
Proof.
  intros HX HW HR Hd Hn Hk Hdk.
  rewrite (maximization_prefix X W R d n k HX HW HR Hd Hn) by lia.
  cbv zeta.
  set (wv := squeeze W).
  set (R' := mk_matrix n k (fun i j => nmul (nth i wv NaN) (get R i j))).
  set (nk := mk_vector k _).
  set (XR := mk_matrix d k _).
  assert (Hnk : length nk = k) by apply length_mk_vector.
  assert (Hnk0 : nk <> []) by (intros E; rewrite E in Hnk; simpl in Hnk; lia).
  destruct (Nat.eq_dec d 1) as [->|Hd1].
  - rewrite (broadcast_eval ndiv XR (reshape_col nk) k k).
    + cbn [bind].
      set (mu := mk_matrix k k _).
      assert (Hmu : has_shape k k mu) by apply has_shape_mk_matrix.
      assert (Hsq : has_shape n k (mmap nsqrt R')).
      { unfold R'. rewrite mmap_mk_matrix. apply has_shape_mk_matrix. }
      assert (HS : length (repeat (zeros 1 1) k) = k) by apply repeat_length.
      destruct k as [|k']; [lia|]. rewrite range_S_front. cbn [foldM].
      rewrite (maximization_Sigma_mismatch X mu _ nk n (S k') _ HX Hmu Hsq Hnk HS Hn Hk).
      reflexivity.
    + unfold XR. rewrite nrows_mk_matrix, nrows_reshape_col, Hnk. apply bdim_1_l.
    + unfold XR. rewrite ncols_mk_matrix by lia.
      rewrite ncols_reshape_col by exact Hnk0. apply bdim_1_r.
  - unfold broadcast. unfold XR at 1. rewrite nrows_mk_matrix, nrows_reshape_col, Hnk.
    rewrite bdim_Err by lia. reflexivity.
Qed.

Lemma nth_col (A : matrix) (i a : nat) :
  nth a (map (fun row => nth i row NaN) A) NaN = get A a i.
Proof.
  unfold get.
  rewrite <- (map_nth (fun row => nth i row NaN) A [] a).
  destruct i; reflexivity.
Qed.

Lemma broadcast_row (f : num -> num -> num) (d n : nat) (A : matrix) (v : vector) :
  has_shape d n A -> 0 < d -> 0 < n -> length v = n ->
  broadcast f A (reshape_row v) =
  Ok (mk_matrix d n (fun a l => f (get A a l) (nth l v NaN))).
Proof.
  intros HA Hd Hn Hv.
  rewrite (broadcast_eval f A (reshape_row v) d n).
  - f_equal. apply mk_matrix_ext. intros a l Ha Hl.
    rewrite bget_lt by (rewrite ?(has_shape_nrows d n A HA), ?(has_shape_ncols d n A HA Hd); assumption).
    f_equal. unfold bget, reshape_row, get. cbn [nrows ncols length bidx Nat.eqb nth].
    rewrite bidx_lt by lia. reflexivity.
  - rewrite (has_shape_nrows d n A HA). apply bdim_1_r.
  - rewrite (has_shape_ncols d n A HA Hd). cbn [reshape_row ncols]. rewrite Hv. apply bdim_same.
Qed.

Lemma broadcast_same (f : num -> num -> num) (r c : nat) (A B : matrix) :
  has_shape r c A -> has_shape r c B -> 0 < r -> 0 < c ->
  broadcast f A B = Ok (mk_matrix r c (fun i j => f (get A i j) (get B i j))).
Proof.
  intros HA HB Hr Hc.
  rewrite (broadcast_eval f A B r c).
  - f_equal. apply mk_matrix_ext. intros i j Hi Hj.
    rewrite !bget_lt
      by (rewrite ?(has_shape_nrows r c A HA), ?(has_shape_ncols r c A HA Hr),
            ?(has_shape_nrows r c B HB), ?(has_shape_ncols r c B HB Hr); assumption).
    reflexivity.
  - rewrite (has_shape_nrows r c A HA), (has_shape_nrows r c B HB). apply bdim_same.
  - rewrite (has_shape_ncols r c A HA Hr), (has_shape_ncols r c B HB Hr). apply bdim_same.
Qed.

Lemma update_update {A : Type} (v : list A) (i : nat) (x y : A) :
  update (update v i x) i y = update v i y.
Proof.
  revert i. induction v as [|a v IH]; intros [|i]; simpl; try reflexivity.
  rewrite IH. reflexivity.
Qed.

Lemma setslice_square (d : nat) (S : list matrix) (i : nat) (M : matrix) :
  i < length S -> has_shape d d M -> 0 < d ->
  setslice d S i M = Ok (update S i M).
Proof.
  intros Hi HM Hd. unfold setslice.
  apply Nat.ltb_lt in Hi. rewrite Hi. cbn [negb].
  rewrite (has_shape_nrows d d M HM), (has_shape_ncols d d M HM Hd).
  unfold fits. rewrite Nat.eqb_refl. cbn [orb andb negb].
  do 2 f_equal. rewrite (has_shape_eq d d M HM) at 2.
  apply mk_matrix_ext. intros a b Ha Hb. apply bget_lt.
  - rewrite (has_shape_nrows d d M HM). exact Ha.
  - rewrite (has_shape_ncols d d M HM Hd). exact Hb.
Qed.

Lemma maximization_Sigma_eval (X mu sqrtR : matrix) (nk : vector)
  (d n k i : nat) (S : list matrix) :
  has_shape d n X -> has_shape d k mu -> has_shape n k sqrtR ->
  length nk = k -> length S = k -> 0 < d -> 0 < n -> i < k ->
  maximization_Sigma X mu sqrtR nk d i S =
  Ok (update S i (Sigma_slice X mu sqrtR nk d n i)).
Proof.
  intros HX Hmu Hsq Hnk HS Hd Hn Hi. unfold maximization_Sigma.
  rewrite getcol_Ok by (rewrite (has_shape_ncols d k mu Hmu Hd); lia). cbn [bind].
  set (mui := map _ mu).
  assert (Hmui : length mui = d) by (unfold mui; rewrite length_map; apply Hmu).
  rewrite (broadcast_col nsub d n X mui HX Hd Hn Hmui). cbn [bind].
  set (Xo := mk_matrix d n _).
  rewrite getcol_Ok by (rewrite (has_shape_ncols n k sqrtR Hsq Hn); lia). cbn [bind].
  set (sqi := map _ sqrtR).
  assert (Hsqi : length sqi = n) by (unfold sqi; rewrite length_map; apply Hsq).
  rewrite (broadcast_row nmul d n Xo sqi (has_shape_mk_matrix _ _ _) Hd Hn Hsqi).
  cbn [bind]. set (Xo2 := mk_matrix d n _).
  assert (HT : transpose Xo2 = mk_matrix n d (fun l b => get Xo2 b l)).
  { unfold transpose. unfold Xo2 at 1 2.
    rewrite nrows_mk_matrix, ncols_mk_matrix by exact Hd. reflexivity. }
  rewrite HT. unfold matmul.
  assert (Hc2 : ncols Xo2 = n) by (apply ncols_mk_matrix; exact Hd).
  assert (Hr2 : nrows Xo2 = d) by apply nrows_mk_matrix.
  rewrite Hc2, Hr2, nrows_mk_matrix, Nat.eqb_refl, ncols_mk_matrix by exact Hn.
  cbn [bind].
  rewrite (getitem_lt nk i NaN) by lia. cbn [bind].
  rewrite mmap_mk_matrix.
  rewrite setslice_square by (try apply has_shape_mk_matrix; lia). cbn [bind].
  rewrite (getitem_lt _ i []) by (rewrite update_length; lia). cbn [bind].
  rewrite nth_update, Nat.eqb_refl.
  replace (i <? length S) with true by (symmetry; apply Nat.ltb_lt; lia).
  cbn [andb].
  unfold eye. rewrite mmap_mk_matrix.
  rewrite (broadcast_same nadd d d)
    by (try apply has_shape_mk_matrix; lia).
  cbn [bind].
  rewrite setslice_square
    by (try apply has_shape_mk_matrix; rewrite ?update_length; lia).
  rewrite update_update. do 2 f_equal.
  unfold Sigma_slice. apply mk_matrix_ext. intros a b Ha Hb.
  rewrite !get_mk_matrix by assumption. do 2 f_equal.
  apply nsum_mk_vector_ext. intros l Hl.
  rewrite (get_mk_matrix n d) by assumption.
  unfold Xo2. rewrite !get_mk_matrix by assumption.
  unfold Xo. rewrite !get_mk_matrix by assumption.
  unfold mui, sqi. rewrite !nth_col. reflexivity.
Qed.

Lemma update_middle {A : Type} (l1 l2 : list A) (x y : A) :
  update (l1 ++ x :: l2) (length l1) y = l1 ++ y :: l2.
Proof. induction l1 as [|a l1 IH]; simpl; [reflexivity | rewrite IH; reflexivity]. Qed.

Lemma maximization_Sigma_loop (X mu sqrtR : matrix) (nk : vector) (d n k : nat) :
  has_shape d n X -> has_shape d k mu -> has_shape n k sqrtR ->
  length nk = k -> 0 < d -> 0 < n ->
  forall j, j <= k ->
    foldM (maximization_Sigma X mu sqrtR nk d) (range j) (repeat (zeros d d) k) =
    Ok (map (Sigma_slice X mu sqrtR nk d n) (range j) ++ repeat (zeros d d) (k - j)).
Proof.
  intros HX Hmu Hsq Hnk Hd Hn. induction j as [|j IH]; intros Hj.
  - rewrite Nat.sub_0_r. reflexivity.
  - unfold range in *. rewrite seq_S, foldM_app, IH by lia. cbn [bind foldM plus].
    rewrite (maximization_Sigma_eval X mu sqrtR nk d n k j) by
      (try assumption; try lia;
       rewrite length_app, length_map, length_seq, repeat_length; lia).
    cbn [bind]. f_equal.
    replace (k - j) with (S (k - S j)) by lia. cbn [repeat].
    pose proof (update_middle (map (Sigma_slice X mu sqrtR nk d n) (seq 0 j))
                  (repeat (zeros d d) (k - S j)) (zeros d d)
                  (Sigma_slice X mu sqrtR nk d n j)) as U.
    rewrite length_map, length_seq in U. rewrite U.
    rewrite map_app, <- app_assoc. reflexivity.
Qed.

Lemma maximization_eval (X W R : matrix) (d n k : nat) :
  has_shape d n X -> has_shape n 1 W -> has_shape n k R ->
  0 < d -> 0 < n -> 0 < k -> k = 1 \/ d = k ->
  maximization X W R =
  Ok (means X W R d n k,
      map (Sigma_slice X (means X W R d n k) (mmap nsqrt (weighted W R n k))
             (masses W R n k) d n) (range k),
      map (fun x => ndiv x (np_sum_all W)) (masses W R n k)).
Proof.
  intros HX HW HR Hd Hn Hk Hsq.
  rewrite (maximization_prefix X W R d n k HX HW HR Hd Hn Hk). cbv zeta.
  assert (EW : forall i, nth i (squeeze W) NaN = get W i 0)
    by (intros i; apply nth_col).
  assert (ER : mk_matrix n k (fun i j => nmul (nth i (squeeze W) NaN) (get R i j))
               = weighted W R n k).
  { apply mk_matrix_ext. intros. rewrite EW. reflexivity. }
  assert (Enk : mk_vector k (fun j => nsum (mk_vector n
                  (fun i => nmul (nth i (squeeze W) NaN) (get R i j))))
                = masses W R n k).
  { apply mk_vector_ext. intros. apply nsum_mk_vector_ext. intros. rewrite EW. reflexivity. }
  rewrite ER, Enk.
  assert (Hnk : length (masses W R n k) = k) by apply length_mk_vector.
  assert (Emu : broadcast ndiv
            (mk_matrix d k (fun a j => nsum (mk_vector n
               (fun l => nmul (get X a l) (get (weighted W R n k) l j)))))
            (reshape_col (masses W R n k)) = Ok (means X W R d n k)).
  { rewrite (broadcast_eval ndiv _ _ d k).
    - f_equal. apply mk_matrix_ext. intros a j Ha Hj.
      rewrite bget_lt by (rewrite ?nrows_mk_matrix, ?ncols_mk_matrix; assumption).
      rewrite get_mk_matrix by assumption.
      f_equal.
      + apply nsum_mk_vector_ext. intros l Hl. unfold weighted.
        rewrite get_mk_matrix by assumption. reflexivity.
      + unfold bget. rewrite nrows_reshape_col, Hnk.
        rewrite ncols_reshape_col by (intros E; rewrite E in Hnk; simpl in Hnk; lia).
        cbn [bidx Nat.eqb]. apply get_reshape_col.
    - rewrite nrows_mk_matrix, nrows_reshape_col, Hnk.
      destruct Hsq as [->| ->]; [apply bdim_1_r | apply bdim_same].
    - rewrite ncols_mk_matrix by exact Hd.
      rewrite ncols_reshape_col by (intros E; rewrite E in Hnk; simpl in Hnk; lia).
      apply bdim_1_r. }
  rewrite Emu. cbn [bind].
  rewrite (maximization_Sigma_loop X _ _ _ d n k) by
    (try assumption; try lia; try apply has_shape_mk_matrix;
     unfold weighted; rewrite mmap_mk_matrix; apply has_shape_mk_matrix).
  cbn [bind]. rewrite Nat.sub_diag. cbn [repeat]. rewrite app_nil_r. reflexivity.
Qed.

Lemma maximization_shape_cases (X W R : matrix) (d n k : nat) :
  has_shape d n X -> has_shape n 1 W -> has_shape n k R ->
  0 < d -> 0 < n -> 0 < k ->
  maximization X W R =
  if (k =? 1) || (d =? k)
  then Ok (means X W R d n k,
           map (Sigma_slice X (means X W R d n k) (mmap nsqrt (weighted W R n k))
                  (masses W R n k) d n) (range k),
           map (fun x => ndiv x (np_sum_all W)) (masses W R n k))
  else Err ValueError.
Proof.
  intros HX HW HR Hd Hn Hk.
  destruct (Nat.eqb_spec k 1) as [E1|E1]; cbn [orb].
  - apply maximization_eval; auto.
  - destruct (Nat.eqb_spec d k) as [E2|E2].
    + apply maximization_eval; auto.
    + apply (maximization_needs_square X W R d n k); auto; lia.
Qed.

(** X1: on arrays of the shapes (d,n), (n,1) and (n,k), [maximization]
    returns exactly when k = 1 or d = k and raises [ValueError] otherwise:
    only then does the (d,k) array of weighted sums divide by the (k,1)
    column of the masses (for d = 1 < k the quotient is a (k,k) array, and
    the (1,1) slice of [Sigma] refuses what is built from it).  When it
    returns, the mean in row [a] is the weighted sum over the mass nk[a]
    (nk[0] when k = 1), the covariances are the slices [Sigma_slice] built
    on these means, and the weights are nk / sum(W). *)
Theorem maximization_shape_law (X W R : matrix) (d n k : nat) :
  has_shape d n X -> has_shape n 1 W -> has_shape n k R ->
  0 < d -> 0 < n -> 0 < k ->
  maximization X W R =
  if (k =? 1) || (d =? k)
  then Ok (means X W R d n k,
           map (Sigma_slice X (means X W R d n k) (mmap nsqrt (weighted W R n k))
                  (masses W R n k) d n) (range k),
           map (fun x => ndiv x (np_sum_all W)) (masses W R n k))
  else Err ValueError.
Proof. exact (maximization_shape_cases X W R d n k). Qed.

Lemma maximization_shape_law_witness :
  has_shape 2 1 [[Fin 1]; [Fin 2]] /\ has_shape 1 1 [[Fin 1]] /\
  has_shape 1 3 [[Fin (1 / 2); Fin (1 / 4); Fin (1 / 4)]] /\
  0 < 2 /\ 0 < 1 /\ 0 < 3 /\
  maximization [[Fin 1]; [Fin 2]] [[Fin 1]]
    [[Fin (1 / 2); Fin (1 / 4); Fin (1 / 4)]] = Err ValueError.
Proof.
  assert (H1 : has_shape 2 1 [[Fin 1]; [Fin 2]])
    by (split; [reflexivity | repeat constructor]).
  assert (H2 : has_shape 1 1 [[Fin 1]]) by (split; [reflexivity | repeat constructor]).
  assert (H3 : has_shape 1 3 [[Fin (1 / 2); Fin (1 / 4); Fin (1 / 4)]])
    by (split; [reflexivity | repeat constructor]).
  assert (H4 : 0 < 2) by lia. assert (H5 : 0 < 1) by lia. assert (H6 : 0 < 3) by lia.
  repeat (split; [assumption|]).
  exact (maximization_shape_law _ _ _ 2 1 3 H1 H2 H3 H4 H5 H6).
Defined.

End MaximizationShapes.

(** ** The covariances of [maximization] over the reals *)

Section Covariances.

Local Open Scope R_scope.

Lemma rsum_mult (n m : nat) (f g : nat -> R) :
  rsum n f * rsum m g = rsum n (fun a => rsum m (fun b => f a * g b)).
Proof.
  rewrite <- rsum_scale_r. apply rsum_ext. intros a _.
  rewrite rsum_scale. reflexivity.
Qed.

(** The quadratic form of a Gram matrix over [m] plus [eps] times the
    identity. *)
Lemma quad_form_gram (d n : nat) (y : nat -> nat -> R) (m eps : R) (x : nat -> R) :
  rsum d (fun a => rsum d (fun b =>
    x a * (rsum n (fun l => y a l * y b l) / m
           + (if (a =? b)%nat then 1 else 0) * eps) * x b)) =
  rsum n (fun l => rsum d (fun a => x a * y a l) * rsum d (fun a => x a * y a l)) / m
  + eps * rsum d (fun a => x a * x a).
Proof.
  rewrite (rsum_ext d _ (fun a =>
     rsum d (fun b => rsum n (fun l => (x a * y a l) * (x b * y b l) * / m))
     + eps * (x a * x a))).
  - rewrite rsum_plus, rsum_scale. f_equal.
    unfold Rdiv. rewrite <- rsum_scale_r.
    rewrite (rsum_ext d _ (fun a => rsum n (fun l =>
               rsum d (fun b => x a * y a l * (x b * y b l) * / m))))
      by (intros; apply rsum_swap).
    rewrite rsum_swap. apply rsum_ext. intros l _.
    rewrite rsum_mult, <- rsum_scale_r. apply rsum_ext. intros a _.
    rewrite <- rsum_scale_r. reflexivity.
  - intros a Ha.
    rewrite (rsum_ext d _ (fun b =>
       rsum n (fun l => x a * y a l * (x b * y b l) * / m)
       + (if (a =? b)%nat then 1 else 0) * (eps * (x a * x b)))).
    + rewrite rsum_plus. f_equal.
      rewrite (rsum_single d a
                 (fun b => (if (a =? b)%nat then 1 else 0) * (eps * (x a * x b)))).
      * rewrite Nat.eqb_refl. lra.
      * exact Ha.
      * intros b _ Hb. destruct (Nat.eqb_spec a b); [congruence | lra].
    + intros b _.
      rewrite (rsum_ext n (fun l => x a * y a l * (x b * y b l) * / m)
                 (fun l => (x a * x b * / m) * (y a l * y b l)))
        by (intros; ring).
      rewrite rsum_scale. unfold Rdiv. ring.
Qed.

Lemma Sigma_slice_real (X mu sqrtR : matrix) (nk : vector) (d n i : nat)
  (xr : nat -> nat -> R) (mur : nat -> R) (sr : nat -> R) (m : R) :
  (forall a l, (a < d)%nat -> (l < n)%nat -> get X a l = Fin (xr a l)) ->
  (forall a, (a < d)%nat -> get mu a i = Fin (mur a)) ->
  (forall l, (l < n)%nat -> get sqrtR l i = Fin (sr l)) ->
  nth i nk NaN = Fin m -> m <> 0 ->
  forall a b, (a < d)%nat -> (b < d)%nat ->
    get (Sigma_slice X mu sqrtR nk d n i) a b =
    Fin (rsum n (fun l => ((xr a l - mur a) * sr l) * ((xr b l - mur b) * sr l)) / m
         + (if (a =? b)%nat then 1 else 0) * 1e-6).
Proof.
  intros HX Hmu Hs Hm Hm0 a b Ha Hb.
  unfold Sigma_slice. rewrite get_mk_matrix by assumption.
  rewrite (nsum_mk_vector_Fin n _
             (fun l => ((xr a l - mur a) * sr l) * ((xr b l - mur b) * sr l))).
  - rewrite Hm, ndiv_Fin by exact Hm0.
    destruct (a =? b)%nat; rewrite nmul_Fin, nadd_Fin; reflexivity.
  - intros l Hl. rewrite !HX, !Hmu, Hs by assumption.
    rewrite !nsub_Fin, !nmul_Fin. reflexivity.
Qed.

Lemma rsum_squares_pos (d : nat) (x : nat -> R) :
  (exists i, (i < d)%nat /\ x i <> 0) -> 0 < rsum d (fun a => x a * x a).
Proof.
  intros (i & Hi & Hx).
  assert (H0 : 0 <= rsum d (fun a => x a * x a)).
  { apply rsum_nonneg. intros a _. nra. }
  destruct H0 as [H0|H0]; [exact H0|].
  exfalso. apply Hx. apply (rsum_squares_zero d x); [symmetry; exact H0 | exact Hi].
Qed.

Lemma pos_def_gram (d n : nat) (S : matrix) (y : nat -> nat -> R) (m : R) :
  has_shape d d S -> 0 < m ->
  (forall a b, (a < d)%nat -> (b < d)%nat ->
     get S a b = Fin (rsum n (fun l => y a l * y b l) / m
                      + (if (a =? b)%nat then 1 else 0) * 1e-6)) ->
  pos_def d S.
Proof.
  intros HS Hm HE.
  assert (Hcov : covariance d S).
  { split; [exact HS|]. split.
    - intros a b Ha Hb. rewrite (HE a b Ha Hb). eexists. reflexivity.
    - intros a b Ha Hb. rewrite (HE a b Ha Hb), (HE b a Hb Ha).
      rewrite (Nat.eqb_sym b a). do 2 f_equal. f_equal.
      apply rsum_ext. intros l _. ring. }
  split; [exact Hcov|].
  intros x Hx. unfold quad_form.
  rewrite (rsum_ext d _ (fun a => rsum d (fun b =>
     x a * (rsum n (fun l => y a l * y b l) / m
            + (if (a =? b)%nat then 1 else 0) * 1e-6) * x b))).
  - rewrite quad_form_gram.
    assert (H1 : 0 <= rsum n (fun l => rsum d (fun a => x a * y a l)
                                         * rsum d (fun a => x a * y a l)) / m).
    { apply Rmult_le_pos; [|left; apply Rinv_0_lt_compat; exact Hm].
      apply rsum_nonneg. intros l _. nra. }
    pose proof (rsum_squares_pos d x Hx) as H2. nra.
  - intros a Ha. apply rsum_ext. intros b Hb. rewrite (HE a b Ha Hb). reflexivity.
Qed.

Lemma nth_map_range {A : Type} (F : nat -> A) (k i : nat) (d : A) :
  (i < k)%nat -> nth i (map F (range k)) d = F i.
Proof.
  intros Hi. rewrite (nth_indep _ d (F 0%nat)) by (rewrite length_map, length_range; exact Hi).
  rewrite (map_nth F). rewrite nth_range by exact Hi. reflexivity.
Qed.

Lemma masses_real (W R : matrix) (n k j : nat) :
  (forall l, (l < n)%nat -> finite (get W l 0)) ->
  (forall l, (l < n)%nat -> finite (get R l j)) ->
  (j < k)%nat ->
  nth j (masses W R n k) NaN =
  Fin (rsum n (fun l => to_R (get W l 0) * to_R (get R l j))).
Proof.
  intros HW HR Hj. unfold masses. rewrite nth_mk_vector by exact Hj.
  apply nsum_mk_vector_Fin. intros l Hl.
  rewrite (finite_to_R _ (HW l Hl)), (finite_to_R _ (HR l Hl)) at 1.
  apply nmul_Fin.
Qed.

(** X3: when the data are finite, the weights and the responsibilities
    finite and not negative, and every component has a positive mass, every
    covariance that [maximization] returns is positive-definite: it is a
    Gram matrix over the mass plus 1e-6 on the diagonal, whatever the means
    it is centred on. *)
Theorem maximization_covariances_pos_def (X W R mu : matrix) (Sigma : list matrix)
  (w : vector) (d n k : nat) :
  has_shape d n X -> has_shape n 1 W -> has_shape n k R ->
  (0 < d)%nat -> (0 < n)%nat -> (0 < k)%nat ->
  (forall a l, (a < d)%nat -> (l < n)%nat -> finite (get X a l)) ->
  (forall l, (l < n)%nat -> exists v, get W l 0 = Fin v /\ 0 <= v) ->
  (forall l j, (l < n)%nat -> (j < k)%nat -> exists r, get R l j = Fin r /\ 0 <= r) ->
  (forall j, (j < k)%nat ->
     0 < rsum n (fun l => to_R (get W l 0) * to_R (get R l j))) ->
  maximization X W R = Ok (mu, Sigma, w) ->
  length Sigma = k /\
  forall i, (i < k)%nat -> pos_def d (nth i Sigma []).
Proof.
  intros HX HW HR Hd Hn Hk HXf HWf HRf Hm HM.
  rewrite (maximization_shape_cases X W R d n k HX HW HR Hd Hn Hk) in HM.
  destruct ((k =? 1)%nat || (d =? k)%nat) eqn:Ec; [|discriminate].
  injection HM as Emu ES Ew.
  split; [rewrite <- ES, length_map; apply length_range|].
  intros i Hi. rewrite <- ES, nth_map_range by exact Hi.
  assert (HWfin : forall l, (l < n)%nat -> finite (get W l 0)).
  { intros l Hl. destruct (HWf l Hl) as (v & E & _). exists v. exact E. }
  assert (HRfin : forall l j, (l < n)%nat -> (j < k)%nat -> finite (get R l j)).
  { intros l j Hl Hj. destruct (HRf l j Hl Hj) as (v & E & _). exists v. exact E. }
  set (m := fun j => rsum n (fun l => to_R (get W l 0) * to_R (get R l j))).
  assert (Hmass : forall j, (j < k)%nat -> nth j (masses W R n k) NaN = Fin (m j)).
  { intros j Hj. apply masses_real; auto. }
  assert (Hb : forall a, (a < d)%nat -> (bidx k a < k)%nat).
  { intros a Ha. unfold bidx. destruct (Nat.eqb_spec k 1) as [->|E1]; [lia|].
    cbn [orb] in Ec. apply Nat.eqb_eq in Ec. lia. }
  apply (pos_def_gram d n _
           (fun a l => (to_R (get X a l)
                        - rsum n (fun l' => to_R (get X a l')
                                            * (to_R (get W l' 0) * to_R (get R l' i)))
                          / m (bidx k a))
                       * sqrt (to_R (get W l 0) * to_R (get R l i)))
           (m i)).
  - unfold Sigma_slice. apply has_shape_mk_matrix.
  - apply Hm. exact Hi.
  - apply Sigma_slice_real.
    + intros a l Ha Hl. apply finite_to_R. apply HXf; assumption.
    + intros a Ha. unfold means. rewrite get_mk_matrix by assumption.
      rewrite (Hmass _ (Hb a Ha)).
      rewrite (nsum_mk_vector_Fin n _
                 (fun l' => to_R (get X a l') * (to_R (get W l' 0) * to_R (get R l' i)))).
      * apply ndiv_Fin. apply Rgt_not_eq. apply Hm. apply Hb. exact Ha.
      * intros l Hl.
        rewrite (finite_to_R _ (HXf a l Ha Hl)), (finite_to_R _ (HWfin l Hl)),
          (finite_to_R _ (HRfin l i Hl Hi)) at 1.
        rewrite !nmul_Fin. reflexivity.
    + intros l Hl. unfold weighted. rewrite mmap_mk_matrix.
      rewrite get_mk_matrix by assumption.
      destruct (HWf l Hl) as (v & Ev & Hv). destruct (HRf l i Hl Hi) as (r & Er & Hr).
      rewrite Ev, Er. cbn [to_R]. rewrite nmul_Fin. apply nsqrt_Fin. nra.
    + apply Hmass. exact Hi.
    + apply Rgt_not_eq. apply Hm. exact Hi.
Qed.

(** X4: with one component the means are the weighted centroid of the
    samples: on finite arrays with a nonzero mass [maximization] returns,
    and mu[a,0] = sum_l X[a,l] W[l] R[l,0] / sum_l W[l] R[l,0]. *)
Theorem maximization_one_component_centroid (X W R : matrix) (d n : nat) :
  has_shape d n X -> has_shape n 1 W -> has_shape n 1 R ->
  (0 < d)%nat -> (0 < n)%nat ->
  (forall a l, (a < d)%nat -> (l < n)%nat -> finite (get X a l)) ->
  (forall l, (l < n)%nat -> finite (get W l 0)) ->
  (forall l, (l < n)%nat -> finite (get R l 0)) ->
  rsum n (fun l => to_R (get W l 0) * to_R (get R l 0)) <> 0 ->
  exists mu Sigma w,
    maximization X W R = Ok (mu, Sigma, w) /\
    has_shape d 1 mu /\ length Sigma = 1%nat /\ length w = 1%nat /\
    forall a, (a < d)%nat ->
      get mu a 0 =
      Fin (rsum n (fun l => to_R (get X a l) * (to_R (get W l 0) * to_R (get R l 0)))
           / rsum n (fun l => to_R (get W l 0) * to_R (get R l 0))).
Proof.
  intros HX HW HR Hd Hn HXf HWf HRf Hm.
  rewrite (maximization_shape_cases X W R d n 1 HX HW HR Hd Hn) by lia.
  cbn [Nat.eqb orb].
  eexists _, _, _. split; [reflexivity|].
  split; [apply has_shape_mk_matrix|].
  split; [rewrite length_map; apply length_range|].
  split; [rewrite length_map; apply length_mk_vector|].
  intros a Ha. unfold means. rewrite get_mk_matrix by (try assumption; lia).
  cbn [bidx Nat.eqb].
  rewrite (masses_real W R n 1 0) by (try assumption; lia).
  rewrite (nsum_mk_vector_Fin n _
             (fun l => to_R (get X a l) * (to_R (get W l 0) * to_R (get R l 0)))).
  - apply ndiv_Fin. exact Hm.
  - intros l Hl.
    rewrite (finite_to_R _ (HXf a l Ha Hl)), (finite_to_R _ (HWf l Hl)),
      (finite_to_R _ (HRf l Hl)) at 1.
    rewrite !nmul_Fin. reflexivity.
Qed.

End Covariances.

(** ** Shapes and symmetry of what [maximization] returns *)

Section Symmetry.

Lemma Sigma_slice_sym (X mu sqrtR : matrix) (nk : vector) (d n i a b : nat) :
  a < d -> b < d ->
  get (Sigma_slice X mu sqrtR nk d n i) a b = get (Sigma_slice X mu sqrtR nk d n i) b a.
Proof.
  intros Ha Hb. unfold Sigma_slice. rewrite !get_mk_matrix by assumption.
  rewrite (Nat.eqb_sym b a). f_equal. f_equal.
  apply nsum_mk_vector_ext. intros l _. apply nmul_comm.
Qed.

(** X2: what [maximization] returns on arrays of the shapes (d,n), (n,1)
    and (n,k) has the shapes (d,k) for the means, k slices (d,d) for the
    covariances and k weights, and every slice is symmetric: the entries
    (a,b) and (b,a) are the same number (or both NaN). *)
Theorem maximization_covariances_symmetric (X W R mu : matrix) (Sigma : list matrix)
  (w : vector) (d n k : nat) :
  has_shape d n X -> has_shape n 1 W -> has_shape n k R ->
  0 < d -> 0 < n -> 0 < k ->
  maximization X W R = Ok (mu, Sigma, w) ->
  has_shape d k mu /\ length Sigma = k /\ length w = k /\
  forall i, i < k ->
    has_shape d d (nth i Sigma []) /\
    forall a b, a < d -> b < d ->
      get (nth i Sigma []) a b = get (nth i Sigma []) b a.
Proof.
  intros HX HW HR Hd Hn Hk HM.
  rewrite (maximization_shape_cases X W R d n k HX HW HR Hd Hn Hk) in HM.
  destruct ((k =? 1) || (d =? k)); [|discriminate].
  injection HM as <- <- <-.
  split; [apply has_shape_mk_matrix|].
  split; [rewrite length_map; apply length_range|].
  split; [rewrite length_map; apply length_mk_vector|].
  intros i Hi. rewrite nth_map_range by exact Hi.
  split; [unfold Sigma_slice; apply has_shape_mk_matrix|].
  intros a b Ha Hb. apply Sigma_slice_sym; assumption.
Qed.

End Symmetry.

(** ** [logsumexp] along the rows *)

Section LogSumExpRows.

Lemma fold_left_nmax_NaN_acc (l : vector) : fold_left nmax l NaN = NaN.
Proof. induction l as [|y l IH]; [reflexivity | exact IH]. Qed.

Lemma fold_left_nmax_NaN (l : vector) (x : num) :
  In NaN l -> fold_left nmax l x = NaN.
Proof.
  revert x. induction l as [|y l IH]; intros x Hin; [contradiction|].
  destruct Hin as [E|H]; cbn [fold_left].
  - subst y. replace (nmax x NaN) with NaN by (destruct x; reflexivity).
    apply fold_left_nmax_NaN_acc.
  - apply IH. exact H.
Qed.

Lemma row_max_NaN (row : vector) : In NaN row -> row_max row = NaN.
Proof.
  destruct row as [|x row]; intros Hin; [contradiction|].
  destruct Hin as [E|H]; cbn [row_max].
  - subst x. apply fold_left_nmax_NaN_acc.
  - apply fold_left_nmax_NaN. exact H.
Qed.

Lemma fold_left_nmax_PInf_acc (l : vector) :
  ~ In NaN l -> fold_left nmax l PInf = PInf.
Proof.
  induction l as [|y l IH]; intros H; [reflexivity|]. cbn [fold_left].
  replace (nmax PInf y) with PInf.
  - apply IH. intros H'. apply H. right. exact H'.
  - destruct y; try reflexivity. exfalso. apply H. left. reflexivity.
Qed.

Lemma fold_left_nmax_PInf (l : vector) (x : num) :
  In PInf l -> x <> NaN -> ~ In NaN l -> fold_left nmax l x = PInf.
Proof.
  revert x. induction l as [|y l IH]; intros x Hin Hx Hn; [contradiction|].
  destruct Hin as [E|H]; cbn [fold_left].
  - subst y. replace (nmax x PInf) with PInf
      by (destruct x; try reflexivity; contradiction).
    apply fold_left_nmax_PInf_acc. intros H'. apply Hn. right. exact H'.
  - apply IH; [exact H | | intros H'; apply Hn; right; exact H'].
    destruct x as [| | |a], y as [| | |b]; try discriminate; try contradiction;
      try (exfalso; apply Hn; left; reflexivity).
    unfold nmax, nltb. destruct (Rlt_dec a b); discriminate.
Qed.

Lemma row_max_PInf (row : vector) :
  In PInf row -> ~ In NaN row -> row_max row = PInf.
Proof.
  destruct row as [|x row]; intros Hin Hn; [contradiction|].
  destruct Hin as [E|H]; cbn [row_max].
  - subst x. apply fold_left_nmax_PInf_acc. intros H'. apply Hn. right. exact H'.
  - apply fold_left_nmax_PInf; [exact H | | intros H'; apply Hn; right; exact H'].
    intros E. apply Hn. left. exact E.
Qed.

(** X5: on an array with a number of rows other than 1 (on one row the
    answer depends on the version of NumPy), [logsumexp(x, 1)] returns a
    column with one entry for each row of [x]: -inf for a row of -inf,
    log(sum(exp(row))) for a row with a finite maximum (computed as
    max + log(sum(exp(row - max))); an entry -inf counts for 0 in the sum),
    NaN for a row with a NaN, and +inf for a row with a +inf and no NaN. *)
Theorem logsumexp_along_rows (n k : nat) (x : matrix) :
  has_shape n k x -> 0 < k -> n <> 1 ->
  exists s,
    logsumexp x 1 = Ok s /\ has_shape n 1 s /\
    forall i, i < n ->
      let row := nth i x [] in
      (Forall (fun v => v = NInf) row -> get s i 0 = NInf) /\
      (forall r, row_max row = Fin r ->
         get s i 0 = nadd (Fin r) (nlog (nsum (map (fun v => nexp (nsub v (Fin r))) row))) /\
         get s i 0 = Fin (ln (Rsum (map rexp row)))) /\
      (In NaN row -> get s i 0 = NaN) /\
      (In PInf row -> ~ In NaN row -> get s i 0 = PInf).
Proof.
  intros Hx Hk _. exists (reshape_col (map lse_row x)).
  pose proof Hx as [Hn Hrows].
  split; [apply (logsumexp_rows n k); assumption|].
  split.
  { rewrite <- Hn, <- (length_map lse_row x). apply has_shape_reshape_col. }
  intros i Hi row. rewrite get_reshape_col.
  rewrite (nth_indep _ NaN (lse_row [])) by (rewrite length_map; lia).
  rewrite (map_nth lse_row). fold row.
  assert (Hne : row <> []).
  { intros E. pose proof (has_shape_nth n k x i Hx Hi) as Hl. fold row in Hl.
    rewrite E in Hl. simpl in Hl. lia. }
  split; [intros Hall; apply lse_row_NInf; assumption|].
  split.
  { intros r Hr. split.
    - unfold lse_row. rewrite Hr. reflexivity.
    - apply (lse_row_Fin row r Hr). }
  split.
  - intros HN. unfold lse_row. rewrite (row_max_NaN row HN). reflexivity.
  - intros HP HN. unfold lse_row. rewrite (row_max_PInf row HP HN). reflexivity.
Qed.

Lemma logsumexp_along_rows_witness :
  has_shape 2 2 [[NInf; NInf]; [Fin 0; NInf]] /\ 0 < 2 /\ 2 <> 1 /\
  exists s,
    logsumexp [[NInf; NInf]; [Fin 0; NInf]] 1 = Ok s /\
    get s 0 0 = NInf /\ get s 1 0 = Fin (ln (Rsum (map rexp [Fin 0; NInf]))).
Proof.
  assert (H1 : has_shape 2 2 [[NInf; NInf]; [Fin 0; NInf]])
    by (split; [reflexivity | repeat constructor]).
  assert (H2 : 0 < 2) by lia.
  assert (H3 : 2 <> 1) by lia.
  split; [exact H1|]. split; [exact H2|]. split; [exact H3|].
  destruct (logsumexp_along_rows 2 2 _ H1 H2 H3) as (s & Hs & _ & Hrows).
  exists s. split; [exact Hs|]. split.
  - apply (Hrows 0); [lia | repeat constructor].
  - apply (Hrows 1 ltac:(lia)) with (r := 0%R). reflexivity.
Defined.

End LogSumExpRows.

(** ** The indicator matrix of [dummyvar] *)

Section DummyvarCounts.

Local Open Scope R_scope.

Lemma nsum_indicator (c l : nat) :
  (l < c)%nat ->
  nsum (mk_vector c (fun b => if (b =? l)%nat then Fin 1 else Fin 0)) = Fin 1.
Proof.
  intros Hl.
  rewrite (nsum_mk_vector_Fin c _ (fun b => if (b =? l)%nat then 1 else 0)).
  - f_equal. rewrite (rsum_single c l).
    + rewrite Nat.eqb_refl. reflexivity.
    + exact Hl.
    + intros b _ Hb. destruct (Nat.eqb_spec b l); [contradiction | reflexivity].
  - intros b _. destruct (b =? l)%nat; reflexivity.
Qed.

Lemma rsum_count (idx : list nat) (j : nat) :
  rsum (length idx) (fun i => if (j =? nth i idx 0)%nat then 1 else 0) =
  INR (count_occ Nat.eq_dec idx j).
Proof.
  induction idx as [|x idx IH].
  - apply rsum_0.
  - cbn [length]. rewrite rsum_S_front. cbn [nth]. rewrite IH.
    cbn [count_occ]. destruct (Nat.eq_dec x j) as [E|E].
    + subst x. rewrite Nat.eqb_refl, S_INR. lra.
    + destruct (Nat.eqb_spec j x); [congruence|]. lra.
Qed.

(** X6: [dummyvar] raises [ValueError] on an empty list of labels; on any
    other list it returns a matrix with one row for each label and
    max(idx) + 1 columns, every row of which sums to 1 and whose column [j]
    sums to the number of labels equal to [j]. *)
Theorem dummyvar_counts (idx : list nat) :
  (idx = [] /\ dummyvar idx = Err ValueError) \/
  (idx <> [] /\
   exists d,
     dummyvar idx = Ok d /\
     has_shape (length idx) (max_label idx + 1) d /\
     (forall row, In row d -> nsum row = Fin 1) /\
     np_sum d 0 =
     Ok (map (fun j => of_nat (count_occ Nat.eq_dec idx j))
           (range (max_label idx + 1)))).
Proof.
  destruct idx as [|x idx']; [left; split; reflexivity|]. right.
  set (idx := x :: idx').
  assert (Hne : idx <> []) by discriminate.
  split; [exact Hne|].
  exists (one_hot idx (max_label idx + 1)).
  split; [apply dummyvar_spec; exact Hne|].
  split; [apply has_shape_mk_matrix|].
  split.
  - intros row Hrow. unfold one_hot, mk_matrix in Hrow.
    apply in_map_iff in Hrow. destruct Hrow as (a & <- & Ha).
    unfold range in Ha. apply in_seq in Ha.
    apply nsum_indicator.
    pose proof (max_label_ge idx) as Hge. rewrite Forall_forall in Hge.
    assert (Hin : In (nth a idx 0%nat) idx) by (apply nth_In; lia).
    specialize (Hge _ Hin). lia.
  - unfold one_hot. rewrite np_sum_0_mk_matrix by (unfold idx; simpl; lia).
    unfold mk_vector at 1. f_equal. apply map_ext. intros j.
    rewrite (nsum_mk_vector_Fin (length idx) _
               (fun i => if (j =? nth i idx 0)%nat then 1 else 0)).
    + unfold of_nat. f_equal. apply rsum_count.
    + intros i _. destruct (j =? nth i idx 0)%nat; reflexivity.
Qed.

End DummyvarCounts.

(** ** First pass, convergence flag and fixed points of the driver *)

Section DriverMore.

Context {lib : Library}.

Lemma EMGM_guard_initial (R0 : matrix) : EMGM_guard (initial_state R0) = true.
Proof. reflexivity. Qed.

Lemma EMGM_first_pass_raises (X : matrix) (W : vector) (nGM : nat) (R0 : matrix)
  (e : exn) :
  initialization X nGM = Ok R0 ->
  maximization X (reshape_col W) R0 = Err e ->
  EMGM X W nGM = Err e.
Proof.
  intros HI HM. rewrite EMGM_unfold, HI. cbn [bind].
  rewrite (EMGM_loop_raises X (reshape_col W) 0 maxiter (initial_state R0)
             (initial_state R0) e).
  - reflexivity.
  - unfold maxiter. lia.
  - reflexivity.
  - intros i si Hi Hp. assert (i = 0) by lia. subst i.
    cbn [EMGM_passes] in Hp. injection Hp as <-. apply EMGM_guard_initial.
  - unfold EMGM_step, initial_state. cbn [st_t st_R st_converged st_llh plus Nat.ltb Nat.leb bind].
    rewrite HM. reflexivity.
Qed.

(** X7: a fit of data of dimension d whose clustering uses the labels
    0..k-1 with k > 1 and d <> k raises [ValueError] in the maximization of
    its first pass; [EMGM] returns nothing. *)
Theorem EMGM_needs_square (X : matrix) (W : vector) (nGM : nat) (cents : matrix)
  (idx : list nat) (d n : nat) :
  has_shape d n X -> length W = n -> 0 < d -> 0 < n ->
  kmeans2 (transpose X) nGM 10 = Ok (cents, idx) -> length idx = n ->
  1 < max_label idx + 1 -> d <> max_label idx + 1 ->
  EMGM X W nGM = Err ValueError.
Proof.
  intros HX HW Hd Hn HK Hidx Hk Hdk.
  apply (EMGM_first_pass_raises X W nGM (one_hot idx (max_label idx + 1))).
  - unfold initialization. rewrite HK. cbn [bind].
    apply dummyvar_spec. intros E. rewrite E in Hidx. simpl in Hidx. lia.
  - apply (maximization_needs_square X _ _ d n (max_label idx + 1)); auto.
    + rewrite <- HW. apply has_shape_reshape_col.
    + unfold one_hot. rewrite Hidx. apply has_shape_mk_matrix.
Qed.

Lemma converged_test_iff (a b : num) :
  converged_test a b = true <->
  exists x y, a = Fin x /\ b = Fin y /\ (Rabs (x - y) < 1e-5 * Rabs x)%R.
Proof.
  split.
  - unfold converged_test.
    destruct a as [| | |x], b as [| | |y];
      try (cbv [nsub nneg nadd nabs]; destruct (nmul tol _); discriminate).
    intros H. exists x, y. split; [reflexivity|]. split; [reflexivity|].
    unfold tol in H.
    rewrite nsub_Fin, !nabs_Fin, nmul_Fin in H. apply nltb_Fin in H. exact H.
  - intros (x & y & -> & -> & H). unfold converged_test, tol.
    rewrite nsub_Fin, !nabs_Fin, nmul_Fin. apply nltb_Fin. exact H.
Qed.

(** X8: from the second pass on, a pass that completes leaves the flag
    [converged] set exactly when the two log-likelihoods written last are
    finite numbers x (the later) and y with |x - y| < 1e-5 |x|: never on a
    NaN or an infinite log-likelihood, and never when x = 0. *)
Theorem EMGM_step_converged (X W : matrix) (s s' : state) :
  EMGM_step X W s = Ok s' -> 1 <= st_t s ->
  (st_converged s' = true <->
   exists x y,
     nth (st_t s) (st_llh s) NaN = Fin x /\
     nth (st_t s - 1) (st_llh s) NaN = Fin y /\
     (Rabs (x - y) < 1e-5 * Rabs x)%R).
Proof.
  intros H Ht. apply EMGM_step_spec in H.
  destruct H as (mu & si & pi & R & l & _ & _ & _ & ->).
  cbn [st_converged].
  replace (1 <? st_t s + 1) with true by (symmetry; apply Nat.ltb_lt; lia).
  apply converged_test_iff.
Qed.

(** X9: a fit whose first pass returns the responsibilities it started
    from, with a finite log-likelihood that is not 0, makes three passes
    and returns the parameters of that pass, reporting "Converged in 2
    steps". *)
Theorem EMGM_fixed_point (X : matrix) (W : vector) (nGM : nat) (R0 mu : matrix)
  (si : list matrix) (pi : vector) (l : R) :
  initialization X nGM = Ok R0 ->
  maximization X (reshape_col W) R0 = Ok (mu, si, pi) ->
  expectation X (reshape_col W) mu si pi = Ok (R0, Fin l) ->
  l <> 0%R ->
  EMGM X W nGM = Ok ((mu, si, pi), Converged 2).
Proof.
  intros HI HM HE Hl. apply EMGM_returns_iff.
  set (x := ((mu, si, pi), R0, Fin l)).
  exists R0, [x; x; x], R0, (Fin l).
  split; [exact HI|].
  split; [cbn [em_chain x]; auto 10|].
  split; [simpl; lia|].
  split; [unfold maxiter; simpl; lia|].
  split.
  { cbn. apply converged_test_iff. exists l, l.
    split; [reflexivity|]. split; [reflexivity|].
    replace (l - l)%R with 0%R by ring. rewrite Rabs_R0.
    pose proof (Rabs_pos_lt l Hl). lra. }
  split.
  { intros j H1 H2. assert (j = 2) by (simpl in H2; lia). subst j.
    cbn. apply converged_test_NInf. }
  split; reflexivity.
Qed.

End DriverMore.

(** ** The weights in [expectation] *)

Section ExpectationWeights.

Context {lib : Library}.

(** X10: the responsibilities that [expectation] returns do not depend
    on the weights: with other weights of the same shape the call returns
    too, with the same R; only the log-likelihood changes. *)
Theorem expectation_weights_only_llh (X W W' mu : matrix) (si : list matrix)
  (pi : vector) (R : matrix) (l : num) :
  expectation X W mu si pi = Ok (R, l) ->
  nrows W' = nrows W -> ncols W' = ncols W ->
  exists l', expectation X W' mu si pi = Ok (R, l').
Proof.
  unfold expectation. intros H Hr Hc.
  inv_bind H as logpdf HL. inv_bind H as T HT. inv_bind H as WT HWT.
  inv_bind H as logR HR. injection H as <- _.
  rewrite HL. cbn [bind]. rewrite HT. cbn [bind].
  apply broadcast_Ok_inv in HWT. destruct HWT as (r & c & H1 & H2 & _).
  rewrite (broadcast_eval nmul W' T r c) by (rewrite ?Hr, ?Hc; assumption).
  cbn [bind]. rewrite HR. cbn [bind]. eexists. reflexivity.
Qed.

End ExpectationWeights.

(** ** [loggausspdf] in dimension 1 *)

Section Univariate.

Context {lib : Library}.

Local Open Scope R_scope.

Lemma row_matrix_ext (n : nat) (F : nat -> nat -> num) (G : R -> num) (xs : list R) :
  length xs = n ->
  (forall j, (j < n)%nat -> F 0%nat j = G (nth j xs 0)) ->
  mk_matrix 1 n F = [map G xs].
Proof.
  intros Hn HF. unfold mk_matrix. cbn [range seq map]. f_equal.
  rewrite (map_as_range G xs 0), Hn. apply mk_vector_ext. exact HF.
Qed.

Lemma ln_sqrt_half (s : R) : 0 < s -> ln (sqrt s) = ln s / 2.
Proof.
  intros Hs. pose proof (sqrt_lt_R0 s Hs) as H.
  pose proof (ln_mult (sqrt s) (sqrt s) H H) as E.
  rewrite sqrt_sqrt in E by lra. lra.
Qed.

(** X11: for data of dimension 1, [loggausspdf] returns the logarithm of
    the normal density of mean m and variance s > 0 at every sample,
    -(log(2 pi) + log s + (x - m)^2 / s) / 2, given the factor sqrt(s) of
    the 1 x 1 matrix (s) and the solution of the 1 x 1 system by the
    library. *)
Theorem loggausspdf_univariate (xs : list R) (m s : R) :
  0 < s -> xs <> [] ->
  cholesky [[Fin s]] = Ok [[Fin (sqrt s)]] ->
  solve [[Fin (sqrt s)]] [map (fun x => Fin (x - m)) xs] =
    Ok [map (fun x => Fin ((x - m) / sqrt s)) xs] ->
  loggausspdf [map Fin xs] [Fin m] [[Fin s]] =
  Ok (map (fun x => Fin (- (ln (2 * PI) + ln s + (x - m) * (x - m) / s) / 2)) xs).
Proof.
  intros Hs Hxs HC HS.
  set (n := length xs).
  assert (Hn : (0 < n)%nat).
  { unfold n. destruct xs; [contradiction | simpl; lia]. }
  assert (Hss : 0 < sqrt s) by (apply sqrt_lt_R0; exact Hs).
  unfold loggausspdf.
  assert (HX : has_shape 1 n [map Fin xs]).
  { split; [reflexivity|]. constructor; [|constructor]. apply length_map. }
  rewrite (broadcast_eval nsub [map Fin xs] (reshape_col [Fin m]) 1 n).
  2:{ reflexivity. }
  2:{ cbn [ncols reshape_col map]. rewrite length_map. fold n. apply bdim_1_r. }
  cbn [bind].
  rewrite (row_matrix_ext n _ (fun x => Fin (x - m)) xs eq_refl).
  2:{ intros j Hj. unfold bget. cbn [nrows ncols reshape_col map length bidx Nat.eqb].
      rewrite length_map. fold n. rewrite bidx_lt by exact Hj.
      unfold get. cbn [nth].
      rewrite (nth_indep _ NaN (Fin 0)) by (rewrite length_map; exact Hj).
      rewrite (map_nth Fin). apply nsub_Fin. }
  rewrite HC. cbn [bind].
  change (transpose (transpose [[Fin (sqrt s)]])) with [[Fin (sqrt s)]].
  rewrite HS. cbn [bind].
  set (Q := [map (fun x => Fin ((x - m) / sqrt s)) xs]).
  assert (HQ : has_shape 1 n Q).
  { split; [reflexivity|]. constructor; [|constructor]. apply length_map. }
  rewrite (broadcast_same nmul 1 n Q Q HQ HQ) by lia. cbn [bind].
  rewrite np_sum_0_mk_matrix by lia. cbn [bind].
  change (transpose [[Fin (sqrt s)]]) with [[Fin (sqrt s)]].
  change (diag [[Fin (sqrt s)]]) with [Fin (sqrt s)].
  cbn [map nsum fold_right nrows length of_nat INR].
  rewrite !nmul_Fin, !nlog_Fin by (try exact Hss; pose proof PI_RGT_0; lra).
  f_equal. rewrite (map_as_range _ xs 0). fold n. unfold mk_vector at 1.
  rewrite map_map. apply map_ext_in. intros j Hj. apply in_seq in Hj.
  assert (Hq : get Q 0 j = Fin ((nth j xs 0 - m) / sqrt s)).
  { unfold Q, get. cbn [nth].
    rewrite (nth_indep _ NaN (Fin ((0 - m) / sqrt s))) by (rewrite length_map; fold n; lia).
    apply (map_nth (fun x => Fin ((x - m) / sqrt s))). }
  cbn [mk_vector range seq map nsum fold_right]. rewrite Hq.
  unfold of_nat. cbn [INR].
  repeat first [rewrite nmul_Fin | rewrite nadd_Fin].
  rewrite nneg_Fin, ndiv_Fin by lra.
  f_equal. rewrite ln_sqrt_half by exact Hs.
  replace ((nth j xs 0 - m) / sqrt s * ((nth j xs 0 - m) / sqrt s))
    with ((nth j xs 0 - m) * (nth j xs 0 - m) / (sqrt s * sqrt s))
    by (field; lra).
  rewrite sqrt_sqrt by lra. field. lra.
Qed.

End Univariate.

(** ** Arrays whose lengths do not fit *)

Section Mismatch.

Context {lib : Library}.

(** X12: [maximization] raises [ValueError] when the number of weights
    is neither the number of rows of R nor 1 (and R has more than one
    row): W * R does not broadcast. *)
Theorem maximization_weights_mismatch (X W R : matrix) (m n k : nat) :
  has_shape m 1 W -> has_shape n k R -> m <> n -> m <> 1 -> n <> 1 ->
  maximization X W R = Err ValueError.
Proof.
  intros HW HR H1 H2 H3. unfold maximization, broadcast.
  rewrite (has_shape_nrows m 1 W HW), (has_shape_nrows n k R HR).
  rewrite bdim_Err by assumption. reflexivity.
Qed.

(** X13: [loggausspdf] raises [ValueError], before it factors [Sigma],
    when the length of [mu] is neither the dimension of the data nor 1 (and
    the dimension is more than 1): X - mu does not broadcast. *)
Theorem loggausspdf_mean_mismatch (X : matrix) (mu : vector) (Sigma : matrix)
  (d n : nat) :
  has_shape d n X -> length mu <> d -> length mu <> 1 -> d <> 1 ->
  loggausspdf X mu Sigma = Err ValueError.
Proof.
  intros HX H1 H2 H3. unfold loggausspdf, broadcast.
  rewrite (has_shape_nrows d n X HX), nrows_reshape_col.
  rewrite bdim_Err by auto. reflexivity.
Qed.

End Mismatch.

(** ** [expectation] with one component *)

Section OneComponent.

Context {lib : Library}.

Local Open Scope R_scope.

Lemma lse_row_single (a : R) : lse_row [Fin a] = Fin a.
Proof.
  destruct (lse_row_Fin [Fin a] a eq_refl) as [-> _].
  cbn [map rexp Rsum fold_right]. rewrite Rplus_0_r, ln_exp. reflexivity.
Qed.

Lemma logsumexp_column (n : nat) (x : matrix) :
  has_shape n 1 x -> (forall i, (i < n)%nat -> finite (get x i 0)) ->
  logsumexp x 1 = Ok x.
Proof.
  intros Hx Hf. rewrite (logsumexp_rows n 1 x Hx) by lia. f_equal.
  rewrite (has_shape_eq n 1 x Hx) at 2.
  unfold reshape_col. rewrite map_map, (map_as_range _ x []).
  destruct Hx as [Hn Hrows]. rewrite Hn. unfold mk_matrix.
  apply map_ext_in. intros i Hi. apply in_seq in Hi.
  assert (Hi' : (i < n)%nat) by lia.
  destruct (Hf i Hi') as [a Ha].
  rewrite Forall_forall in Hrows.
  assert (Hlen : length (nth i x []) = 1%nat) by (apply Hrows, nth_In; lia).
  unfold get in Ha.
  destruct (nth i x []) as [|v [|v' row]] eqn:E; try discriminate.
  cbn [nth] in Ha. subst v. rewrite lse_row_single.
  cbn [mk_vector range seq map]. unfold get. rewrite E. reflexivity.
Qed.

Lemma expectation_one_component_eval (X W mu : matrix) (si : list matrix) (pi : vector)
  (logpdf : matrix) (n : nat) :
  expectation_logpdf X mu si pi = Ok logpdf ->
  has_shape n 1 logpdf -> has_shape n 1 W -> (0 < n)%nat -> n <> 1%nat ->
  (forall i, (i < n)%nat -> finite (get logpdf i 0)) ->
  expectation X W mu si pi =
  Ok (mk_matrix n 1 (fun _ _ => Fin 1),
      ndiv (np_sum_all (mk_matrix n 1 (fun i j => nmul (get W i j) (get logpdf i j))))
           (np_sum_all W)).
Proof.
  intros HL Hs HW Hn _ Hf. unfold expectation.
  rewrite HL. cbn [bind].
  rewrite (logsumexp_column n logpdf Hs Hf). cbn [bind].
  rewrite (broadcast_same nmul n 1 W logpdf HW Hs) by lia. cbn [bind].
  rewrite (broadcast_same nsub n 1 logpdf logpdf Hs Hs) by lia. cbn [bind].
  rewrite mmap_mk_matrix. do 2 f_equal.
  apply mk_matrix_ext. intros i j Hi Hj.
  assert (j = 0)%nat by lia. subst j.
  destruct (Hf i Hi) as [a ->].
  rewrite nsub_Fin, nexp_Fin. f_equal.
  replace (a - a) with 0 by ring. apply exp_0.
Qed.

(** X14: with one component, finite log-densities and a number of samples
    other than 1 (on one sample [logsumexp] depends on the version of
    NumPy), every responsibility that [expectation] returns is 1 and the
    log-likelihood is the weighted mean sum(W * logpdf) / sum(W). *)
Theorem expectation_one_component (X W mu : matrix) (si : list matrix) (pi : vector)
  (logpdf : matrix) (n : nat) :
  expectation_logpdf X mu si pi = Ok logpdf ->
  has_shape n 1 logpdf -> has_shape n 1 W -> (0 < n)%nat -> n <> 1%nat ->
  (forall i, (i < n)%nat -> finite (get logpdf i 0)) ->
  expectation X W mu si pi =
  Ok (mk_matrix n 1 (fun _ _ => Fin 1),
      ndiv (np_sum_all (mk_matrix n 1 (fun i j => nmul (get W i j) (get logpdf i j))))
           (np_sum_all W)).
Proof. exact (expectation_one_component_eval X W mu si pi logpdf n). Qed.

End OneComponent.

(** Side conditions on square roots of given positive reals. *)
Ltac num_side_sqrt :=
  solve [ num_side_pos
        | apply Rgt_not_eq, sqrt_lt_R0; lra
        | apply sqrt_lt_R0; lra ].

Ltac num_eval_sqrt :=
  repeat (progress num_eval_pos
          || (rewrite ndiv_Fin by num_side_sqrt)
          || (rewrite nlog_Fin by num_side_sqrt)
          || (rewrite is_zero_Fin by num_side_sqrt)).

(** ** A fit of two samples with one component *)

Section TwoPoints.

Local Open Scope R_scope.

Lemma two_point_maximization :
  maximization [[Fin 0; Fin 2]] [[Fin 1]; [Fin 1]] [[Fin 1]; [Fin 1]] =
  Ok ([[Fin 1]], [[[Fin (1 + 1e-6)]]], [Fin 1]).
Proof.
  unfold maximization, maximization_Sigma. num_eval. num_eq.
Qed.

Lemma gauss_term (v t : R) :
  0 < v ->
  - (ln (2 * PI) + 2 * ln (sqrt v) + t / sqrt v * (t / sqrt v)) / 2 =
  - (ln (2 * PI) + ln v + t * t / v) / 2.
Proof.
  intros Hv. pose proof (sqrt_lt_R0 v Hv) as Hs.
  rewrite ln_sqrt_half by exact Hv.
  replace (t / sqrt v * (t / sqrt v)) with (t * t / (sqrt v * sqrt v))
    by (field; lra).
  rewrite sqrt_sqrt by lra. field. lra.
Qed.

Lemma two_point_logpdf :
  expectation_logpdf (lib := library_with_labels [0; 0]%nat)
    [[Fin 0; Fin 2]] [[Fin 1]] [[[Fin (1 + 1e-6)]]] [Fin 1] =
  Ok [[Fin (- (ln (2 * PI) + ln (1 + 1e-6) + 1 / (1 + 1e-6)) / 2)];
      [Fin (- (ln (2 * PI) + ln (1 + 1e-6) + 1 / (1 + 1e-6)) / 2)]].
Proof.
  unfold expectation_logpdf, loggausspdf. num_eval_sqrt.
  rewrite !gauss_term by lra. num_eq.
Qed.

Lemma two_point_expectation :
  expectation (lib := library_with_labels [0; 0]%nat)
    [[Fin 0; Fin 2]] [[Fin 1]; [Fin 1]] [[Fin 1]] [[[Fin (1 + 1e-6)]]] [Fin 1] =
  Ok ([[Fin 1]; [Fin 1]],
      Fin (- (ln (2 * PI) + ln (1 + 1e-6) + 1 / (1 + 1e-6)) / 2)).
Proof.
  rewrite (expectation_one_component_eval (lib := library_with_labels [0; 0]%nat)
             _ [[Fin 1]; [Fin 1]] _ _ _ _ 2 two_point_logpdf).
  - generalize (- (ln (2 * PI) + ln (1 + 1e-6) + 1 / (1 + 1e-6)) / 2). intros a.
    num_eval. num_eq.
  - split; [reflexivity | repeat constructor].
  - split; [reflexivity | repeat constructor].
  - lia.
  - lia.
  - intros [|[|i]] Hi; [eexists; reflexivity | eexists; reflexivity | lia].
Qed.

Lemma two_point_llh_nonzero :
  - (ln (2 * PI) + ln (1 + 1e-6) + 1 / (1 + 1e-6)) / 2 <> 0.
Proof.
  assert (H1 : 0 < ln (2 * PI)).
  { rewrite <- ln_1. apply ln_increasing; [lra|]. pose proof PI2_1. lra. }
  assert (H2 : 0 < ln (1 + 1e-6)).
  { rewrite <- ln_1. apply ln_increasing; lra. }
  assert (H3 : 0 < 1 / (1 + 1e-6)).
  { apply Rdiv_lt_0_compat; lra. }
  lra.
Qed.

End TwoPoints.

(** ** The properties above on given arrays *)

Section MoreWitnesses.

Local Open Scope R_scope.

Lemma maximization_weights_mismatch_witness :
  has_shape 3 1 [[Fin 1]; [Fin 1]; [Fin 1]] /\
  has_shape 2 1 [[Fin 1]; [Fin 1]] /\ 3%nat <> 2%nat /\ 3%nat <> 1%nat /\ 2%nat <> 1%nat /\
  maximization [[Fin 0; Fin 1]] [[Fin 1]; [Fin 1]; [Fin 1]] [[Fin 1]; [Fin 1]]
    = Err ValueError.
Proof.
  assert (H1 : has_shape 3 1 [[Fin 1]; [Fin 1]; [Fin 1]])
    by (split; [reflexivity | repeat constructor]).
  assert (H2 : has_shape 2 1 [[Fin 1]; [Fin 1]])
    by (split; [reflexivity | repeat constructor]).
  assert (H3 : 3%nat <> 2%nat) by lia.
  assert (H4 : 3%nat <> 1%nat) by lia.
  assert (H5 : 2%nat <> 1%nat) by lia.
  repeat (split; [assumption|]).
  exact (maximization_weights_mismatch [[Fin 0; Fin 1]] _ _ 3 2 1 H1 H2 H3 H4 H5).
Defined.

Lemma loggausspdf_mean_mismatch_witness :
  has_shape 2 1 [[Fin 0]; [Fin 1]] /\
  length [Fin 0; Fin 0; Fin 0] <> 2%nat /\ length [Fin 0; Fin 0; Fin 0] <> 1%nat /\
  2%nat <> 1%nat /\
  loggausspdf (lib := library_with_labels []) [[Fin 0]; [Fin 1]]
    [Fin 0; Fin 0; Fin 0] [[Fin 1; Fin 0]; [Fin 0; Fin 1]] = Err ValueError.
Proof.
  assert (H1 : has_shape 2 1 [[Fin 0]; [Fin 1]])
    by (split; [reflexivity | repeat constructor]).
  assert (H2 : length [Fin 0; Fin 0; Fin 0] <> 2%nat) by (simpl; lia).
  assert (H3 : length [Fin 0; Fin 0; Fin 0] <> 1%nat) by (simpl; lia).
  assert (H4 : 2%nat <> 1%nat) by lia.
  repeat (split; [assumption|]).
  exact (loggausspdf_mean_mismatch (lib := library_with_labels []) _ _ _ 2 1 H1 H2 H3 H4).
Defined.

Lemma EMGM_needs_square_witness :
  has_shape 1 2 [[Fin 0; Fin 1]] /\ length [Fin 1; Fin 1] = 2%nat /\
  (0 < 1)%nat /\ (0 < 2)%nat /\
  kmeans2 (Library := library_with_labels [0; 1]%nat) (transpose [[Fin 0; Fin 1]]) 2 10
    = Ok (zeros 2 1, [0; 1]%nat) /\
  length [0; 1]%nat = 2%nat /\
  (1 < max_label [0; 1] + 1)%nat /\ 1%nat <> (max_label [0; 1] + 1)%nat /\
  EMGM (lib := library_with_labels [0; 1]%nat) [[Fin 0; Fin 1]] [Fin 1; Fin 1] 2
    = Err ValueError.
Proof.
  assert (H1 : has_shape 1 2 [[Fin 0; Fin 1]])
    by (split; [reflexivity | repeat constructor]).
  assert (H2 : length [Fin 1; Fin 1] = 2%nat) by reflexivity.
  assert (H3 : (0 < 1)%nat) by lia.
  assert (H4 : (0 < 2)%nat) by lia.
  assert (H5 : kmeans2 (Library := library_with_labels [0; 1]%nat)
                 (transpose [[Fin 0; Fin 1]]) 2 10 = Ok (zeros 2 1, [0; 1]%nat))
    by reflexivity.
  assert (H6 : length [0; 1]%nat = 2%nat) by reflexivity.
  assert (H7 : (1 < max_label [0; 1] + 1)%nat) by (cbn; lia).
  assert (H8 : 1%nat <> (max_label [0; 1] + 1)%nat) by (cbn; lia).
  repeat (split; [assumption|]).
  exact (EMGM_needs_square (lib := library_with_labels [0; 1]%nat)
           _ _ 2 _ _ 1 2 H1 H2 H3 H4 H5 H6 H7 H8).
Defined.

Lemma EMGM_fixed_point_witness :
  initialization (lib := library_with_labels [0; 0]%nat) [[Fin 0; Fin 2]] 1
    = Ok [[Fin 1]; [Fin 1]] /\
  maximization [[Fin 0; Fin 2]] (reshape_col [Fin 1; Fin 1]) [[Fin 1]; [Fin 1]]
    = Ok ([[Fin 1]], [[[Fin (1 + 1e-6)]]], [Fin 1]) /\
  expectation (lib := library_with_labels [0; 0]%nat) [[Fin 0; Fin 2]]
    (reshape_col [Fin 1; Fin 1]) [[Fin 1]] [[[Fin (1 + 1e-6)]]] [Fin 1]
    = Ok ([[Fin 1]; [Fin 1]], Fin (- (ln (2 * PI) + ln (1 + 1e-6) + 1 / (1 + 1e-6)) / 2)) /\
  - (ln (2 * PI) + ln (1 + 1e-6) + 1 / (1 + 1e-6)) / 2 <> 0 /\
  EMGM (lib := library_with_labels [0; 0]%nat) [[Fin 0; Fin 2]] [Fin 1; Fin 1] 1
    = Ok (([[Fin 1]], [[[Fin (1 + 1e-6)]]], [Fin 1]), Converged 2).
Proof.
  assert (H1 : initialization (lib := library_with_labels [0; 0]%nat)
                 [[Fin 0; Fin 2]] 1 = Ok [[Fin 1]; [Fin 1]]) by reflexivity.
  pose proof two_point_maximization as H2.
  pose proof two_point_expectation as H3.
  pose proof two_point_llh_nonzero as H4.
  split; [exact H1|]. split; [exact H2|]. split; [exact H3|]. split; [exact H4|].
  exact (EMGM_fixed_point (lib := library_with_labels [0; 0]%nat)
           [[Fin 0; Fin 2]] [Fin 1; Fin 1] 1 _ _ _ _ _ H1 H2 H3 H4).
Defined.

Lemma EMGM_step_converged_witness :
  exists s',
    EMGM_step (lib := library_with_labels [0; 0]%nat)
      [[Fin 0; Fin 2]] [[Fin 1]; [Fin 1]]
      (mkState 2 false [NInf; Fin 1; Fin 1; NInf] [[Fin 1]; [Fin 1]] None) = Ok s' /\
    (1 <= 2)%nat /\
    st_converged s' = true.
Proof.
  set (s := mkState 2 false [NInf; Fin 1; Fin 1; NInf] [[Fin 1]; [Fin 1]] None).
  assert (H1 : exists s', EMGM_step (lib := library_with_labels [0; 0]%nat)
                            [[Fin 0; Fin 2]] [[Fin 1]; [Fin 1]] s = Ok s').
  { eexists. apply EMGM_step_spec.
    exists [[Fin 1]], [[[Fin (1 + 1e-6)]]], [Fin 1], [[Fin 1]; [Fin 1]],
      (Fin (- (ln (2 * PI) + ln (1 + 1e-6) + 1 / (1 + 1e-6)) / 2)).
    split; [cbn; lia|].
    split; [exact two_point_maximization|].
    split; [exact two_point_expectation | reflexivity]. }
  destruct H1 as (s' & H1).
  assert (H2 : (1 <= st_t s)%nat) by (cbn; lia).
  exists s'. split; [exact H1|]. split; [exact H2|].
  apply (EMGM_step_converged (lib := library_with_labels [0; 0]%nat) _ _ s s' H1 H2).
  exists 1, 1. split; [reflexivity|]. split; [reflexivity|].
  replace (1 - 1) with 0 by lra. rewrite Rabs_R0, Rabs_R1. lra.
Defined.

Lemma expectation_weights_only_llh_witness :
  expectation (lib := library_with_labels [0; 0]%nat)
    [[Fin 0; Fin 2]] [[Fin 1]; [Fin 1]] [[Fin 1]] [[[Fin (1 + 1e-6)]]] [Fin 1]
    = Ok ([[Fin 1]; [Fin 1]], Fin (- (ln (2 * PI) + ln (1 + 1e-6) + 1 / (1 + 1e-6)) / 2)) /\
  nrows [[Fin 5]; [Fin 7]] = nrows [[Fin 1]; [Fin 1]] /\
  ncols [[Fin 5]; [Fin 7]] = ncols [[Fin 1]; [Fin 1]] /\
  exists l',
    expectation (lib := library_with_labels [0; 0]%nat)
      [[Fin 0; Fin 2]] [[Fin 5]; [Fin 7]] [[Fin 1]] [[[Fin (1 + 1e-6)]]] [Fin 1]
    = Ok ([[Fin 1]; [Fin 1]], l').
Proof.
  pose proof two_point_expectation as H1.
  assert (H2 : nrows [[Fin 5]; [Fin 7]] = nrows [[Fin 1]; [Fin 1]]) by reflexivity.
  assert (H3 : ncols [[Fin 5]; [Fin 7]] = ncols [[Fin 1]; [Fin 1]]) by reflexivity.
  split; [exact H1|]. split; [exact H2|]. split; [exact H3|].
  exact (expectation_weights_only_llh (lib := library_with_labels [0; 0]%nat)
           _ _ [[Fin 5]; [Fin 7]] _ _ _ _ _ H1 H2 H3).
Defined.

Lemma maximization_one_component_centroid_witness :
  has_shape 1 2 [[Fin 1; Fin 3]] /\ has_shape 2 1 [[Fin 1]; [Fin 3]] /\
  has_shape 2 1 [[Fin 1]; [Fin 1]] /\
  exists mu Sigma w,
    maximization [[Fin 1; Fin 3]] [[Fin 1]; [Fin 3]] [[Fin 1]; [Fin 1]]
      = Ok (mu, Sigma, w) /\
    get mu 0 0 = Fin ((1 * (1 * 1) + (3 * (3 * 1) + 0)) / (1 * 1 + (3 * 1 + 0))).
Proof.
  assert (H1 : has_shape 1 2 [[Fin 1; Fin 3]])
    by (split; [reflexivity | repeat constructor]).
  assert (H2 : has_shape 2 1 [[Fin 1]; [Fin 3]])
    by (split; [reflexivity | repeat constructor]).
  assert (H3 : has_shape 2 1 [[Fin 1]; [Fin 1]])
    by (split; [reflexivity | repeat constructor]).
  repeat (split; [assumption|]).
  destruct (maximization_one_component_centroid
              [[Fin 1; Fin 3]] [[Fin 1]; [Fin 3]] [[Fin 1]; [Fin 1]] 1 2 H1 H2 H3)
    as (mu & Sigma & w & HM & _ & _ & _ & Hmu).
  - lia.
  - lia.
  - intros [|a] [|[|l]] Ha Hl; try lia; eexists; reflexivity.
  - intros [|[|l]] Hl; try lia; eexists; reflexivity.
  - intros [|[|l]] Hl; try lia; eexists; reflexivity.
  - unfold rsum. cbn. lra.
  - exists mu, Sigma, w. split; [exact HM|]. apply (Hmu 0%nat). lia.
Defined.

Lemma maximization_covariances_symmetric_witness :
  has_shape 2 2 X22 /\ has_shape 2 1 W2 /\ has_shape 2 2 R22 /\
  exists mu Sigma w,
    maximization X22 W2 R22 = Ok (mu, Sigma, w) /\
    length Sigma = 2%nat /\
    get (nth 0 Sigma []) 0 1 = get (nth 0 Sigma []) 1 0.
Proof.
  assert (H1 : has_shape 2 2 X22) by (split; [reflexivity | repeat constructor]).
  assert (H2 : has_shape 2 1 W2) by (split; [reflexivity | repeat constructor]).
  assert (H3 : has_shape 2 2 R22) by (split; [reflexivity | repeat constructor]).
  repeat (split; [assumption|]).
  destruct maximization_X22 as (Sigma & w & HM).
  assert (H4 : (0 < 2)%nat) by lia.
  destruct (maximization_covariances_symmetric X22 W2 R22
              [[Fin (4 / 3); Fin (2 / 3)]; [Fin 10; Fin 4]] Sigma w 2 2 2
              H1 H2 H3 H4 H4 H4 HM) as (_ & HS & _ & Hsym).
  eexists _, Sigma, w. split; [exact HM|]. split; [exact HS|].
  apply (Hsym 0%nat); lia.
Defined.

Lemma maximization_covariances_pos_def_witness :
  has_shape 2 2 X22 /\ has_shape 2 1 W2 /\ has_shape 2 2 R22 /\
  exists mu Sigma w,
    maximization X22 W2 R22 = Ok (mu, Sigma, w) /\
    pos_def 2 (nth 0 Sigma []) /\ pos_def 2 (nth 1 Sigma []).
Proof.
  assert (H1 : has_shape 2 2 X22) by (split; [reflexivity | repeat constructor]).
  assert (H2 : has_shape 2 1 W2) by (split; [reflexivity | repeat constructor]).
  assert (H3 : has_shape 2 2 R22) by (split; [reflexivity | repeat constructor]).
  repeat (split; [assumption|]).
  destruct maximization_X22 as (Sigma & w & HM).
  destruct (maximization_covariances_pos_def X22 W2 R22
              [[Fin (4 / 3); Fin (2 / 3)]; [Fin 10; Fin 4]] Sigma w 2 2 2 H1 H2 H3)
    as (_ & HP); [lia | lia | lia | | | | | exact HM |].
  - intros [|[|a]] [|[|l]] Ha Hl; try lia; eexists; reflexivity.
  - intros [|[|l]] Hl; try lia; eexists; (split; [reflexivity | lra]).
  - intros [|[|l]] [|[|j]] Hl Hj; try lia; eexists; (split; [reflexivity | lra]).
  - intros [|[|j]] Hj; try lia; unfold rsum; cbn; lra.
  - eexists _, Sigma, w. split; [exact HM|]. split; apply HP; lia.
Defined.

Lemma loggausspdf_univariate_witness :
  0 < 4 /\ [0; 2] <> [] /\
  cholesky (Library := library_with_labels []) [[Fin 4]] = Ok [[Fin (sqrt 4)]] /\
  solve (Library := library_with_labels []) [[Fin (sqrt 4)]]
    [map (fun x => Fin (x - 1)) [0; 2]] =
    Ok [map (fun x => Fin ((x - 1) / sqrt 4)) [0; 2]] /\
  loggausspdf (lib := library_with_labels []) [map Fin [0; 2]] [Fin 1] [[Fin 4]] =
  Ok (map (fun x => Fin (- (ln (2 * PI) + ln 4 + (x - 1) * (x - 1) / 4) / 2)) [0; 2]).
Proof.
  assert (H1 : 0 < 4) by lra.
  assert (H2 : [0; 2] <> []) by discriminate.
  assert (H3 : cholesky (Library := library_with_labels []) [[Fin 4]]
               = Ok [[Fin (sqrt 4)]]).
  { cbn [cholesky library_with_labels]. unfold lapack_cholesky. num_eval_sqrt. reflexivity. }
  assert (H4 : solve (Library := library_with_labels []) [[Fin (sqrt 4)]]
                 [map (fun x => Fin (x - 1)) [0; 2]] =
               Ok [map (fun x => Fin ((x - 1) / sqrt 4)) [0; 2]]).
  { cbn [solve library_with_labels]. unfold triangular_solve. num_eval_sqrt. reflexivity. }
  split; [exact H1|]. split; [exact H2|]. split; [exact H3|]. split; [exact H4|].
  exact (loggausspdf_univariate (lib := library_with_labels []) [0; 2] 1 4 H1 H2 H3 H4).
Defined.

Lemma expectation_one_component_witness :
  exists logpdf,
    expectation_logpdf (lib := library_with_labels [0; 0]%nat)
      [[Fin 0; Fin 2]] [[Fin 1]] [[[Fin 1]]] [Fin 1] = Ok logpdf /\
    has_shape 2 1 logpdf /\ has_shape 2 1 [[Fin 1]; [Fin 3]] /\
    (0 < 2)%nat /\ 2%nat <> 1%nat /\
    exists l,
      expectation (lib := library_with_labels [0; 0]%nat)
        [[Fin 0; Fin 2]] [[Fin 1]; [Fin 3]] [[Fin 1]] [[[Fin 1]]] [Fin 1]
      = Ok ([[Fin 1]; [Fin 1]], l).
Proof.
  eassert (H1 : expectation_logpdf (lib := library_with_labels [0; 0]%nat)
                  [[Fin 0; Fin 2]] [[Fin 1]] [[[Fin 1]]] [Fin 1] = Ok _).
  { unfold expectation_logpdf, loggausspdf. num_eval_pos. reflexivity. }
  match type of H1 with
  | _ = Ok ?p => assert (H2 : has_shape 2 1 p)
  end.
  { split; [reflexivity | repeat constructor]. }
  assert (H3 : has_shape 2 1 [[Fin 1]; [Fin 3]])
    by (split; [reflexivity | repeat constructor]).
  assert (H4 : (0 < 2)%nat) by lia.
  assert (H5 : 2%nat <> 1%nat) by lia.
  eexists. split; [exact H1|]. split; [exact H2|]. split; [exact H3|].
  split; [exact H4|]. split; [exact H5|].
  eexists.
  apply (expectation_one_component (lib := library_with_labels [0; 0]%nat)
           _ [[Fin 1]; [Fin 3]] _ _ _ _ 2 H1 H2 H3 H4 H5).
  intros [|[|i]] Hi; [eexists; reflexivity | eexists; reflexivity | lia].
Defined.

End MoreWitnesses.
